(** * astral: a shallow embedding of the glyph renderer's core

    The development follows the TypeScript sources module by module.  A
    JavaScript [number] is an IEEE-754 binary64 value and is embedded as
    Rocq's primitive [float] throughout: geometry, spatial hashing, cache
    keys, typed arrays, glyph scores and the adaptive-quality controller
    are all computed on the bits that the program computes.  Rationals [Q]
    appear only where a statement compares such a result with exact
    arithmetic. *)

From Stdlib Require Import ZArith QArith Lia List Bool.
From Stdlib Require Import Floats.
From stdpp Require Import gmap list strings sorting.

Set Warnings "-inexact-float".

(** * JavaScript numbers

    The operations of the host language that the sources use, on binary64
    values: conversions to integers, [Math.floor], [Math.max], [Math.min],
    the element conversions of typed arrays.  Arithmetic and comparisons are
    those of [PrimFloat]; [a > b] is [b <? a], [a === b] is [a =? b] and
    [a !== b] its negation. *)
Module Js.
Local Open Scope float_scope.

(** The number with a given integer value (exact below 2^53). *)
Definition ofZ (z : Z) : float := SF2Prim (binary_normalize prec emax z 0 false).

(** Truncation toward zero of a finite number; [None] for NaN and the
    infinities. *)
Definition truncZ (x : float) : option Z :=
  match Prim2SF x with
  | S754_zero _ => Some 0%Z
  | S754_finite s m e =>
      let mag := if (0 <=? e)%Z then Z.shiftl (Zpos m) e
                 else Z.shiftr (Zpos m) (- e) in
      Some (if s then (- mag)%Z else mag)
  | _ => None
  end.

(** The integer [Math.floor(x)] of a finite number. *)
Definition floorZ (x : float) : option Z :=
  match Prim2SF x with
  | S754_zero _ => Some 0%Z
  | S754_finite s m e =>
      let z := if s then Z.neg m else Z.pos m in
      Some (if (0 <=? e)%Z then Z.shiftl z e else Z.shiftr z (- e))
  | _ => None
  end.

(** [Math.floor]: NaN, the infinities and both zeros are returned as they
    are. *)
Definition Math_floor (x : float) : float :=
  match Prim2SF x with
  | S754_finite s m e =>
      if (0 <=? e)%Z then x
      else let z := Z.shiftr (if s then Z.neg m else Z.pos m) (- e) in
           if (z =? 0)%Z then 0 else ofZ z
  | _ => x
  end.

Definition wrap (bits : Z) (z : Z) : Z := (z mod 2 ^ bits)%Z.

Definition wrapSigned (bits : Z) (z : Z) : Z :=
  let u := wrap bits z in
  if (u <? 2 ^ (bits - 1))%Z then u else (u - 2 ^ bits)%Z.

(** [ToInt32], applied by the bitwise operators. *)
Definition ToInt32 (x : float) : Z :=
  match truncZ x with Some z => wrapSigned 32 z | None => 0%Z end.

(** The element conversions of [Uint32Array], [Uint8Array], [Int16Array]
    and [Float32Array]; the stored element is read back as a number. *)
Definition toUint32 (x : float) : float :=
  ofZ (match truncZ x with Some z => wrap 32 z | None => 0%Z end).

Definition toUint8 (x : float) : float :=
  ofZ (match truncZ x with Some z => wrap 8 z | None => 0%Z end).

Definition toInt16 (x : float) : float :=
  ofZ (match truncZ x with Some z => wrapSigned 16 z | None => 0%Z end).

Definition fround (x : float) : float :=
  match Prim2SF x with
  | S754_finite s m e =>
      SF2Prim (binary_normalize 24 128 (cond_Zopp s (Zpos m)) e s)
  | _ => x
  end.

(** [Math.max] and [Math.min] of two numbers: NaN if either is, and +0 above
    -0. *)
Definition Math_max (a b : float) : float :=
  if (is_nan a || is_nan b)%bool then nan
  else if a <? b then b
  else if b <? a then a
  else if get_sign a then b else a.

Definition Math_min (a b : float) : float :=
  if (is_nan a || is_nan b)%bool then nan
  else if a <? b then a
  else if b <? a then b
  else if get_sign a then a else b.

(** The array index that a number denotes as a property key, if any: the
    number has to be a non-negative integer. *)
Definition toIndexZ (k : float) : option Z :=
  match Prim2SF k with
  | S754_zero _ => Some 0%Z
  | S754_finite false m e =>
      if (0 <=? e)%Z then Some (Z.shiftl (Zpos m) e)
      else if (Z.land (Zpos m) (Z.ones (- e)) =? 0)%Z
           then Some (Z.shiftr (Zpos m) (- e))
           else None
  | _ => None
  end.

Definition toIndex (k : float) : option nat :=
  match toIndexZ k with
  | Some z => Some (Z.to_nat z)
  | None => None
  end.

(** The host's trigonometric functions.  ECMAScript leaves their values
    implementation-approximated, except at the special arguments; nothing
    else is assumed of them. *)
Record MathLib := {
  Math_cos : float -> float;
  Math_sin : float -> float;
  Math_tan : float -> float
}.

(** What ECMAScript fixes at the zeros. *)
Definition exactAtZero (math : MathLib) : Prop :=
  Math_cos math 0 = 1 /\ Math_cos math (-0) = 1 /\
  Math_sin math 0 = 0 /\ Math_sin math (-0) = (-0).

End Js.

(** * The order of binary64 numbers

    [<] on numbers is a strict order that ignores NaN; the facts below are
    read off the specification of the comparison. *)
Module FloatOrder.
Local Open Scope float_scope.

(** The order of two finite numbers of one sign: by exponent, then by
    mantissa. *)
Definition lexCompare (e1 : Z) (m1 : positive) (e2 : Z) (m2 : positive) : comparison :=
  match Z.compare e1 e2 with
  | Lt => Lt
  | Gt => Gt
  | Eq => Pos.compare_cont Eq m1 m2
  end.

Lemma lexCompare_lt e1 m1 e2 m2 :
  lexCompare e1 m1 e2 m2 = Lt <-> (e1 < e2 \/ e1 = e2 /\ Pos.lt m1 m2)%Z.
Proof.
  unfold lexCompare. fold (Pos.compare m1 m2).
  destruct (Z.compare_spec e1 e2) as [->|H|H].
  - rewrite Pos.compare_lt_iff. split; [auto|]. intros [H|[_ H]]; [lia|exact H].
  - split; [auto|reflexivity].
  - split; [discriminate|]. intros [H'|[H' _]]; lia.
Qed.

(** The same for two negative numbers. *)
Definition lexCompareNeg (e1 : Z) (m1 : positive) (e2 : Z) (m2 : positive) : comparison :=
  match Z.compare e1 e2 with
  | Lt => Gt
  | Gt => Lt
  | Eq => CompOpp (Pos.compare_cont Eq m1 m2)
  end.

Lemma lexCompareNeg_lt e1 m1 e2 m2 :
  lexCompareNeg e1 m1 e2 m2 = Lt <-> (e2 < e1 \/ e1 = e2 /\ Pos.lt m2 m1)%Z.
Proof.
  unfold lexCompareNeg. fold (Pos.compare m1 m2).
  destruct (Z.compare_spec e1 e2) as [->|H|H].
  - rewrite <- Pos.compare_antisym, Pos.compare_lt_iff.
    split; [auto|]. intros [H|[_ H]]; [lia|exact H].
  - split; [discriminate|]. intros [H'|[H' _]]; lia.
  - split; [auto|reflexivity].
Qed.

Lemma SFcompare_lt_trans a b c :
  SFcompare a b = Some Lt -> SFcompare b c = Some Lt -> SFcompare a c = Some Lt.
Proof.
  destruct a as [sa|sa| |sa ma ea], b as [sb|sb| |sb mb eb],
    c as [sc|sc| |sc mc ec]; cbn;
    repeat match goal with s : bool |- _ => destruct s end;
    try discriminate; try reflexivity;
    fold (lexCompare ea ma eb mb) (lexCompare eb mb ec mc) (lexCompare ea ma ec mc);
    fold (lexCompareNeg ea ma eb mb) (lexCompareNeg eb mb ec mc)
         (lexCompareNeg ea ma ec mc);
    intros [= H1] [= H2]; f_equal; revert H1 H2;
    rewrite ?lexCompare_lt, ?lexCompareNeg_lt; lia.
Qed.

Lemma ltb_trans a b c : (a <? b) = true -> (b <? c) = true -> (a <? c) = true.
Proof.
  rewrite !ltb_spec. unfold SFltb. intros H1 H2.
  destruct (SFcompare (Prim2SF a) (Prim2SF b)) as [[]|] eqn:E1; try discriminate.
  destruct (SFcompare (Prim2SF b) (Prim2SF c)) as [[]|] eqn:E2; try discriminate.
  rewrite (SFcompare_lt_trans _ _ _ E1 E2). reflexivity.
Qed.

Lemma ltb_irrefl a : (a <? a) = false.
Proof.
  rewrite ltb_spec. unfold SFltb.
  destruct (Prim2SF a) as [s|s| |s m e]; cbn; try destruct s; try reflexivity;
    rewrite Z.compare_refl; fold (Pos.compare m m); rewrite Pos.compare_refl;
    reflexivity.
Qed.

(** What is below some number is below [Infinity]. *)
Lemma ltb_infinity_r a b : (a <? b) = true -> (a <? infinity) = true.
Proof.
  rewrite !ltb_spec. unfold SFltb. change (Prim2SF infinity) with (S754_infinity false).
  destruct (Prim2SF a) as [s|s| |s m e], (Prim2SF b) as [s'|s'| |s' m' e']; cbn;
    try destruct s; try destruct s'; try discriminate; reflexivity.
Qed.

Lemma infinity_ltb a : (infinity <? a) = false.
Proof.
  rewrite ltb_spec. unfold SFltb. change (Prim2SF infinity) with (S754_infinity false).
  destruct (Prim2SF a) as [s|s| |s m e]; cbn; try destruct s; reflexivity.
Qed.

(** Numbers that are [===] compare alike with every third number. *)
Lemma SFcompare_eq_left a b k :
  SFcompare a b = Some Eq -> SFcompare a k = SFcompare b k.
Proof.
  destruct a as [sa|sa| |sa ma ea], b as [sb|sb| |sb mb eb]; cbn;
    try discriminate;
    try (destruct sa, sb; try discriminate; reflexivity);
    try (destruct k as [sk|sk| |sk mk ek]; reflexivity).
  destruct sa, sb; try discriminate;
    destruct (Z.compare_spec ea eb) as [->|H|H]; try discriminate;
    fold (Pos.compare ma mb); destruct (Pos.compare_spec ma mb) as [->|H|H];
    try discriminate; reflexivity.
Qed.

Lemma eqb_leb_left a b k : (a =? b) = true -> (a <=? k) = (b <=? k).
Proof.
  rewrite FloatAxioms.eqb_spec, !leb_spec. unfold SFeqb, SFleb. intros H.
  destruct (SFcompare (Prim2SF a) (Prim2SF b)) as [[]|] eqn:E; try discriminate.
  rewrite (SFcompare_eq_left _ _ _ E). reflexivity.
Qed.

Lemma SFcompare_eq_right a b k :
  SFcompare a b = Some Eq -> SFcompare k a = SFcompare k b.
Proof.
  destruct a as [sa|sa| |sa ma ea], b as [sb|sb| |sb mb eb]; cbn;
    try discriminate;
    try (destruct sa, sb; try discriminate; reflexivity);
    try (destruct k as [sk|sk| |sk mk ek]; reflexivity).
  destruct sa, sb; try discriminate;
    destruct (Z.compare_spec ea eb) as [->|H|H]; try discriminate;
    fold (Pos.compare ma mb); destruct (Pos.compare_spec ma mb) as [->|H|H];
    try discriminate; reflexivity.
Qed.

Lemma lexCompare_gt e1 m1 e2 m2 :
  lexCompare e1 m1 e2 m2 = Gt <-> lexCompare e2 m2 e1 m1 = Lt.
Proof.
  rewrite lexCompare_lt. unfold lexCompare. fold (Pos.compare m1 m2).
  destruct (Z.compare_spec e1 e2) as [->|H|H].
  - rewrite Pos.compare_gt_iff. split; [auto|]. intros [H|[_ H]]; [lia|exact H].
  - split; [discriminate|]. intros [H'|[H' _]]; lia.
  - split; [auto|reflexivity].
Qed.

Lemma lexCompareNeg_gt e1 m1 e2 m2 :
  lexCompareNeg e1 m1 e2 m2 = Gt <-> lexCompareNeg e2 m2 e1 m1 = Lt.
Proof.
  rewrite lexCompareNeg_lt. unfold lexCompareNeg. fold (Pos.compare m1 m2).
  destruct (Z.compare_spec e1 e2) as [->|H|H].
  - rewrite <- Pos.compare_antisym, Pos.compare_gt_iff.
    split; [auto|]. intros [H|[_ H]]; [lia|exact H].
  - split; [auto|reflexivity].
  - split; [discriminate|]. intros [H'|[H' _]]; lia.
Qed.

Lemma SFcompare_antisym a b :
  SFcompare a b = Some Lt -> SFcompare b a = Some Gt.
Proof.
  destruct a as [sa|sa| |sa ma ea], b as [sb|sb| |sb mb eb]; cbn;
    repeat match goal with s : bool |- _ => destruct s end;
    try discriminate; try reflexivity;
    fold (lexCompare ea ma eb mb) (lexCompare eb mb ea ma);
    fold (lexCompareNeg ea ma eb mb) (lexCompareNeg eb mb ea ma);
    intros [= H]; f_equal;
    first [apply lexCompare_gt, H | apply lexCompareNeg_gt, H].
Qed.

(** [<=] and [<] chain as in any preorder; NaN is related to nothing. *)
Lemma leb_trans a b c : (a <=? b) = true -> (b <=? c) = true -> (a <=? c) = true.
Proof.
  rewrite !leb_spec. unfold SFleb. intros H1 H2.
  destruct (SFcompare (Prim2SF a) (Prim2SF b)) as [[]|] eqn:E1; try discriminate;
    destruct (SFcompare (Prim2SF b) (Prim2SF c)) as [[]|] eqn:E2; try discriminate.
  - rewrite (SFcompare_eq_left _ _ _ E1), E2. reflexivity.
  - rewrite (SFcompare_eq_left _ _ _ E1), E2. reflexivity.
  - rewrite <- (SFcompare_eq_right _ _ _ E2), E1. reflexivity.
  - rewrite (SFcompare_lt_trans _ _ _ E1 E2). reflexivity.
Qed.

Lemma leb_ltb_trans a b c : (a <=? b) = true -> (b <? c) = true -> (a <? c) = true.
Proof.
  rewrite leb_spec, !ltb_spec. unfold SFleb, SFltb. intros H1 H2.
  destruct (SFcompare (Prim2SF a) (Prim2SF b)) as [[]|] eqn:E1; try discriminate;
    destruct (SFcompare (Prim2SF b) (Prim2SF c)) as [[]|] eqn:E2; try discriminate.
  - rewrite (SFcompare_eq_left _ _ _ E1), E2. reflexivity.
  - rewrite (SFcompare_lt_trans _ _ _ E1 E2). reflexivity.
Qed.

Lemma ltb_leb_trans a b c : (a <? b) = true -> (b <=? c) = true -> (a <? c) = true.
Proof.
  rewrite leb_spec, !ltb_spec. unfold SFleb, SFltb. intros H1 H2.
  destruct (SFcompare (Prim2SF a) (Prim2SF b)) as [[]|] eqn:E1; try discriminate;
    destruct (SFcompare (Prim2SF b) (Prim2SF c)) as [[]|] eqn:E2; try discriminate.
  - rewrite <- (SFcompare_eq_right _ _ _ E2), E1. reflexivity.
  - rewrite (SFcompare_lt_trans _ _ _ E1 E2). reflexivity.
Qed.

Lemma ltb_leb a b : (a <? b) = true -> (a <=? b) = true.
Proof.
  rewrite leb_spec, ltb_spec. unfold SFleb, SFltb.
  destruct (SFcompare (Prim2SF a) (Prim2SF b)) as [[]|]; try discriminate.
  reflexivity.
Qed.

Lemma ltb_not_leb a b : (a <? b) = true -> (b <=? a) = false.
Proof.
  rewrite leb_spec, ltb_spec. unfold SFleb, SFltb. intros H.
  destruct (SFcompare (Prim2SF a) (Prim2SF b)) as [[]|] eqn:E; try discriminate.
  rewrite (SFcompare_antisym _ _ E). reflexivity.
Qed.

Lemma leb_not_ltb a b : (a <=? b) = true -> (b <? a) = false.
Proof.
  intros H. destruct (b <? a) eqn:E; [|reflexivity].
  rewrite (ltb_not_leb _ _ E) in H. discriminate.
Qed.

(** What is not below [Infinity] is [Infinity] or NaN, and so not below
    or equal to anything that is. *)
Lemma not_below_infinity x s :
  (x <? infinity) = false -> (s <? infinity) = true -> (x <=? s) = false.
Proof.
  rewrite leb_spec, !ltb_spec. unfold SFleb, SFltb.
  change (Prim2SF infinity) with (S754_infinity false).
  destruct (Prim2SF x) as [sx|sx| |sx mx ex], (Prim2SF s) as [ss|ss| |ss ms es];
    cbn; try destruct sx; try destruct ss; try discriminate; reflexivity.
Qed.

(** Comparing the other way round gives the opposite result. *)
Lemma SFcompare_flip a b :
  SFcompare b a = option_map CompOpp (SFcompare a b).
Proof.
  destruct a as [sa|sa| |sa ma ea], b as [sb|sb| |sb mb eb]; cbn;
    repeat match goal with s : bool |- _ => destruct s end; try reflexivity;
    rewrite (Z.compare_antisym ea eb);
    destruct (ea ?= eb)%Z; cbn; try reflexivity;
    fold (Pos.compare mb ma) (Pos.compare ma mb);
    rewrite (Pos.compare_antisym ma mb);
    destruct (ma ?= mb)%positive; reflexivity.
Qed.

(** Two numbers, neither of them NaN, are comparable. *)
Lemma not_ltb_leb a b :
  (a =? a) = true -> (b =? b) = true -> (a <? b) = false -> (b <=? a) = true.
Proof.
  rewrite !FloatAxioms.eqb_spec, ltb_spec, leb_spec. unfold SFeqb, SFltb, SFleb.
  rewrite (SFcompare_flip (Prim2SF a) (Prim2SF b)).
  destruct (Prim2SF a) as [sa|sa| |sa ma ea], (Prim2SF b) as [sb|sb| |sb mb eb];
    cbn; try discriminate; intros _ _;
    repeat match goal with s : bool |- _ => destruct s end; try discriminate;
    try reflexivity;
    destruct (ea ?= eb)%Z; try discriminate; try reflexivity;
    destruct (Pos.compare_cont Eq ma mb); try discriminate; reflexivity.
Qed.

Lemma not_leb_ltb a b :
  (a =? a) = true -> (b =? b) = true -> (a <=? b) = false -> (b <? a) = true.
Proof.
  rewrite !FloatAxioms.eqb_spec, ltb_spec, leb_spec. unfold SFeqb, SFltb, SFleb.
  rewrite (SFcompare_flip (Prim2SF a) (Prim2SF b)).
  destruct (Prim2SF a) as [sa|sa| |sa ma ea], (Prim2SF b) as [sb|sb| |sb mb eb];
    cbn; try discriminate; intros _ _;
    repeat match goal with s : bool |- _ => destruct s end; try discriminate;
    try reflexivity;
    destruct (ea ?= eb)%Z; try discriminate; try reflexivity;
    destruct (Pos.compare_cont Eq ma mb); try discriminate; reflexivity.
Qed.

(** What takes part in a comparison that holds is not NaN. *)
Lemma leb_number_l a b : (a <=? b) = true -> (a =? a) = true.
Proof.
  rewrite FloatAxioms.eqb_spec, leb_spec. unfold SFeqb, SFleb.
  destruct (Prim2SF a) as [sa|sa| |sa ma ea], (Prim2SF b) as [sb|sb| |sb mb eb];
    cbn; try discriminate; intros _; try destruct sa; try reflexivity;
    rewrite Z.compare_refl; fold (Pos.compare ma ma); rewrite Pos.compare_refl;
    reflexivity.
Qed.

Lemma leb_number_r a b : (a <=? b) = true -> (b =? b) = true.
Proof.
  rewrite FloatAxioms.eqb_spec, leb_spec. unfold SFeqb, SFleb.
  destruct (Prim2SF a) as [sa|sa| |sa ma ea], (Prim2SF b) as [sb|sb| |sb mb eb];
    cbn; try discriminate; intros _; try destruct sb; try reflexivity;
    rewrite Z.compare_refl; fold (Pos.compare mb mb); rewrite Pos.compare_refl;
    reflexivity.
Qed.

Lemma both_not_below x b :
  (x <? infinity) = false -> (b <? infinity) = false -> (x <? b) = false.
Proof.
  rewrite !ltb_spec. unfold SFltb.
  change (Prim2SF infinity) with (S754_infinity false).
  destruct (Prim2SF x) as [sx|sx| |sx mx ex], (Prim2SF b) as [sb|sb| |sb mb eb];
    cbn; try destruct sx; try destruct sb; try discriminate; reflexivity.
Qed.

(** [Infinity * s] for a positive [s]. *)
Lemma infinity_mul_pos s : (0 <? s) = true -> infinity * s = infinity.
Proof.
  intros Hs. rewrite <- (SF2Prim_Prim2SF (infinity * s)), mul_spec.
  rewrite ltb_spec in Hs. unfold SFltb in Hs.
  change (Prim2SF 0) with (S754_zero false) in Hs.
  change (Prim2SF infinity) with (S754_infinity false).
  destruct (Prim2SF s) as [sg|sg| |sg m e]; cbn in Hs; try destruct sg;
    try discriminate; reflexivity.
Qed.

End FloatOrder.

(** * Rounding to binary64 is monotone

    The operations of [SpecFloat] on finite numbers, read as roundings of
    exact integers in units of a power of two: a sum, a difference or a
    product is the rounding of the exact result, and the rounding is
    monotone.  Hence the order facts of the arithmetic that the program
    relies on. *)
Module FloatRound.
Local Open Scope Z_scope.

Lemma pow2_pos (n : Z) : 0 <= n -> 0 < 2 ^ n.
Proof. intros H. apply Z.pow_pos_nonneg; lia. Qed.

Lemma pow2_S (n : Z) : 0 <= n -> 2 ^ (n + 1) = 2 * 2 ^ n.
Proof. intros H. rewrite Z.pow_add_r by lia. change (2 ^ 1) with 2. lia. Qed.

Lemma pow2_le (a b : Z) : 0 <= a <= b -> 2 ^ a <= 2 ^ b.
Proof. intros H. apply Z.pow_le_mono_r; lia. Qed.

Lemma pow2_lt (a b : Z) : 0 <= a < b -> 2 ^ a < 2 ^ b.
Proof. intros H. apply Z.pow_lt_mono_r; lia. Qed.

(** ** Digits *)

Lemma digits_bounds (m : positive) :
  2 ^ (Zpos (digits2_pos m) - 1) <= Zpos m < 2 ^ Zpos (digits2_pos m).
Proof.
  induction m as [p IH|p IH|]; cbn [digits2_pos].
  - rewrite Pos2Z.inj_succ. unfold Z.succ.
    replace (Zpos (digits2_pos p) + 1 - 1) with (Zpos (digits2_pos p) - 1 + 1) by lia.
    rewrite !pow2_S by lia. rewrite (Pos2Z.inj_xI p). lia.
  - rewrite Pos2Z.inj_succ. unfold Z.succ.
    replace (Zpos (digits2_pos p) + 1 - 1) with (Zpos (digits2_pos p) - 1 + 1) by lia.
    rewrite !pow2_S by lia. rewrite (Pos2Z.inj_xO p). lia.
  - cbn. lia.
Qed.

Lemma digits_unique (m : positive) (d : Z) :
  2 ^ (d - 1) <= Zpos m < 2 ^ d -> Zpos (digits2_pos m) = d.
Proof.
  intros H. pose proof (digits_bounds m) as Hm.
  assert (Hd : 0 < d).
  { destruct (Z.lt_ge_cases 0 d) as [|Hle]; [assumption|].
    destruct (Z.eq_dec d 0) as [->|]; [cbn in H; lia|].
    rewrite (Z.pow_neg_r 2 d) in H by lia. lia. }
  destruct (Z.lt_trichotomy (Zpos (digits2_pos m)) d) as [Hlt|[E|Hgt]]; [|exact E|].
  - pose proof (pow2_le (Zpos (digits2_pos m)) (d - 1) ltac:(lia)). lia.
  - pose proof (pow2_le d (Zpos (digits2_pos m) - 1) ltac:(lia)). lia.
Qed.

Lemma digits_mono (m1 m2 : positive) :
  Zpos m1 <= Zpos m2 -> Zpos (digits2_pos m1) <= Zpos (digits2_pos m2).
Proof.
  intros H. pose proof (digits_bounds m1) as H1. pose proof (digits_bounds m2) as H2.
  destruct (Z.le_gt_cases (Zpos (digits2_pos m1)) (Zpos (digits2_pos m2))) as [|Hgt];
    [assumption|].
  pose proof (pow2_le (Zpos (digits2_pos m2)) (Zpos (digits2_pos m1) - 1) ltac:(lia)). lia.
Qed.

(** ** Shifting right *)

Lemma iter_pos_iter {A} (f : A -> A) (p : positive) : forall x,
  SpecFloat.iter_pos f p x = Pos.iter f x p.
Proof.
  induction p as [p IH|p IH|]; intros x; cbn [SpecFloat.iter_pos Pos.iter].
  - rewrite !IH, !Pos.iter_swap. reflexivity.
  - rewrite !IH. reflexivity.
  - reflexivity.
Qed.

(** One step on a non-negative mantissa. *)
Lemma shr_1_nonneg (m : Z) (r s : bool) :
  0 <= m ->
  shr_1 {| shr_m := m; shr_r := r; shr_s := s |}
  = {| shr_m := m / 2; shr_r := Z.odd m; shr_s := r || s |}.
Proof.
  intros Hm. destruct m as [|p|p]; [reflexivity| |lia].
  destruct p as [p|p|]; cbn [shr_1].
  - f_equal. apply (Z.div_unique_pos _ _ _ 1); lia.
  - f_equal. apply (Z.div_unique_pos _ _ _ 0); lia.
  - reflexivity.
Qed.

(** The record after [n] steps from an exact one. *)
Definition shifted (M n : Z) : shr_record :=
  {| shr_m := M / 2 ^ n;
     shr_r := Z.odd (M / 2 ^ (n - 1));
     shr_s := negb (M mod 2 ^ (n - 1) =? 0) |}.

Lemma shifted_step (M n : Z) :
  0 <= M -> 1 <= n -> shr_1 (shifted M n) = shifted M (n + 1).
Proof.
  intros HM Hn. unfold shifted.
  assert (Hp : 0 < 2 ^ (n - 1)) by (apply pow2_pos; lia).
  assert (Hp' : 0 < 2 ^ n) by (apply pow2_pos; lia).
  rewrite shr_1_nonneg by (apply Z.div_pos; lia).
  replace (n + 1 - 1) with n by lia. f_equal.
  - rewrite pow2_S by lia. rewrite Z.div_div by lia. f_equal. lia.
  - assert (E : 2 ^ n = 2 ^ (n - 1) * 2).
    { replace n with (n - 1 + 1) at 1 by lia. rewrite pow2_S by lia. lia. }
    rewrite E, Z.rem_mul_r by lia.
    pose proof (Z.mod_pos_bound M (2 ^ (n - 1)) Hp) as Hb.
    rewrite Zodd_mod. pose proof (Z.mod_pos_bound (M / 2 ^ (n - 1)) 2 ltac:(lia)) as Hb2.
    destruct (Z.eqb_spec ((M / 2 ^ (n - 1)) mod 2) 1) as [E1|E1];
      destruct (Z.eqb_spec (M mod 2 ^ (n - 1)) 0) as [E2|E2]; cbn [negb orb];
      symmetry.
    + apply negb_true_iff, Z.eqb_neq. nia.
    + apply negb_true_iff, Z.eqb_neq. nia.
    + apply negb_false_iff, Z.eqb_eq. nia.
    + apply negb_true_iff, Z.eqb_neq. nia.
Qed.

Lemma shifted_1 (M : Z) :
  0 <= M -> shr_1 {| shr_m := M; shr_r := false; shr_s := false |} = shifted M 1.
Proof.
  intros HM. rewrite shr_1_nonneg by exact HM. unfold shifted.
  change (2 ^ (1 - 1)) with 1. change (2 ^ 1) with 2.
  rewrite Z.div_1_r, Z.mod_1_r. reflexivity.
Qed.

Lemma iter_shifted (M : Z) (p : positive) :
  0 <= M ->
  SpecFloat.iter_pos shr_1 p {| shr_m := M; shr_r := false; shr_s := false |}
  = shifted M (Zpos p).
Proof.
  intros HM. rewrite iter_pos_iter.
  induction p as [|p IH] using Pos.peano_ind.
  - apply shifted_1, HM.
  - rewrite Pos.iter_succ, IH, shifted_step by lia.
    rewrite Pos2Z.inj_succ. reflexivity.
Qed.

(** ** Rounding to nearest, ties to even *)

(** The mantissa that [n] steps and the rounding leave of [M]. *)
Definition rne (M n : Z) : Z :=
  let q := M / 2 ^ n in
  let r := M mod 2 ^ n in
  if 2 * r <? 2 ^ n then q
  else if 2 * r =? 2 ^ n then (if Z.even q then q else q + 1)
  else q + 1.

Lemma round_shifted (M : Z) (p : positive) :
  0 <= M ->
  round_nearest_even (shr_m (shifted M (Zpos p))) (loc_of_shr_record (shifted M (Zpos p)))
  = rne M (Zpos p).
Proof.
  intros HM. unfold shifted, rne. cbn [shr_m loc_of_shr_record]. cbv zeta.
  set (n := Zpos p).
  assert (Hp : 0 < 2 ^ (n - 1)) by (apply pow2_pos; lia).
  assert (E : 2 ^ n = 2 ^ (n - 1) * 2).
  { replace n with (n - 1 + 1) at 1 by lia. rewrite pow2_S by lia. lia. }
  assert (Hr : M mod 2 ^ n = M mod 2 ^ (n - 1) + 2 ^ (n - 1) * ((M / 2 ^ (n - 1)) mod 2)).
  { rewrite E, Z.rem_mul_r by lia. reflexivity. }
  pose proof (Z.mod_pos_bound M (2 ^ (n - 1)) Hp) as Hb.
  pose proof (Z.mod_pos_bound (M / 2 ^ (n - 1)) 2 ltac:(lia)) as Hb2.
  rewrite Zodd_mod.
  destruct (Z.eqb_spec ((M / 2 ^ (n - 1)) mod 2) 1) as [E1|E1];
    destruct (Z.eqb_spec (M mod 2 ^ (n - 1)) 0) as [E2|E2]; cbn [negb];
    cbn [round_nearest_even].
  - destruct (Z.ltb_spec (2 * (M mod 2 ^ n)) (2 ^ n)); [nia|].
    destruct (Z.eqb_spec (2 * (M mod 2 ^ n)) (2 ^ n)); [reflexivity|nia].
  - destruct (Z.ltb_spec (2 * (M mod 2 ^ n)) (2 ^ n)); [nia|].
    destruct (Z.eqb_spec (2 * (M mod 2 ^ n)) (2 ^ n)); [nia|reflexivity].
  - destruct (Z.ltb_spec (2 * (M mod 2 ^ n)) (2 ^ n)); [reflexivity|nia].
  - destruct (Z.ltb_spec (2 * (M mod 2 ^ n)) (2 ^ n)); [reflexivity|nia].
Qed.

Lemma rne_0 (M : Z) : rne M 0 = M.
Proof.
  unfold rne. change (2 ^ 0) with 1. rewrite Z.div_1_r, Z.mod_1_r. reflexivity.
Qed.

(** ** The rounding of binary64 *)

Definition fexp64 (e : Z) : Z := Z.max (e - 53) (-1074).

Lemma fexp_eq (e : Z) : SpecFloat.fexp FloatOps.prec FloatOps.emax e = fexp64 e.
Proof. reflexivity. Qed.

(** The number of steps for the mantissa [M] at exponent [E]. *)
Definition steps (M E : Z) : Z := fexp64 (Zdigits2 M + E) - E.

Lemma shr_fexp_exact (M E : Z) :
  0 <= M -> 0 <= steps M E ->
  forall mrs e, shr_fexp FloatOps.prec FloatOps.emax M E loc_Exact = (mrs, e) ->
  round_nearest_even (shr_m mrs) (loc_of_shr_record mrs) = rne M (steps M E) /\
  e = E + steps M E.
Proof.
  intros HM Hn mrs e. unfold shr_fexp. rewrite fexp_eq. fold (steps M E).
  unfold shr. cbn [shr_record_of_loc].
  destruct (steps M E) as [|p|p] eqn:En; [| |lia].
  - intros [= <- <-]. cbn [shr_m loc_of_shr_record round_nearest_even].
    rewrite rne_0. split; [reflexivity|lia].
  - intros [= <- <-]. rewrite iter_shifted by exact HM.
    rewrite round_shifted by exact HM. split; reflexivity.
Qed.

(** The second half of [binary_round_aux]. *)
Definition finish (s : bool) (m2 e : Z) : spec_float :=
  let '(mrs, e') := shr_fexp FloatOps.prec FloatOps.emax m2 e loc_Exact in
  match shr_m mrs with
  | Z0 => S754_zero s
  | Zpos m => if e' <=? FloatOps.emax - FloatOps.prec then S754_finite s m e'
              else S754_infinity s
  | Zneg _ => S754_nan
  end.

Lemma binary_round_aux_eq (s : bool) (M E : Z) :
  0 <= M -> 0 <= steps M E ->
  binary_round_aux FloatOps.prec FloatOps.emax s M E loc_Exact
  = finish s (rne M (steps M E)) (E + steps M E).
Proof.
  intros HM Hn. unfold binary_round_aux.
  destruct (shr_fexp FloatOps.prec FloatOps.emax M E loc_Exact) as [mrs e] eqn:E1.
  destruct (shr_fexp_exact M E HM Hn mrs e E1) as [-> ->]. reflexivity.
Qed.

(** ** The order of the results *)

Definition top : Z := 2 ^ 2098.

(** A number in units of [2 ^ -1074]; the infinities stand just outside
    the finite numbers. *)
Definition ordv (x : spec_float) : Z :=
  match x with
  | S754_zero _ => 0
  | S754_infinity s => if s then - top else top
  | S754_nan => 0
  | S754_finite s m e =>
      if s then - (Zpos m * 2 ^ (e + 1074)) else Zpos m * 2 ^ (e + 1074)
  end.

Definition signed (s : bool) (v : Z) : Z := if s then - v else v.

(** What [rne] leaves: at most 53 bits and one more for a carry, and less
    than 53 bits only at the least exponent. *)
Definition rounded (m2 e : Z) : Prop :=
  0 <= m2 <= 2 ^ 53 /\ -1074 <= e /\ (m2 < 2 ^ 52 -> e = -1074).

Lemma top_split (a b : Z) : 0 <= a -> 0 <= b -> a + b = 2098 -> top = 2 ^ a * 2 ^ b.
Proof. intros Ha Hb E. unfold top. rewrite <- Z.pow_add_r by lia. rewrite E. reflexivity. Qed.

Lemma below_top (m e : Z) :
  0 <= m < 2 ^ 53 -> -1074 <= e <= 971 -> m * 2 ^ (e + 1074) < top.
Proof.
  intros Hm He. rewrite (top_split 53 2045) by lia.
  pose proof (pow2_le (e + 1074) 2045 ltac:(lia)) as Hle.
  pose proof (pow2_pos (e + 1074) ltac:(lia)) as Hpos.
  apply Z.le_lt_trans with (m * 2 ^ 2045); [nia|].
  pose proof (pow2_pos 2045 ltac:(lia)). nia.
Qed.

Lemma above_top (m e : Z) :
  2 ^ 52 <= m -> 972 <= e -> top <= m * 2 ^ (e + 1074).
Proof.
  intros Hm He. rewrite (top_split 52 2046) by lia.
  pose proof (pow2_le 2046 (e + 1074) ltac:(lia)) as Hle.
  pose proof (pow2_pos 2046 ltac:(lia)) as Hpos.
  pose proof (pow2_pos 52 ltac:(lia)) as Hpos'.
  apply Z.le_trans with (2 ^ 52 * 2 ^ (e + 1074)); nia.
Qed.

Lemma finish_ordv (s : bool) (m2 e : Z) :
  rounded m2 e ->
  finish s m2 e <> S754_nan /\
  ordv (finish s m2 e) = signed s (Z.min (m2 * 2 ^ (e + 1074)) top).
Proof.
  intros ([Hm0 Hm1] & He & Hsub). unfold finish, shr_fexp. rewrite fexp_eq.
  cbn [shr_record_of_loc].
  assert (Htop : 0 < top) by (apply pow2_pos; lia).
  destruct m2 as [|p|p]; [| |lia].
  - cbn [Zdigits2]. unfold fexp64, shr.
    destruct (Z.max (0 + e - 53) (-1074) - e) as [|q|q] eqn:En; [|lia|];
      cbn [shr_m]; (split; [discriminate|]); cbn [ordv];
      rewrite Z.mul_0_l, Z.min_l by lia; destruct s; reflexivity.
  - cbn [Zdigits2]. pose proof (digits_bounds p) as Hd.
    set (d := Zpos (digits2_pos p)) in *.
    destruct (Z.lt_ge_cases (Zpos p) (2 ^ 52)) as [Hlt|Hge].
    + specialize (Hsub Hlt). subst e.
      assert (Hd52 : d <= 52).
      { destruct (Z.le_gt_cases d 52) as [|Hgt]; [assumption|].
        pose proof (pow2_le 52 (d - 1) ltac:(lia)). lia. }
      unfold fexp64, shr. replace (Z.max (d + -1074 - 53) (-1074) - -1074) with 0 by lia.
      cbn [shr_m]. change (-1074 <=? FloatOps.emax - FloatOps.prec) with true. cbv iota.
      split; [discriminate|]. cbn [ordv]. change (2 ^ (-1074 + 1074)) with 1.
      rewrite Z.min_l; [destruct s; reflexivity|].
      pose proof (pow2_lt 52 2098 ltac:(lia)). unfold top. lia.
    + destruct (Z.lt_ge_cases (Zpos p) (2 ^ 53)) as [Hlt|Hge'].
      * assert (Hd53 : d = 53) by (apply digits_unique; change (53 - 1) with 52; lia).
        unfold fexp64, shr. rewrite Hd53.
        replace (Z.max (53 + e - 53) (-1074) - e) with 0 by lia.
        cbn [shr_m]. change (FloatOps.emax - FloatOps.prec) with 971.
        destruct (Z.leb_spec e 971) as [Hle|Hgt].
        -- split; [discriminate|]. cbn [ordv].
           rewrite Z.min_l; [destruct s; reflexivity|].
           pose proof (below_top (Zpos p) e ltac:(lia) ltac:(lia)). lia.
        -- split; [discriminate|]. cbn [ordv].
           rewrite Z.min_r; [destruct s; reflexivity|].
           apply above_top; lia.
      * assert (Hp : Zpos p = 2 ^ 53) by lia.
        assert (Hd54 : d = 54) by (apply digits_unique; change (54 - 1) with 53;
                                    pose proof (pow2_lt 53 54 ltac:(lia)); lia).
        unfold fexp64, shr. rewrite Hd54.
        replace (Z.max (54 + e - 53) (-1074) - e) with 1 by lia.
        rewrite iter_shifted by lia. unfold shifted. cbn [shr_m].
        rewrite Hp. change (2 ^ 53 / 2 ^ 1) with (Zpos (Pos.pow 2 52)).
        change (FloatOps.emax - FloatOps.prec) with 971.
        assert (Hval : Zpos (Pos.pow 2 52) * 2 ^ (e + 1 + 1074) = 2 ^ 53 * 2 ^ (e + 1074)).
        { replace (e + 1 + 1074) with (e + 1074 + 1) by lia. rewrite pow2_S by lia.
          change (Zpos (Pos.pow 2 52)) with (2 ^ 52). change (2 ^ 53) with (2 * 2 ^ 52).
          lia. }
        destruct (Z.leb_spec (e + 1) 971) as [Hle|Hgt].
        -- split; [discriminate|]. cbn [ordv]. rewrite Hval.
           rewrite Z.min_l; [destruct s; reflexivity|].
           rewrite <- Hval.
           pose proof (below_top (Zpos (Pos.pow 2 52)) (e + 1) ltac:(cbn; lia) ltac:(lia)).
           lia.
        -- split; [discriminate|]. cbn [ordv].
           rewrite Z.min_r; [destruct s; reflexivity|].
           rewrite <- Hval. apply above_top; [cbn; lia|lia].
Qed.

Lemma Zdigits_bounds (V : Z) :
  0 < V -> 2 ^ (Zdigits2 V - 1) <= V < 2 ^ Zdigits2 V.
Proof. intros H. destruct V as [|p|p]; try lia. apply digits_bounds. Qed.

Lemma Zdigits_unique (V d : Z) :
  0 < V -> 2 ^ (d - 1) <= V < 2 ^ d -> Zdigits2 V = d.
Proof. intros H. destruct V as [|p|p]; try lia. apply digits_unique. Qed.

Lemma Zdigits_pos (V : Z) : 0 < V -> 0 < Zdigits2 V.
Proof. intros H. destruct V as [|p|p]; try lia. cbn. lia. Qed.

Lemma Zdigits_mono (V1 V2 : Z) : 0 < V1 <= V2 -> Zdigits2 V1 <= Zdigits2 V2.
Proof.
  intros H. destruct V1 as [|p1|p1], V2 as [|p2|p2]; try lia. apply digits_mono. lia.
Qed.

Lemma Zdigits_shift (V k : Z) :
  0 < V -> 0 <= k -> Zdigits2 (V * 2 ^ k) = Zdigits2 V + k.
Proof.
  intros HV Hk. pose proof (Zdigits_bounds V HV) as Hb.
  pose proof (Zdigits_pos V HV) as Hd. pose proof (pow2_pos k Hk) as Hp.
  apply Zdigits_unique; [nia|].
  replace (Zdigits2 V + k - 1) with (Zdigits2 V - 1 + k) by lia.
  rewrite !Z.pow_add_r by lia. nia.
Qed.

Lemma rne_bounds (M n : Z) : M / 2 ^ n <= rne M n <= M / 2 ^ n + 1.
Proof.
  unfold rne. cbv zeta.
  destruct (_ <? _); [lia|]. destruct (_ =? _); [|lia].
  destruct (Z.even _); lia.
Qed.

Lemma rne_shift (M n k : Z) :
  0 <= n -> 0 <= k -> rne (M * 2 ^ k) (n + k) = rne M n.
Proof.
  intros Hn Hk. unfold rne. cbv zeta.
  pose proof (pow2_pos n Hn) as Hpn. pose proof (pow2_pos k Hk) as Hpk.
  rewrite Z.pow_add_r by lia.
  rewrite Z.div_mul_cancel_r by lia.
  rewrite Z.mul_mod_distr_r by lia.
  replace (2 * (M mod 2 ^ n * 2 ^ k) <? 2 ^ n * 2 ^ k) with (2 * (M mod 2 ^ n) <? 2 ^ n).
  2:{ destruct (Z.ltb_spec (2 * (M mod 2 ^ n)) (2 ^ n));
      destruct (Z.ltb_spec (2 * (M mod 2 ^ n * 2 ^ k)) (2 ^ n * 2 ^ k)); try reflexivity; nia. }
  replace (2 * (M mod 2 ^ n * 2 ^ k) =? 2 ^ n * 2 ^ k) with (2 * (M mod 2 ^ n) =? 2 ^ n).
  2:{ destruct (Z.eqb_spec (2 * (M mod 2 ^ n)) (2 ^ n));
      destruct (Z.eqb_spec (2 * (M mod 2 ^ n * 2 ^ k)) (2 ^ n * 2 ^ k)); try reflexivity; nia. }
  reflexivity.
Qed.

Lemma rne_le_multiple (M n k : Z) : 0 <= n -> M <= k * 2 ^ n -> rne M n <= k.
Proof.
  intros Hn H. pose proof (pow2_pos n Hn) as Hp.
  pose proof (Z.div_mod M (2 ^ n) ltac:(lia)) as Hdm.
  pose proof (Z.mod_pos_bound M (2 ^ n) Hp) as Hb.
  unfold rne. cbv zeta.
  destruct (Z.ltb_spec (2 * (M mod 2 ^ n)) (2 ^ n)); [nia|].
  destruct (Z.eqb_spec (2 * (M mod 2 ^ n)) (2 ^ n)).
  - destruct (Z.even _); nia.
  - nia.
Qed.

Lemma rne_ge_multiple (M n k : Z) : 0 <= n -> k * 2 ^ n <= M -> k <= rne M n.
Proof.
  intros Hn H. pose proof (pow2_pos n Hn) as Hp.
  pose proof (rne_bounds M n) as Hb.
  assert (k <= M / 2 ^ n) by (apply Z.div_le_lower_bound; lia). lia.
Qed.

Lemma rne_mono (M1 M2 n : Z) : 0 <= n -> M1 <= M2 -> rne M1 n <= rne M2 n.
Proof.
  intros Hn H. pose proof (pow2_pos n Hn) as Hp.
  pose proof (Z.div_le_mono M1 M2 (2 ^ n) Hp H) as Hq.
  destruct (Z.eq_dec (M1 / 2 ^ n) (M2 / 2 ^ n)) as [E|Hne].
  - pose proof (Z.div_mod M1 (2 ^ n) ltac:(lia)) as Hdm1.
    pose proof (Z.div_mod M2 (2 ^ n) ltac:(lia)) as Hdm2.
    assert (Hr : M1 mod 2 ^ n <= M2 mod 2 ^ n) by nia.
    unfold rne. cbv zeta. rewrite <- E.
    destruct (Z.ltb_spec (2 * (M1 mod 2 ^ n)) (2 ^ n));
      destruct (Z.ltb_spec (2 * (M2 mod 2 ^ n)) (2 ^ n)); try lia.
    + destruct (Z.eqb_spec (2 * (M2 mod 2 ^ n)) (2 ^ n)); [destruct (Z.even _)|]; lia.
    + destruct (Z.eqb_spec (2 * (M1 mod 2 ^ n)) (2 ^ n));
        destruct (Z.eqb_spec (2 * (M2 mod 2 ^ n)) (2 ^ n)); try lia.
      destruct (Z.even _); lia.
  - pose proof (rne_bounds M1 n). pose proof (rne_bounds M2 n). lia.
Qed.

(** The result of rounding [M * 2 ^ E], in units of [2 ^ -1074]. *)
Definition RW (M E : Z) : Z :=
  Z.min (rne M (steps M E) * 2 ^ (E + steps M E + 1074)) top.

Lemma steps_exponent (M E : Z) : -1074 <= E + steps M E.
Proof. unfold steps, fexp64. lia. Qed.

Lemma steps_low (M E : Z) : E <= -1074 -> 0 <= steps M E.
Proof. unfold steps, fexp64. lia. Qed.

Lemma rne_rounded (M E : Z) :
  0 < M -> 0 <= steps M E -> rounded (rne M (steps M E)) (E + steps M E).
Proof.
  intros HM Hn. pose proof (Zdigits_bounds M HM) as Hd.
  pose proof (Zdigits_pos M HM) as Hdp.
  pose proof (rne_bounds M (steps M E)) as Hb.
  pose proof (pow2_pos (steps M E) Hn) as Hp.
  assert (Hd' : Zdigits2 M <= steps M E + 53) by (unfold steps, fexp64 in *; lia).
  assert (Hq1 : 0 <= M / 2 ^ steps M E) by (apply Z.div_pos; lia).
  assert (Hq2 : M / 2 ^ steps M E < 2 ^ 53).
  { apply Z.div_lt_upper_bound; [lia|].
    rewrite <- Z.pow_add_r by lia.
    pose proof (pow2_le (Zdigits2 M) (steps M E + 53) ltac:(lia)). lia. }
  split; [lia|]. split; [apply steps_exponent|].
  intros Hlt. unfold steps, fexp64 in *.
  destruct (Z.le_gt_cases (Zdigits2 M + E - 53) (-1074)) as [Hle|Hgt]; [lia|].
  exfalso.
  assert (Hn' : Z.max (Zdigits2 M + E - 53) (-1074) - E = Zdigits2 M - 53) by lia.
  rewrite Hn' in *.
  assert (2 ^ 52 <= M / 2 ^ (Zdigits2 M - 53)); [|lia].
  apply Z.div_le_lower_bound; [lia|].
  rewrite <- Z.pow_add_r by lia.
  replace (Zdigits2 M - 53 + 52) with (Zdigits2 M - 1) by lia. lia.
Qed.

Lemma binary_round_aux_ordv (s : bool) (M E : Z) :
  0 < M -> 0 <= steps M E ->
  binary_round_aux FloatOps.prec FloatOps.emax s M E loc_Exact <> S754_nan /\
  ordv (binary_round_aux FloatOps.prec FloatOps.emax s M E loc_Exact)
  = signed s (RW M E).
Proof.
  intros HM Hn. rewrite binary_round_aux_eq by lia.
  destruct (finish_ordv s _ _ (rne_rounded M E HM Hn)) as [H1 H2].
  split; [exact H1|]. rewrite H2. unfold RW.
  replace (E + steps M E + 1074) with (E + steps M E + 1074) by lia. reflexivity.
Qed.

Lemma steps_shift (M E k : Z) :
  0 < M -> 0 <= k -> steps (M * 2 ^ k) (E - k) = steps M E + k.
Proof.
  intros HM Hk. unfold steps. rewrite Zdigits_shift by lia.
  replace (Zdigits2 M + k + (E - k)) with (Zdigits2 M + E) by lia. lia.
Qed.

Lemma RW_shift (M E k : Z) :
  0 < M -> 0 <= steps M E -> 0 <= k -> RW (M * 2 ^ k) (E - k) = RW M E.
Proof.
  intros HM Hn Hk. unfold RW. rewrite steps_shift by lia.
  rewrite rne_shift by lia.
  replace (E - k + (steps M E + k) + 1074) with (E + steps M E + 1074) by lia.
  reflexivity.
Qed.

Lemma RW_mono (M1 M2 E : Z) :
  0 < M1 <= M2 -> E <= -1074 -> RW M1 E <= RW M2 E.
Proof.
  intros HM HE. unfold RW. apply Z.min_le_compat_r.
  pose proof (steps_low M1 E HE) as Hn1. pose proof (steps_low M2 E HE) as Hn2.
  pose proof (Zdigits_mono M1 M2 HM) as Hd.
  pose proof (Zdigits_bounds M1 ltac:(lia)) as Hb1.
  pose proof (Zdigits_bounds M2 ltac:(lia)) as Hb2.
  pose proof (Zdigits_pos M1 ltac:(lia)) as Hp1.
  assert (Hle : steps M1 E <= steps M2 E) by (unfold steps, fexp64; lia).
  destruct (Z.eq_dec (steps M1 E) (steps M2 E)) as [En|Hne].
  - rewrite En. apply Z.mul_le_mono_nonneg_r.
    + apply Z.lt_le_incl, pow2_pos. pose proof (steps_exponent M2 E). lia.
    + apply rne_mono; lia.
  - (* the binade of M2 starts above M1 *)
    set (n1 := steps M1 E) in *. set (n2 := steps M2 E) in *.
    set (d2 := Zdigits2 M2) in *.
    assert (Hn2' : n2 = d2 - 53 - 0 /\ -1074 < d2 + E - 53).
    { unfold n1, n2, steps, fexp64 in *. lia. }
    destruct Hn2' as [En2 Hnorm].
    assert (Hd12 : Zdigits2 M1 < d2).
    { unfold n1, n2, steps, fexp64 in *. lia. }
    assert (H1 : rne M1 n1 <= 2 ^ (d2 - 1 - n1)).
    { apply rne_le_multiple; [lia|]. rewrite <- Z.pow_add_r by lia.
      replace (d2 - 1 - n1 + n1) with (d2 - 1) by lia.
      pose proof (pow2_le (Zdigits2 M1) (d2 - 1) ltac:(lia)). lia. }
    assert (H2 : 2 ^ 52 <= rne M2 n2).
    { apply rne_ge_multiple; [lia|]. rewrite <- Z.pow_add_r by lia.
      replace (52 + n2) with (d2 - 1) by lia. lia. }
    apply Z.le_trans with (2 ^ (d2 - 1 - n1) * 2 ^ (E + n1 + 1074)).
    + apply Z.mul_le_mono_nonneg_r; [|exact H1].
      apply Z.lt_le_incl, pow2_pos. pose proof (steps_exponent M1 E). fold n1 in H. lia.
    + apply Z.le_trans with (2 ^ 52 * 2 ^ (E + n2 + 1074)).
      * rewrite <- !Z.pow_add_r.
        -- apply pow2_le. lia.
        -- lia.
        -- lia.
        -- lia.
        -- pose proof (steps_exponent M1 E). fold n1 in H. lia.
      * apply Z.mul_le_mono_nonneg_r; [|exact H2].
        apply Z.lt_le_incl, pow2_pos. lia.
Qed.

Lemma iter_xO (m d : positive) : Zpos (Pos.iter xO m d) = Zpos m * 2 ^ Zpos d.
Proof.
  induction d as [|d IH] using Pos.peano_ind.
  - cbn [Pos.iter]. change (2 ^ 1) with 2. lia.
  - rewrite Pos.iter_succ, Pos2Z.inj_xO, IH, Pos2Z.inj_succ.
    unfold Z.succ. rewrite pow2_S by lia. lia.
Qed.

Lemma RW_nonneg (M E : Z) : 0 <= M -> 0 <= steps M E -> 0 <= RW M E.
Proof.
  intros HM Hn. unfold RW. apply Z.min_glb.
  - pose proof (rne_bounds M (steps M E)) as Hb.
    pose proof (pow2_pos (steps M E) Hn).
    assert (0 <= M / 2 ^ steps M E) by (apply Z.div_pos; lia).
    pose proof (steps_exponent M E).
    pose proof (pow2_pos (E + steps M E + 1074) ltac:(lia)). nia.
  - apply Z.lt_le_incl, pow2_pos. lia.
Qed.

Lemma binary_round_ordv (s : bool) (m : positive) (E0 k : Z) :
  E0 <= -1074 -> 0 <= k ->
  binary_round FloatOps.prec FloatOps.emax s m (E0 + k) <> S754_nan /\
  ordv (binary_round FloatOps.prec FloatOps.emax s m (E0 + k))
  = signed s (RW (Zpos m * 2 ^ k) E0).
Proof.
  intros HE Hk. unfold binary_round, shl_align. rewrite fexp_eq.
  change (Zpos (digits2_pos m)) with (Zdigits2 (Zpos m)).
  fold (steps (Zpos m) (E0 + k)).
  destruct (steps (Zpos m) (E0 + k)) as [|n|n] eqn:En.
  - destruct (binary_round_aux_ordv s (Zpos m) (E0 + k) ltac:(lia) ltac:(lia)) as [H1 H2].
    split; [exact H1|]. rewrite H2. f_equal.
    rewrite <- (RW_shift (Zpos m) (E0 + k) k) by lia. f_equal. lia.
  - destruct (binary_round_aux_ordv s (Zpos m) (E0 + k) ltac:(lia) ltac:(lia)) as [H1 H2].
    split; [exact H1|]. rewrite H2. f_equal.
    rewrite <- (RW_shift (Zpos m) (E0 + k) k) by lia. f_equal. lia.
  - assert (Ee : fexp64 (Zdigits2 (Zpos m) + (E0 + k)) = E0 + k - Zpos n).
    { unfold steps in En. lia. }
    rewrite Ee, iter_xO.
    assert (Hs : steps (Zpos m * 2 ^ Zpos n) (E0 + k - Zpos n) = 0).
    { rewrite steps_shift by lia. lia. }
    assert (Hlow : -1074 <= E0 + k - Zpos n) by (rewrite <- Ee; unfold fexp64; lia).
    pose proof (pow2_pos (Zpos n) ltac:(lia)) as Hp.
    destruct (binary_round_aux_ordv s (Zpos m * 2 ^ Zpos n) (E0 + k - Zpos n)
                ltac:(nia) ltac:(lia)) as [H1 H2].
    split; [exact H1|]. rewrite H2. f_equal.
    rewrite <- (RW_shift (Zpos m * 2 ^ Zpos n) (E0 + k - Zpos n) (k - Zpos n))
      by (try nia; lia).
    f_equal; [|lia].
    rewrite <- Z.mul_assoc, <- Z.pow_add_r by lia. do 2 f_equal. lia.
Qed.

(** The rounding of a signed integer in units of [2 ^ E0]. *)
Definition SR (E0 V : Z) : Z :=
  match V with
  | Z0 => 0
  | Zpos _ => RW V E0
  | Zneg p => - RW (Zpos p) E0
  end.

Lemma binary_normalize_ordv (S E0 k : Z) (szero : bool) :
  E0 <= -1074 -> 0 <= k ->
  binary_normalize FloatOps.prec FloatOps.emax S (E0 + k) szero <> S754_nan /\
  ordv (binary_normalize FloatOps.prec FloatOps.emax S (E0 + k) szero)
  = SR E0 (S * 2 ^ k).
Proof.
  intros HE Hk. pose proof (pow2_pos k Hk) as Hp.
  destruct S as [|m|m]; cbn [binary_normalize].
  - split; [discriminate|reflexivity].
  - destruct (binary_round_ordv false m E0 k HE Hk) as [H1 H2].
    split; [exact H1|]. rewrite H2. cbn [signed].
    destruct (Zpos m * 2 ^ k) as [|q|q] eqn:Eq; try lia. reflexivity.
  - destruct (binary_round_ordv true m E0 k HE Hk) as [H1 H2].
    split; [exact H1|]. rewrite H2. cbn [signed].
    destruct (Zneg m * 2 ^ k) as [|q|q] eqn:Eq; try lia.
    cbn [SR]. do 2 f_equal. lia.
Qed.

Lemma SR_mono (E0 V1 V2 : Z) : E0 <= -1074 -> V1 <= V2 -> SR E0 V1 <= SR E0 V2.
Proof.
  intros HE H.
  assert (Hpos : forall p, 0 <= RW (Zpos p) E0).
  { intros p. apply RW_nonneg; [lia|apply steps_low, HE]. }
  destruct V1 as [|p1|p1], V2 as [|p2|p2]; cbn [SR]; try lia.
  - apply Hpos.
  - apply RW_mono; lia.
  - pose proof (Hpos p1). lia.
  - pose proof (Hpos p1). pose proof (Hpos p2). lia.
  - pose proof (RW_mono (Zpos p2) (Zpos p1) E0 ltac:(lia) HE). lia.
Qed.

(** ** Valid numbers and their order *)

Lemma valid_finite (s : bool) (m : positive) (e : Z) :
  FloatAxioms.valid_binary (S754_finite s m e) = true ->
  -1074 <= e <= 971 /\ Zpos (digits2_pos m) <= 53 /\
  (-1074 < e -> Zpos (digits2_pos m) = 53).
Proof.
  unfold FloatAxioms.valid_binary. cbn [SpecFloat.valid_binary].
  unfold bounded, canonical_mantissa. rewrite fexp_eq.
  intros H. apply andb_true_iff in H as [H1 H2].
  apply Z.eqb_eq in H1. apply Z.leb_le in H2.
  change (FloatOps.emax - FloatOps.prec) with 971 in H2.
  unfold fexp64 in H1. lia.
Qed.

Lemma valid_value (s : bool) (m : positive) (e : Z) :
  FloatAxioms.valid_binary (S754_finite s m e) = true ->
  0 < Zpos m * 2 ^ (e + 1074) < top.
Proof.
  intros H. destruct (valid_finite s m e H) as (He & Hd & _).
  pose proof (digits_bounds m) as Hb.
  pose proof (pow2_pos (e + 1074) ltac:(lia)).
  split; [nia|]. apply below_top; [|lia].
  pose proof (pow2_le (Zpos (digits2_pos m)) 53 ltac:(lia)). lia.
Qed.

Lemma value_exponent_lt (m1 m2 : positive) (e1 e2 : Z) (s1 s2 : bool) :
  FloatAxioms.valid_binary (S754_finite s1 m1 e1) = true ->
  FloatAxioms.valid_binary (S754_finite s2 m2 e2) = true ->
  e1 < e2 -> Zpos m1 * 2 ^ (e1 + 1074) < Zpos m2 * 2 ^ (e2 + 1074).
Proof.
  intros H1 H2 He.
  destruct (valid_finite s1 m1 e1 H1) as (He1 & Hd1 & _).
  destruct (valid_finite s2 m2 e2 H2) as (He2 & _ & Hd2).
  specialize (Hd2 ltac:(lia)).
  pose proof (digits_bounds m1) as Hb1. pose proof (digits_bounds m2) as Hb2.
  rewrite Hd2 in Hb2. change (53 - 1) with 52 in Hb2.
  pose proof (pow2_le (Zpos (digits2_pos m1)) 53 ltac:(lia)) as Hm1.
  pose proof (pow2_pos (e1 + 1074) ltac:(lia)) as Hp1.
  pose proof (pow2_le (e1 + 1074 + 1) (e2 + 1074) ltac:(lia)) as Hp2.
  rewrite pow2_S in Hp2 by lia.
  apply Z.lt_le_trans with (2 ^ 53 * 2 ^ (e1 + 1074)); [nia|].
  apply Z.le_trans with (2 ^ 52 * 2 ^ (e2 + 1074)); [|nia].
  change (2 ^ 53) with (2 ^ 52 * 2). pose proof (pow2_pos 52 ltac:(lia)). nia.
Qed.

Ltac order_of_values :=
  f_equal; symmetry;
  first [ apply Z.compare_eq_iff; lia
        | apply Z.compare_lt_iff; lia
        | apply Z.compare_gt_iff; lia ].

Lemma compare_ordv (x y : spec_float) :
  FloatAxioms.valid_binary x = true ->
  FloatAxioms.valid_binary y = true ->
  x <> S754_nan -> y <> S754_nan ->
  SFcompare x y = Some (ordv x ?= ordv y).
Proof.
  intros Hx Hy Nx Ny.
  assert (Htop : 0 < top) by (apply pow2_pos; lia).
  destruct x as [sx|sx| |sx mx ex], y as [sy|sy| |sy my ey]; try contradiction;
    cbn [SFcompare ordv].
  - reflexivity.
  - destruct sy; order_of_values.
  - pose proof (valid_value sy my ey Hy). destruct sy; order_of_values.
  - destruct sx; order_of_values.
  - destruct sx, sy; order_of_values.
  - pose proof (valid_value sy my ey Hy). destruct sx, sy; order_of_values.
  - pose proof (valid_value sx mx ex Hx). destruct sx; order_of_values.
  - pose proof (valid_value sx mx ex Hx). destruct sx, sy; order_of_values.
  - pose proof (valid_value sx mx ex Hx) as Vx. pose proof (valid_value sy my ey Hy) as Vy.
    f_equal. symmetry.
    destruct sx, sy.
    + destruct (Z.compare_spec ex ey) as [E|Hlt|Hgt].
      * subst ey. change (Pos.compare_cont Eq mx my) with (Pos.compare mx my).
        destruct (Pos.compare_spec mx my) as [E|Hlt|Hgt]; cbn [CompOpp].
        -- subst. apply Z.compare_eq_iff. reflexivity.
        -- apply Z.compare_gt_iff. nia.
        -- apply Z.compare_lt_iff. nia.
      * apply Z.compare_gt_iff.
        pose proof (value_exponent_lt mx my ex ey _ _ Hx Hy Hlt). lia.
      * apply Z.compare_lt_iff.
        pose proof (value_exponent_lt my mx ey ex _ _ Hy Hx Hgt). lia.
    + apply Z.compare_lt_iff. lia.
    + apply Z.compare_gt_iff. lia.
    + destruct (Z.compare_spec ex ey) as [E|Hlt|Hgt].
      * subst ey. change (Pos.compare_cont Eq mx my) with (Pos.compare mx my).
        destruct (Pos.compare_spec mx my) as [E|Hlt|Hgt].
        -- subst. apply Z.compare_eq_iff. reflexivity.
        -- apply Z.compare_lt_iff. nia.
        -- apply Z.compare_gt_iff. nia.
      * apply Z.compare_lt_iff.
        pose proof (value_exponent_lt mx my ex ey _ _ Hx Hy Hlt). lia.
      * apply Z.compare_gt_iff.
        pose proof (value_exponent_lt my mx ey ex _ _ Hy Hx Hgt). lia.
Qed.

Lemma leb_ordv (x y : spec_float) :
  FloatAxioms.valid_binary x = true -> FloatAxioms.valid_binary y = true ->
  x <> S754_nan -> y <> S754_nan ->
  SFleb x y = (ordv x <=? ordv y).
Proof.
  intros Hx Hy Nx Ny. unfold SFleb, Z.leb. rewrite (compare_ordv x y Hx Hy Nx Ny).
  destruct (ordv x ?= ordv y); reflexivity.
Qed.

Lemma ltb_ordv (x y : spec_float) :
  FloatAxioms.valid_binary x = true -> FloatAxioms.valid_binary y = true ->
  x <> S754_nan -> y <> S754_nan ->
  SFltb x y = (ordv x <? ordv y).
Proof.
  intros Hx Hy Nx Ny. unfold SFltb, Z.ltb. rewrite (compare_ordv x y Hx Hy Nx Ny).
  destruct (ordv x ?= ordv y); reflexivity.
Qed.

(** ** The operations on finite numbers *)

Definition finiteSF (x : spec_float) : Prop :=
  match x with
  | S754_zero _ | S754_finite _ _ _ => True
  | _ => False
  end.

Lemma SR_pos (E0 V : Z) : 0 < V -> SR E0 V = RW V E0.
Proof. intros H. destruct V; try lia. reflexivity. Qed.

Lemma SR_opp (E0 V : Z) : SR E0 (- V) = - SR E0 V.
Proof.
  destruct V as [|p|p]; [reflexivity|reflexivity|].
  change (SR E0 (- Zneg p)) with (RW (Zpos p) E0). change (SR E0 (Zneg p)) with (- RW (Zpos p) E0).
  lia.
Qed.

(** Rounding a number that is representable returns it. *)
Lemma RW_valid (s : bool) (m : positive) (e : Z) :
  FloatAxioms.valid_binary (S754_finite s m e) = true ->
  RW (Zpos m * 2 ^ (e + 1074)) (-1074) = Zpos m * 2 ^ (e + 1074).
Proof.
  intros H. destruct (valid_finite s m e H) as (He & Hd & Hn).
  pose proof (valid_value s m e H) as Hv.
  assert (Hs : steps (Zpos m) e = 0).
  { unfold steps, fexp64. cbn [Zdigits2]. lia. }
  replace (-1074) with (e - (e + 1074)) at 1 by lia.
  rewrite RW_shift by lia. unfold RW. rewrite Hs, rne_0.
  replace (e + 0 + 1074) with (e + 1074) by lia. lia.
Qed.

Lemma SR_valid (x : spec_float) :
  FloatAxioms.valid_binary x = true -> finiteSF x -> SR (-1074) (ordv x) = ordv x.
Proof.
  intros H Hf. destruct x as [s|s| |s m e]; try contradiction; [reflexivity|].
  pose proof (valid_value s m e H) as Hv. cbn [ordv]. destruct s.
  - rewrite SR_opp, SR_pos, (RW_valid true) by (assumption || lia). reflexivity.
  - rewrite SR_pos, (RW_valid false) by (assumption || lia). reflexivity.
Qed.

Lemma shl_align_fst (m : positive) (e e' : Z) :
  e' <= e -> Zpos (fst (shl_align m e e')) = Zpos m * 2 ^ (e - e').
Proof.
  intros H. unfold shl_align.
  destruct (e' - e) as [|d|d] eqn:Ed; cbn [fst]; try lia.
  - replace (e - e') with 0 by lia. change (2 ^ 0) with 1. lia.
  - rewrite iter_xO. do 2 f_equal. lia.
Qed.

Lemma valid_opp (s : bool) (m : positive) (e : Z) :
  FloatAxioms.valid_binary (S754_finite s m e) = true ->
  FloatAxioms.valid_binary (S754_finite (negb s) m e) = true.
Proof. intros H. exact H. Qed.

Lemma ordv_finite (s : bool) (m : positive) (e : Z) :
  ordv (S754_finite s m e) = cond_Zopp s (Zpos m) * 2 ^ (e + 1074).
Proof. destruct s; cbn [ordv cond_Zopp]; lia. Qed.

Lemma aligned_sum (sx sy : bool) (mx my : positive) (ex ey : Z) (sub : bool) :
  -1074 <= ex -> -1074 <= ey ->
  let ez := Z.min ex ey in
  ((if sub then Z.sub else Z.add)
     (cond_Zopp sx (Zpos (fst (shl_align mx ex ez))))
     (cond_Zopp sy (Zpos (fst (shl_align my ey ez))))) * 2 ^ (ez + 1074)
  = (if sub then Z.sub else Z.add)
      (ordv (S754_finite sx mx ex)) (ordv (S754_finite sy my ey)).
Proof.
  intros Hx Hy ez. rewrite !ordv_finite, !shl_align_fst by (unfold ez; lia).
  assert (Ex : 2 ^ (ex + 1074) = 2 ^ (ex - ez) * 2 ^ (ez + 1074)).
  { rewrite <- Z.pow_add_r by (unfold ez; lia). f_equal. lia. }
  assert (Ey : 2 ^ (ey + 1074) = 2 ^ (ey - ez) * 2 ^ (ez + 1074)).
  { rewrite <- Z.pow_add_r by (unfold ez; lia). f_equal. lia. }
  rewrite Ex, Ey. destruct sub, sx, sy; cbn [cond_Zopp]; lia.
Qed.

Lemma ordv_add (x y : spec_float) :
  FloatAxioms.valid_binary x = true -> FloatAxioms.valid_binary y = true ->
  finiteSF x -> finiteSF y ->
  SF64add x y <> S754_nan /\
  ordv (SF64add x y) = SR (-1074) (ordv x + ordv y).
Proof.
  intros Hx Hy Fx Fy. unfold SF64add.
  destruct x as [sx|sx| |sx mx ex], y as [sy|sy| |sy my ey]; try contradiction;
    cbn [SFadd].
  - split; [destruct sx, sy; discriminate|]. destruct sx, sy; reflexivity.
  - split; [discriminate|]. rewrite Z.add_0_l. symmetry. apply SR_valid; assumption.
  - split; [discriminate|]. cbn [ordv]. rewrite Z.add_0_r. symmetry.
    apply (SR_valid (S754_finite sx mx ex)); assumption.
  - destruct (valid_finite sx mx ex Hx) as (Hex & _).
    destruct (valid_finite sy my ey Hy) as (Hey & _).
    cbv zeta. set (ez := Z.min ex ey).
    match goal with |- binary_normalize _ _ ?S _ _ <> _ /\ _ =>
      destruct (binary_normalize_ordv S (-1074) (ez + 1074) false ltac:(lia)
                  ltac:(unfold ez; lia)) as [H1 H2] end.
    replace (-1074 + (ez + 1074)) with ez in H1, H2 by lia.
    split; [exact H1|]. rewrite H2. f_equal.
    apply (aligned_sum sx sy mx my ex ey false); lia.
Qed.

Lemma ordv_sub (x y : spec_float) :
  FloatAxioms.valid_binary x = true -> FloatAxioms.valid_binary y = true ->
  finiteSF x -> finiteSF y ->
  SF64sub x y <> S754_nan /\
  ordv (SF64sub x y) = SR (-1074) (ordv x - ordv y).
Proof.
  intros Hx Hy Fx Fy. unfold SF64sub.
  destruct x as [sx|sx| |sx mx ex], y as [sy|sy| |sy my ey]; try contradiction;
    cbn [SFsub].
  - split; [destruct sx, sy; discriminate|]. destruct sx, sy; reflexivity.
  - split; [discriminate|]. rewrite Z.sub_0_l, SR_opp.
    rewrite (SR_valid (S754_finite sy my ey)) by assumption.
    destruct sy; cbn [ordv negb]; lia.
  - split; [discriminate|]. cbn [ordv]. rewrite Z.sub_0_r. symmetry.
    apply (SR_valid (S754_finite sx mx ex)); assumption.
  - destruct (valid_finite sx mx ex Hx) as (Hex & _).
    destruct (valid_finite sy my ey Hy) as (Hey & _).
    cbv zeta. set (ez := Z.min ex ey).
    match goal with |- binary_normalize _ _ ?S _ _ <> _ /\ _ =>
      destruct (binary_normalize_ordv S (-1074) (ez + 1074) false ltac:(lia)
                  ltac:(unfold ez; lia)) as [H1 H2] end.
    replace (-1074 + (ez + 1074)) with ez in H1, H2 by lia.
    split; [exact H1|]. rewrite H2. f_equal.
    apply (aligned_sum sx sy mx my ex ey true); lia.
Qed.

Lemma ordv_mul (x y : spec_float) :
  FloatAxioms.valid_binary x = true -> FloatAxioms.valid_binary y = true ->
  finiteSF x -> finiteSF y ->
  SF64mul x y <> S754_nan /\
  ordv (SF64mul x y) = SR (-2148) (ordv x * ordv y).
Proof.
  intros Hx Hy Fx Fy. unfold SF64mul.
  destruct x as [sx|sx| |sx mx ex], y as [sy|sy| |sy my ey]; try contradiction;
    cbn [SFmul].
  - split; [discriminate|reflexivity].
  - split; [discriminate|reflexivity].
  - split; [discriminate|]. cbn [ordv]. rewrite Z.mul_0_r. reflexivity.
  - destruct (valid_finite sx mx ex Hx) as (Hex & Hdx & Hnx).
    destruct (valid_finite sy my ey Hy) as (Hey & Hdy & Hny).
    pose proof (valid_value sx mx ex Hx) as Vx.
    pose proof (valid_value sy my ey Hy) as Vy.
    assert (Hs : 0 <= steps (Zpos (mx * my)) (ex + ey)).
    { unfold steps, fexp64. cbn [Zdigits2].
      pose proof (digits_mono mx (mx * my) ltac:(nia)).
      pose proof (digits_mono my (mx * my) ltac:(nia)). lia. }
    destruct (binary_round_aux_ordv (xorb sx sy) (Zpos (mx * my)) (ex + ey)
                ltac:(lia) Hs) as [H1 H2].
    split; [exact H1|]. rewrite H2.
    rewrite <- (RW_shift (Zpos (mx * my)) (ex + ey) (ex + ey + 2148)) by lia.
    replace (ex + ey - (ex + ey + 2148)) with (-2148) by lia.
    assert (E : Zpos (mx * my) * 2 ^ (ex + ey + 2148)
                = (Zpos mx * 2 ^ (ex + 1074)) * (Zpos my * 2 ^ (ey + 1074))).
    { replace (ex + ey + 2148) with ((ex + 1074) + (ey + 1074)) by lia.
      rewrite Z.pow_add_r, Pos2Z.inj_mul by lia. lia. }
    rewrite E. set (vx := Zpos mx * 2 ^ (ex + 1074)) in *.
    set (vy := Zpos my * 2 ^ (ey + 1074)) in *.
    assert (Hv : 0 < vx * vy) by nia.
    destruct sx, sy; cbn [xorb signed ordv]; fold vx vy.
    + replace (- vx * - vy) with (vx * vy) by lia. rewrite SR_pos by exact Hv. reflexivity.
    + replace (- vx * vy) with (- (vx * vy)) by lia.
      rewrite SR_opp, SR_pos by exact Hv. reflexivity.
    + replace (vx * - vy) with (- (vx * vy)) by lia.
      rewrite SR_opp, SR_pos by exact Hv. reflexivity.
    + rewrite SR_pos by exact Hv. reflexivity.
Qed.

(** ** Monotonicity of the binary64 operations *)

Local Open Scope float_scope.

(** A number that is neither NaN nor an infinity. *)
Definition finite (x : float) : Prop := finiteSF (Prim2SF x).

Lemma finite_number (x : float) : finite x -> Prim2SF x <> S754_nan.
Proof. unfold finite. destruct (Prim2SF x); simpl; congruence. Qed.

Lemma finite_is_finite (x : float) : is_finite x = true <-> finite x.
Proof.
  unfold is_finite, is_nan, is_infinity, finite.
  rewrite !FloatAxioms.eqb_spec, abs_spec. unfold SFeqb.
  change (Prim2SF infinity) with (S754_infinity false).
  pose proof (Prim2SF_valid x) as Hv.
  destruct (Prim2SF x) as [s|s| |s m e] eqn:E.
  - cbn. tauto.
  - destruct s; cbn; split; (discriminate || contradiction).
  - cbn. split; (discriminate || contradiction).
  - rewrite (compare_ordv _ _ Hv Hv) by discriminate. rewrite Z.compare_refl.
    cbn. tauto.
Qed.

Lemma leb_le (x y : float) :
  Prim2SF x <> S754_nan -> Prim2SF y <> S754_nan ->
  (x <=? y) = true <-> (ordv (Prim2SF x) <= ordv (Prim2SF y))%Z.
Proof.
  intros Nx Ny. rewrite leb_spec.
  rewrite (leb_ordv _ _ (Prim2SF_valid x) (Prim2SF_valid y) Nx Ny).
  apply Z.leb_le.
Qed.

Lemma ltb_lt (x y : float) :
  Prim2SF x <> S754_nan -> Prim2SF y <> S754_nan ->
  (x <? y) = true <-> (ordv (Prim2SF x) < ordv (Prim2SF y))%Z.
Proof.
  intros Nx Ny. rewrite ltb_spec.
  rewrite (ltb_ordv _ _ (Prim2SF_valid x) (Prim2SF_valid y) Nx Ny).
  apply Z.ltb_lt.
Qed.

Lemma leb_not_nan (x y : float) :
  (x <=? y) = true -> Prim2SF x <> S754_nan /\ Prim2SF y <> S754_nan.
Proof.
  rewrite leb_spec. unfold SFleb.
  destruct (Prim2SF x), (Prim2SF y); cbn; intros H; split; congruence.
Qed.

(** A number between two finite numbers is finite. *)
Lemma between_finite (a x b : float) :
  finite a -> finite b -> (a <=? x) = true -> (x <=? b) = true -> finite x.
Proof.
  unfold finite. rewrite !leb_spec. unfold SFleb.
  destruct (Prim2SF a) as [sa|sa| |sa ma ea], (Prim2SF b) as [sb|sb| |sb mb eb],
    (Prim2SF x) as [s|s| |s m e]; cbn;
    try tauto; try discriminate; destruct s; cbn; try tauto; discriminate.
Qed.

Lemma add_ordv (x y : float) :
  finite x -> finite y ->
  Prim2SF (x + y) <> S754_nan /\
  ordv (Prim2SF (x + y)) = SR (-1074) (ordv (Prim2SF x) + ordv (Prim2SF y)).
Proof.
  intros Fx Fy. rewrite add_spec.
  apply ordv_add; auto using Prim2SF_valid.
Qed.

Lemma sub_ordv (x y : float) :
  finite x -> finite y ->
  Prim2SF (x - y) <> S754_nan /\
  ordv (Prim2SF (x - y)) = SR (-1074) (ordv (Prim2SF x) - ordv (Prim2SF y)).
Proof.
  intros Fx Fy. rewrite sub_spec.
  apply ordv_sub; auto using Prim2SF_valid.
Qed.

Lemma mul_ordv (x y : float) :
  finite x -> finite y ->
  Prim2SF (x * y) <> S754_nan /\
  ordv (Prim2SF (x * y)) = SR (-2148) (ordv (Prim2SF x) * ordv (Prim2SF y)).
Proof.
  intros Fx Fy. rewrite mul_spec.
  apply ordv_mul; auto using Prim2SF_valid.
Qed.

(** Addition is monotone in both arguments. *)
Theorem add_mono (a b u v : float) :
  finite a -> finite b -> finite u -> finite v ->
  (a <=? b) = true -> (u <=? v) = true -> (a + u <=? b + v) = true.
Proof.
  intros Fa Fb Fu Fv Hab Huv.
  destruct (add_ordv a u Fa Fu) as [N1 E1]. destruct (add_ordv b v Fb Fv) as [N2 E2].
  apply leb_le in Hab; [|apply finite_number; assumption..].
  apply leb_le in Huv; [|apply finite_number; assumption..].
  apply leb_le; [assumption..|]. rewrite E1, E2. apply SR_mono; lia.
Qed.

(** Subtraction is monotone in the first argument and antitone in the
    second. *)
Theorem sub_mono (a b u v : float) :
  finite a -> finite b -> finite u -> finite v ->
  (a <=? b) = true -> (u <=? v) = true -> (a - v <=? b - u) = true.
Proof.
  intros Fa Fb Fu Fv Hab Huv.
  destruct (sub_ordv a v Fa Fv) as [N1 E1]. destruct (sub_ordv b u Fb Fu) as [N2 E2].
  apply leb_le in Hab; [|apply finite_number; assumption..].
  apply leb_le in Huv; [|apply finite_number; assumption..].
  apply leb_le; [assumption..|]. rewrite E1, E2. apply SR_mono; lia.
Qed.

(** Multiplication by a number that is not negative is monotone. *)
Theorem mul_mono (c u v : float) :
  finite c -> finite u -> finite v ->
  (0 <=? c) = true -> (u <=? v) = true -> (c * u <=? c * v) = true.
Proof.
  intros Fc Fu Fv Hc Huv.
  destruct (mul_ordv c u Fc Fu) as [N1 E1]. destruct (mul_ordv c v Fc Fv) as [N2 E2].
  apply leb_le in Hc; [|discriminate|apply finite_number; assumption].
  apply leb_le in Huv; [|apply finite_number; assumption..].
  change (ordv (Prim2SF 0)) with 0%Z in Hc.
  apply leb_le; [assumption..|]. rewrite E1, E2. apply SR_mono; [lia|nia].
Qed.

Lemma RW_low_pos (V : Z) : (0 < V)%Z -> (0 < RW V (-1074))%Z.
Proof.
  intros HV. unfold RW. apply Z.min_glb_lt; [|apply pow2_pos; lia].
  pose proof (steps_low V (-1074) ltac:(lia)) as Hn.
  pose proof (Zdigits_bounds V HV) as Hb. pose proof (Zdigits_pos V HV) as Hd.
  pose proof (steps_exponent V (-1074)) as He.
  pose proof (pow2_pos (-1074 + steps V (-1074) + 1074) ltac:(lia)) as Hp.
  assert (Hq : (1 <= rne V (steps V (-1074)))%Z); [|nia].
  apply rne_ge_multiple; [exact Hn|]. rewrite Z.mul_1_l.
  apply Z.le_trans with (2 ^ (Zdigits2 V - 1))%Z; [|lia].
  apply pow2_le. unfold steps, fexp64 in *. lia.
Qed.

Lemma SR_low_sign (V : Z) :
  ((SR (-1074) V < 0 <-> V < 0) /\ (0 < SR (-1074) V <-> 0 < V))%Z.
Proof.
  destruct V as [|p|p]; cbn [SR].
  - lia.
  - pose proof (RW_low_pos (Zpos p) ltac:(lia)). lia.
  - pose proof (RW_low_pos (Zpos p) ltac:(lia)). lia.
Qed.

(** The sign of a difference is the order of its operands. *)
Theorem sub_negative (a b : float) :
  finite a -> finite b -> (a - b <? 0) = (a <? b).
Proof.
  intros Fa Fb. destruct (sub_ordv a b Fa Fb) as [N E].
  pose proof (finite_number a Fa) as Na. pose proof (finite_number b Fb) as Nb.
  pose proof (ltb_lt (a - b) 0 N ltac:(discriminate)) as H1.
  pose proof (ltb_lt a b Na Nb) as H2.
  change (ordv (Prim2SF 0)) with 0%Z in H1. rewrite E in H1.
  pose proof (SR_low_sign (ordv (Prim2SF a) - ordv (Prim2SF b))) as [Hs _].
  destruct (a - b <? 0), (a <? b); try reflexivity.
  - assert (true = true) as Ht by reflexivity. apply H1 in Ht. apply Hs in Ht.
    assert (ordv (Prim2SF a) < ordv (Prim2SF b))%Z as Hlt by lia.
    apply H2 in Hlt. discriminate.
  - assert (true = true) as Ht by reflexivity. apply H2 in Ht.
    assert (SR (-1074) (ordv (Prim2SF a) - ordv (Prim2SF b)) < 0)%Z as Hlt
      by (apply Hs; lia).
    apply H1 in Hlt. discriminate.
Qed.

Lemma leb_refl (a : float) : finite a -> (a <=? a) = true.
Proof.
  intros Fa. apply leb_le; try apply finite_number, Fa. lia.
Qed.

Lemma finite_is_nan (a : float) : Prim2SF a <> S754_nan -> is_nan a = false.
Proof.
  intros Na. unfold is_nan. rewrite FloatAxioms.eqb_spec. unfold SFeqb.
  rewrite (compare_ordv _ _ (Prim2SF_valid a) (Prim2SF_valid a) Na Na).
  rewrite Z.compare_refl. reflexivity.
Qed.

(** [Math.max] and [Math.min] pick one of their arguments. *)
Lemma Math_max_ordv (a b : float) :
  Prim2SF a <> S754_nan -> Prim2SF b <> S754_nan ->
  (Js.Math_max a b = a \/ Js.Math_max a b = b) /\
  ordv (Prim2SF (Js.Math_max a b)) = Z.max (ordv (Prim2SF a)) (ordv (Prim2SF b)).
Proof.
  intros Na Nb. unfold Js.Math_max.
  rewrite (finite_is_nan a Na), (finite_is_nan b Nb). cbn [orb].
  pose proof (ltb_lt a b Na Nb) as H1. pose proof (ltb_lt b a Nb Na) as H2.
  destruct (a <? b) eqn:E1.
  - split; [auto|]. assert (true = true) as Ht by reflexivity. apply H1 in Ht. lia.
  - destruct (b <? a) eqn:E2.
    + split; [auto|]. assert (true = true) as Ht by reflexivity. apply H2 in Ht. lia.
    + assert (ordv (Prim2SF a) = ordv (Prim2SF b)) as E.
      { destruct (Z.lt_trichotomy (ordv (Prim2SF a)) (ordv (Prim2SF b))) as [H|[H|H]];
          [apply H1 in H; discriminate|exact H|apply H2 in H; discriminate]. }
      destruct (get_sign a); (split; [auto|]); lia.
Qed.

Lemma Math_min_ordv (a b : float) :
  Prim2SF a <> S754_nan -> Prim2SF b <> S754_nan ->
  (Js.Math_min a b = a \/ Js.Math_min a b = b) /\
  ordv (Prim2SF (Js.Math_min a b)) = Z.min (ordv (Prim2SF a)) (ordv (Prim2SF b)).
Proof.
  intros Na Nb. unfold Js.Math_min.
  rewrite (finite_is_nan a Na), (finite_is_nan b Nb). cbn [orb].
  pose proof (ltb_lt a b Na Nb) as H1. pose proof (ltb_lt b a Nb Na) as H2.
  destruct (a <? b) eqn:E1.
  - split; [auto|]. assert (true = true) as Ht by reflexivity. apply H1 in Ht. lia.
  - destruct (b <? a) eqn:E2.
    + split; [auto|]. assert (true = true) as Ht by reflexivity. apply H2 in Ht. lia.
    + assert (ordv (Prim2SF a) = ordv (Prim2SF b)) as E.
      { destruct (Z.lt_trichotomy (ordv (Prim2SF a)) (ordv (Prim2SF b))) as [H|[H|H]];
          [apply H1 in H; discriminate|exact H|apply H2 in H; discriminate]. }
      destruct (get_sign a); (split; [auto|]); lia.
Qed.

(** A number between the ends of a chain of numbers lies between two
    neighbours of the chain. *)
Fixpoint neighbours (pts : list float) : list (float * float) :=
  match pts with
  | a :: (b :: _) as rest => (a, b) :: neighbours rest
  | _ => []
  end.

Lemma last_default (pts : list float) (d d' : float) :
  pts <> [] -> List.last pts d = List.last pts d'.
Proof.
  induction pts as [|p [|q pts] IH]; intros H; [contradiction|reflexivity|].
  change (List.last (q :: pts) d = List.last (q :: pts) d'). apply IH. discriminate.
Qed.

Lemma chain_cover (pts : list float) : forall (first : float) (s : float),
  Forall finite (first :: pts) ->
  (first <=? s) = true -> (s <=? List.last pts first) = true ->
  pts <> [] ->
  exists lo hi, In (lo, hi) (neighbours (first :: pts)) /\
    (lo <=? s) = true /\ (s <=? hi) = true.
Proof.
  induction pts as [|p pts IH]; intros first s Hfin H1 H2 Hne; [contradiction|].
  inversion Hfin as [|? ? Ff Hfin']; subst. inversion Hfin' as [|? ? Fp _]; subst.
  destruct (s <=? p) eqn:Hsp.
  - exists first, p. split; [left; reflexivity|]. split; assumption.
  - destruct pts as [|q pts].
    + cbn in H2. congruence.
    + destruct (leb_not_nan _ _ H1) as [_ Ns].
      assert (Hps : (p <=? s) = true).
      { apply leb_le; [apply finite_number, Fp|exact Ns|].
        destruct (Z.le_gt_cases (ordv (Prim2SF p)) (ordv (Prim2SF s))) as [|Hgt];
          [assumption|].
        assert ((s <=? p) = true); [|congruence].
        apply leb_le; [exact Ns|apply finite_number, Fp|lia]. }
      destruct (IH p s Hfin' Hps) as (lo & hi & Hin & Hlo & Hhi).
      * rewrite (last_default _ p first) by discriminate. exact H2.
      * discriminate.
      * exists lo, hi. split; [right; exact Hin|]. split; assumption.
Qed.

(** Two numbers of the same non-zero value are the same number. *)
Lemma compare_Eq_inj (x y : spec_float) :
  SFcompare x y = Some Eq -> ordv x <> 0%Z -> x = y.
Proof.
  destruct x as [sx|sx| |sx mx ex], y as [sy|sy| |sy my ey]; cbn [SFcompare ordv];
    intros H Hnz; try discriminate; try lia;
    try destruct sx; try destruct sy; try discriminate; try reflexivity;
    destruct (Z.compare_spec ex ey) as [E|Hlt|Hgt]; try discriminate; subst ey;
    change (Pos.compare_cont Eq mx my) with (Pos.compare mx my) in H;
    destruct (Pos.compare_spec mx my) as [E|Hlt|Hgt]; try discriminate;
    subst; reflexivity.
Qed.

Theorem same_value (a b : float) :
  Prim2SF a <> S754_nan -> Prim2SF b <> S754_nan ->
  ordv (Prim2SF a) = ordv (Prim2SF b) -> ordv (Prim2SF a) <> 0%Z -> a = b.
Proof.
  intros Na Nb E Hnz. apply Prim2SF_inj, compare_Eq_inj; [|exact Hnz].
  rewrite (compare_ordv _ _ (Prim2SF_valid a) (Prim2SF_valid b) Na Nb), E.
  rewrite Z.compare_refl. reflexivity.
Qed.

Local Open Scope Z_scope.

(** ** Rounding from an inexact location: division *)

(** The two bits below the mantissa that a location stands for. *)
Definition code (l : location) : Z :=
  match l with
  | loc_Exact => 0
  | loc_Inexact Lt => 1
  | loc_Inexact Eq => 2
  | loc_Inexact Gt => 3
  end.

Lemma code_bounds (l : location) : 0 <= code l <= 3.
Proof. destruct l as [|[| |]]; cbn; lia. Qed.

Lemma odd_double (q : Z) : Z.odd (2 * q) = false.
Proof. rewrite Z.odd_mul. reflexivity. Qed.

Lemma odd_double_1 (q : Z) : Z.odd (2 * q + 1) = true.
Proof. rewrite Z.odd_add, Z.odd_mul. reflexivity. Qed.

Lemma record_of_loc (q : Z) (l : location) :
  0 <= q -> shr_record_of_loc q l = shifted (4 * q + code l) 2.
Proof.
  intros Hq. unfold shifted. change (2 ^ 2) with 4. change (2 ^ (2 - 1)) with 2.
  pose proof (code_bounds l) as Hc.
  assert (E4 : (4 * q + code l) / 4 = q) by (symmetry; apply (Z.div_unique_pos _ _ _ (code l)); lia).
  rewrite E4.
  destruct l as [|[| |]]; cbn [code shr_record_of_loc] in *.
  - replace ((4 * q + 0) / 2) with (2 * q) by (apply (Z.div_unique_pos _ _ _ 0); lia).
    replace ((4 * q + 0) mod 2) with 0 by (apply (Z.mod_unique_pos _ _ (2 * q)); lia).
    rewrite odd_double. reflexivity.
  - replace ((4 * q + 2) / 2) with (2 * q + 1) by (apply (Z.div_unique_pos _ _ _ 0); lia).
    replace ((4 * q + 2) mod 2) with 0 by (apply (Z.mod_unique_pos _ _ (2 * q + 1)); lia).
    rewrite odd_double_1. reflexivity.
  - replace ((4 * q + 1) / 2) with (2 * q) by (apply (Z.div_unique_pos _ _ _ 1); lia).
    replace ((4 * q + 1) mod 2) with 1 by (apply (Z.mod_unique_pos _ _ (2 * q)); lia).
    rewrite odd_double. reflexivity.
  - replace ((4 * q + 3) / 2) with (2 * q + 1) by (apply (Z.div_unique_pos _ _ _ 1); lia).
    replace ((4 * q + 3) mod 2) with 1 by (apply (Z.mod_unique_pos _ _ (2 * q + 1)); lia).
    rewrite odd_double_1. reflexivity.
Qed.

Lemma iter_shifted_from (M k : Z) (p : positive) :
  0 <= M -> 1 <= k ->
  SpecFloat.iter_pos shr_1 p (shifted M k) = shifted M (k + Zpos p).
Proof.
  intros HM Hk. rewrite iter_pos_iter.
  induction p as [|p IH] using Pos.peano_ind.
  - apply shifted_step; assumption.
  - rewrite Pos.iter_succ, IH, shifted_step by lia.
    rewrite Pos2Z.inj_succ. f_equal. lia.
Qed.

Lemma shr_fexp_loc (q E : Z) (l : location) :
  0 <= q -> 0 <= steps q E ->
  forall mrs e, shr_fexp FloatOps.prec FloatOps.emax q E l = (mrs, e) ->
  round_nearest_even (shr_m mrs) (loc_of_shr_record mrs)
  = rne (4 * q + code l) (steps q E + 2) /\
  e = E + steps q E.
Proof.
  intros Hq Hn mrs e. unfold shr_fexp. rewrite fexp_eq. fold (steps q E).
  unfold shr. rewrite record_of_loc by exact Hq.
  pose proof (code_bounds l) as Hc.
  destruct (steps q E) as [|p|p] eqn:En; [| |lia].
  - intros [= <- <-]. change 2 with (Zpos 2) at 1 2.
    rewrite round_shifted by lia. split; [reflexivity|lia].
  - intros [= <- <-]. rewrite iter_shifted_from by lia.
    change (2 + Zpos p) with (Zpos (2 + p)). rewrite round_shifted by lia.
    split; [|reflexivity]. f_equal. lia.
Qed.

Lemma binary_round_aux_loc (s : bool) (q E : Z) (l : location) :
  0 <= q -> 0 <= steps q E ->
  binary_round_aux FloatOps.prec FloatOps.emax s q E l
  = finish s (rne (4 * q + code l) (steps q E + 2)) (E + steps q E).
Proof.
  intros Hq Hn. unfold binary_round_aux.
  destruct (shr_fexp FloatOps.prec FloatOps.emax q E l) as [mrs e] eqn:E1.
  destruct (shr_fexp_loc q E l Hq Hn mrs e E1) as [-> ->]. reflexivity.
Qed.

Lemma loc_rounded (q E : Z) (l : location) :
  0 <= q -> 0 <= steps q E ->
  rounded (rne (4 * q + code l) (steps q E + 2)) (E + steps q E).
Proof.
  intros Hq Hn. pose proof (code_bounds l) as Hc.
  destruct (Z.eq_dec q 0) as [->|Hne].
  - assert (HE : E + steps 0 E = -1074).
    { unfold steps, fexp64 in *. cbn [Zdigits2] in *. lia. }
    rewrite HE. pose proof (rne_bounds (4 * 0 + code l) (steps 0 E + 2)) as Hb.
    assert (Hz : (4 * 0 + code l) / 2 ^ (steps 0 E + 2) = 0).
    { apply Z.div_small. split; [lia|].
      pose proof (pow2_le 2 (steps 0 E + 2) ltac:(lia)). change (2 ^ 2) with 4 in H. lia. }
    rewrite Hz in Hb. split; [|split; [lia|reflexivity]].
    pose proof (pow2_pos 53 ltac:(lia)). lia.
  - assert (Hq' : 0 < q) by lia.
    pose proof (Zdigits_bounds q Hq') as Hb. pose proof (Zdigits_pos q Hq') as Hd.
    assert (Hdig : Zdigits2 (4 * q + code l) = Zdigits2 q + 2).
    { apply Zdigits_unique; [lia|].
      replace (Zdigits2 q + 2 - 1) with (Zdigits2 q - 1 + 2) by lia.
      rewrite !Z.pow_add_r by lia. change (2 ^ 2) with 4. lia. }
    assert (Hs : steps (4 * q + code l) (E - 2) = steps q E + 2).
    { unfold steps. rewrite Hdig. replace (Zdigits2 q + 2 + (E - 2)) with (Zdigits2 q + E) by lia.
      lia. }
    pose proof (rne_rounded (4 * q + code l) (E - 2) ltac:(lia) ltac:(lia)) as H.
    rewrite Hs in H. replace (E - 2 + (steps q E + 2)) with (E + steps q E) in H by lia.
    exact H.
Qed.

Lemma binary_round_aux_loc_ordv (s : bool) (q E : Z) (l : location) :
  0 <= q -> 0 <= steps q E ->
  binary_round_aux FloatOps.prec FloatOps.emax s q E l <> S754_nan /\
  ordv (binary_round_aux FloatOps.prec FloatOps.emax s q E l)
  = signed s (Z.min (rne (4 * q + code l) (steps q E + 2) * 2 ^ (E + steps q E + 1074)) top).
Proof.
  intros Hq Hn. rewrite binary_round_aux_loc by assumption.
  apply finish_ordv, loc_rounded; assumption.
Qed.


Lemma pow2_lt_inv (a b : Z) : 0 <= b -> 2 ^ a < 2 ^ b -> a < b.
Proof.
  intros Hb H. destruct (Z.lt_ge_cases a b) as [|Hge]; [assumption|].
  pose proof (pow2_le b a ltac:(lia)). lia.
Qed.

Lemma new_location_exact (nb : Z) : new_location nb 0 = loc_Exact.
Proof. unfold new_location. destruct (Z.even nb); reflexivity. Qed.

Lemma shift_match (m s : Z) :
  0 <= s ->
  match s with Zpos _ => Z.shiftl m s | Z0 => m | Zneg _ => 0 end = m * 2 ^ s.
Proof.
  intros Hs. destruct s as [|p|p]; try lia.
  apply Z.shiftl_mul_pow2. lia.
Qed.

(** The quotient of two positive finite numbers, the first not above the
    second, is at most one. *)
Lemma div_core_unit (mx my : positive) (ex ey : Z) :
  FloatAxioms.valid_binary (S754_finite false mx ex) = true ->
  FloatAxioms.valid_binary (S754_finite false my ey) = true ->
  Zpos mx * 2 ^ (ex + 1074) <= Zpos my * 2 ^ (ey + 1074) ->
  forall q e l,
  SFdiv_core_binary FloatOps.prec FloatOps.emax (Zpos mx) ex (Zpos my) ey = (q, e, l) ->
  0 <= q /\ 0 <= steps q e /\ e + steps q e <= 0 /\
  4 * q + code l <= 2 ^ (2 - e) /\ e <= 0.
Proof.
  intros Vx Vy Hle q e l. unfold SFdiv_core_binary. cbv zeta. rewrite fexp_eq.
  destruct (valid_finite _ _ _ Vx) as (Hex & Hdx & _).
  destruct (valid_finite _ _ _ Vy) as (Hey & Hdy & _).
  cbn [Zdigits2].
  pose proof (digits_bounds mx) as Bx. pose proof (digits_bounds my) as By.
  set (d1 := Zpos (digits2_pos mx)) in *. set (d2 := Zpos (digits2_pos my)) in *.
  set (D := d1 + ex - (d2 + ey)).
  set (e' := Z.min (fexp64 D) (ex - ey)).
  set (s := ex - ey - e').
  assert (Hs : 0 <= s) by (unfold s, e'; lia).
  assert (Hd1 : 0 < d1) by (unfold d1; lia). assert (Hd2 : 0 < d2) by (unfold d2; lia).
  (* the first number has no more bits than the second *)
  assert (HD : D <= 0).
  { assert (2 ^ (d1 - 1 + (ex + 1074)) < 2 ^ (d2 + (ey + 1074))) as Hp.
    { rewrite (Z.pow_add_r 2 (d1 - 1) (ex + 1074)), (Z.pow_add_r 2 d2 (ey + 1074)) by lia.
      pose proof (pow2_pos (ex + 1074) ltac:(lia)). pose proof (pow2_pos (ey + 1074) ltac:(lia)).
      apply Z.le_lt_trans with (Zpos mx * 2 ^ (ex + 1074));
        [apply Z.mul_le_mono_nonneg_r; lia|].
      apply Z.le_lt_trans with (Zpos my * 2 ^ (ey + 1074)); [exact Hle|].
      apply Z.mul_lt_mono_pos_r; lia. }
    apply pow2_lt_inv in Hp; [|lia]. unfold D. lia. }
  assert (He' : e' <= -53) by (unfold e', fexp64; lia).
  set (m' := match s with Zpos _ => Z.shiftl (Zpos mx) s | Z0 => Zpos mx | Zneg _ => 0 end).
  assert (Em : m' = Zpos mx * 2 ^ s).
  { unfold m'. apply shift_match, Hs. }
  assert (Hm : m' <= Zpos my * 2 ^ (- e')).
  { rewrite Em.
    assert (Zpos mx * 2 ^ s * 2 ^ (ey + 1074) <= Zpos my * 2 ^ (- e') * 2 ^ (ey + 1074)) as H.
    { rewrite <- !Z.mul_assoc, <- !Z.pow_add_r by lia.
      replace (s + (ey + 1074)) with (ex + 1074 + - e') by (unfold s; lia).
      replace (- e' + (ey + 1074)) with (ey + 1074 + - e') by lia.
      rewrite (Z.pow_add_r 2 (ex + 1074) (- e')), (Z.pow_add_r 2 (ey + 1074) (- e')) by lia.
      rewrite !Z.mul_assoc. apply Z.mul_le_mono_nonneg_r; [|exact Hle].
      apply Z.lt_le_incl, pow2_pos. lia. }
    apply Z.mul_le_mono_pos_r in H; [exact H|]. apply pow2_pos. lia. }
  destruct (Z.div_eucl m' (Zpos my)) as [q0 r0] eqn:Ediv.
  intros [= <- <- <-].
  assert (Eq0 : q0 = m' / Zpos my) by (unfold Z.div; rewrite Ediv; reflexivity).
  assert (Er0 : r0 = m' mod Zpos my) by (unfold Z.modulo; rewrite Ediv; reflexivity).
  pose proof (Z.div_mod m' (Zpos my) ltac:(lia)) as Hdm. rewrite <- Eq0, <- Er0 in Hdm.
  pose proof (Z.mod_pos_bound m' (Zpos my) ltac:(lia)) as Hr. rewrite <- Er0 in Hr.
  pose proof (pow2_pos s Hs) as Hps. pose proof (pow2_pos (- e') ltac:(lia)) as Hpt.
  assert (Hm0 : 0 < m') by (rewrite Em; nia).
  assert (Hq0 : 0 <= q0) by (rewrite Eq0; apply Z.div_pos; lia).
  assert (Hqt : q0 <= 2 ^ (- e')).
  { rewrite Eq0. apply Z.div_le_upper_bound; [lia|]. lia. }
  assert (Hcode : 4 * q0 + code (new_location (Zpos my) r0) <= 2 ^ (2 - e')).
  { replace (2 - e') with (- e' + 2) by lia. rewrite Z.pow_add_r by lia. change (2 ^ 2) with 4.
    pose proof (code_bounds (new_location (Zpos my) r0)) as Hc.
    destruct (Z.eq_dec q0 (2 ^ (- e'))) as [E|Hne]; [|lia].
    assert (Hr0 : r0 = 0) by nia. rewrite Hr0, new_location_exact. cbn [code]. lia. }
  (* enough bits are left to round *)
  assert (Hsteps : 0 <= steps q0 e' /\ e' + steps q0 e' <= 0).
  { unfold steps. destruct (Z.eq_dec q0 0) as [E0|Hne].
    - rewrite E0. cbn [Zdigits2].
      assert (m' < Zpos my) by nia.
      assert (2 ^ (d1 - 1 + s) < 2 ^ d2) as Hp.
      { rewrite Z.pow_add_r by lia. rewrite Em in H. nia. }
      apply pow2_lt_inv in Hp; [|lia].
      assert (D <= e') by (unfold D, s in *; lia).
      unfold e', fexp64 in *. lia.
    - assert (Hq1 : 0 < q0) by lia.
      pose proof (Zdigits_bounds q0 Hq1) as Bq. pose proof (Zdigits_pos q0 Hq1) as Dq.
      assert (Hlow : d1 + s - d2 <= Zdigits2 q0).
      { destruct (Z.le_gt_cases (d1 + s - d2) 1) as [|Hbig]; [lia|].
        assert (2 ^ (d1 + s - d2 - 1) <= q0) as Hq.
        { rewrite Eq0. apply Z.div_le_lower_bound; [lia|].
          apply Z.le_trans with (2 ^ d2 * 2 ^ (d1 + s - d2 - 1)).
          - pose proof (pow2_pos (d1 + s - d2 - 1) ltac:(lia)). nia.
          - rewrite <- Z.pow_add_r by lia.
            replace (d2 + (d1 + s - d2 - 1)) with (d1 - 1 + s) by lia.
            rewrite Z.pow_add_r by lia. rewrite Em. nia. }
        assert (2 ^ (d1 + s - d2 - 1) < 2 ^ Zdigits2 q0) as Hp by lia.
        apply pow2_lt_inv in Hp; lia. }
      assert (Hhigh : Zdigits2 q0 <= - e' + 1).
      { assert (2 ^ (Zdigits2 q0 - 1) < 2 ^ (- e' + 1)) as Hp.
        { rewrite (pow2_S (- e')) by lia. lia. }
        apply pow2_lt_inv in Hp; lia. }
      assert (D <= Zdigits2 q0 + e') by (unfold D, s in *; lia).
      unfold e', fexp64 in *. lia. }
  repeat split; try lia; tauto.
Qed.


Lemma ordv_div_unit (x y : spec_float) :
  FloatAxioms.valid_binary x = true -> FloatAxioms.valid_binary y = true ->
  finiteSF x -> finiteSF y ->
  0 <= ordv x <= ordv y -> 0 < ordv y ->
  SF64div x y <> S754_nan /\ 0 <= ordv (SF64div x y) <= 2 ^ 1074.
Proof.
  intros Vx Vy Fx Fy Hxy Hy. unfold SF64div.
  assert (Hone : 0 < 2 ^ 1074) by (apply pow2_pos; lia).
  destruct x as [sx|sx| |sx mx ex], y as [sy|sy| |sy my ey]; try contradiction;
    cbn [SFdiv]; cbn [ordv] in Hxy, Hy; try lia.
  - split; [discriminate|]. cbn [ordv]. lia.
  - pose proof (valid_value sx mx ex Vx) as Px. pose proof (valid_value sy my ey Vy) as Py.
    destruct sx; [lia|]. destruct sy; [lia|]. cbn [xorb].
    destruct (SFdiv_core_binary FloatOps.prec FloatOps.emax (Zpos mx) ex (Zpos my) ey)
      as [[q e] l] eqn:Ecore.
    destruct (div_core_unit mx my ex ey Vx Vy ltac:(lia) q e l Ecore)
      as (Hq & Hn & Ha & Hc & He).
    destruct (binary_round_aux_loc_ordv false q e l Hq Hn) as [N E].
    split; [exact N|]. rewrite E. cbn [signed].
    pose proof (steps_exponent q e) as Hlow.
    pose proof (pow2_pos (e + steps q e + 1074) ltac:(lia)) as Hp.
    pose proof (code_bounds l) as Hcode.
    assert (Hr : rne (4 * q + code l) (steps q e + 2) <= 2 ^ (- (e + steps q e))).
    { apply rne_le_multiple; [lia|]. rewrite <- Z.pow_add_r by lia.
      replace (- (e + steps q e) + (steps q e + 2)) with (2 - e) by lia. exact Hc. }
    assert (Hr0 : 0 <= rne (4 * q + code l) (steps q e + 2)).
    { apply (rne_ge_multiple _ _ 0); lia. }
    split.
    + apply Z.min_glb; [nia|]. apply Z.lt_le_incl, pow2_pos. lia.
    + apply Z.le_trans with (rne (4 * q + code l) (steps q e + 2) * 2 ^ (e + steps q e + 1074));
        [apply Z.le_min_l|].
      apply Z.le_trans with (2 ^ (- (e + steps q e)) * 2 ^ (e + steps q e + 1074)).
      * apply Z.mul_le_mono_nonneg_r; lia.
      * rewrite <- Z.pow_add_r by lia.
        replace (- (e + steps q e) + (e + steps q e + 1074)) with 1074 by lia. lia.
Qed.

Local Open Scope float_scope.

(** A quotient of a number that is not negative by one that is not
    smaller lies between 0 and 1. *)
Theorem div_unit (a r : float) :
  finite a -> finite r ->
  (0 <=? a) = true -> (a <=? r) = true -> (r =? 0) = false ->
  (0 <=? a / r) = true /\ (a / r <=? 1) = true.
Proof.
  intros Fa Fr H0 Har Hr.
  pose proof (finite_number a Fa) as Na. pose proof (finite_number r Fr) as Nr.
  apply leb_le in H0; [|discriminate|exact Na]. apply leb_le in Har; [|assumption..].
  change (ordv (Prim2SF 0)) with 0%Z in H0.
  assert (Hpos : (0 < ordv (Prim2SF r))%Z).
  { destruct (Z.eq_dec (ordv (Prim2SF r)) 0%Z) as [E|Hne]; [|lia].
    rewrite FloatAxioms.eqb_spec in Hr. unfold SFeqb in Hr.
    rewrite (compare_ordv _ _ (Prim2SF_valid r) (Prim2SF_valid 0) Nr ltac:(discriminate)) in Hr.
    change (ordv (Prim2SF 0)) with 0%Z in Hr. rewrite E in Hr. discriminate. }
  destruct (ordv_div_unit (Prim2SF a) (Prim2SF r) (Prim2SF_valid a) (Prim2SF_valid r)
              Fa Fr ltac:(lia) Hpos) as [N [L U]].
  rewrite <- div_spec in N, L, U.
  assert (E1 : ordv (Prim2SF 1) = (2 ^ 1074)%Z) by reflexivity.
  split.
  - apply leb_le; [discriminate|exact N|exact L].
  - apply leb_le; [exact N|discriminate|]. rewrite E1. exact U.
Qed.

End FloatRound.

(** * core/types.ts *)
Module Types.

Record Vec3 := mkVec3 { x : float; y : float; z : float }.

Record Color := mkColor { r : float; g : float; b : float }.

Record Camera := mkCamera {
  cam_position : Vec3;
  cam_rotation : Vec3;
  fov : float;
  near : float;
  far : float
}.

Record Environment := mkEnvironment {
  ambientLight : float;
  backgroundColor : Color;
  fogDensity : option float;
  fogColor : option Color;
  globalIllumination : option float
}.

Inductive FlickerNoise := random | perlin | wave.

Record FlickerBehavior := mkFlicker {
  flicker_speed : float;
  amplitude : float;
  flicker_noise : FlickerNoise
}.

Inductive LightType := directional | point | spot | area.

Record Light := mkLight {
  light_type : LightType;
  light_position : option Vec3;
  direction : option Vec3;
  intensity : float;
  color : Color;
  range : option float;
  falloff : option float;
  flicker : option FlickerBehavior
}.

Inductive GlyphStyle :=
  dense | light | round | angular | line | noise | block | symbolic.

Inductive MotionType := motion_flicker | motion_flow | motion_pulse | motion_static.

Record MotionBehavior := mkMotion {
  motion_type : MotionType;
  motion_speed : float
}.

Record Material := mkMaterial {
  baseColor : Color;
  brightness : float;
  emissive : option float;
  roughness : float;
  reflectivity : float;
  transparency : option float;
  glyphStyle : option GlyphStyle;
  motionBehavior : option MotionBehavior
}.

Record Transform := mkTransform {
  position : Vec3;
  rotation : Vec3;
  scale : Vec3
}.

Inductive Geometry :=
| Sphere (radius : float)
| Box (size : Vec3)
| Plane (normal : Vec3)
| Cylinder (radius height : float)
| SignedDistanceField (functionName : string) (params : list (string * float)).

Record Entity := mkEntity {
  id : string;
  transform : Transform;
  geometry : Geometry;
  material : Material;
  velocity : option Vec3;
  angularVelocity : option Vec3
}.

Record Scene := mkScene {
  time : float;
  camera : Camera;
  environment : Environment;
  lights : list Light;
  entities : list Entity
}.

Record Ray := mkRay { origin : Vec3; ray_direction : Vec3 }.

(** [RaymarchResult = HitResult | MissResult] *)
Inductive RaymarchResult :=
| HitResult (hit_position hit_normal : Vec3) (hit_material : Material)
    (hit_distance : float) (hit_entityIndex : Z)
| MissResult.

End Types.

(** * core/vec3.ts *)
Module vec3.
Import Types.
Local Open Scope float_scope.

Definition add (a b : Vec3) : Vec3 :=
  {| x := x a + x b; y := y a + y b; z := z a + z b |}.

Definition sub (a b : Vec3) : Vec3 :=
  {| x := x a - x b; y := y a - y b; z := z a - z b |}.

Definition mul (v : Vec3) (scalar : float) : Vec3 :=
  {| x := x v * scalar; y := y v * scalar; z := z v * scalar |}.

Definition dot (a b : Vec3) : float :=
  x a * x b + y a * y b + z a * z b.

Definition length (v : Vec3) : float :=
  sqrt (x v * x v + y v * y v + z v * z v).

Definition normalize (v : Vec3) : Vec3 :=
  let len := length v in
  if len =? 0 then {| x := 0; y := 0; z := 0 |}
  else {| x := x v / len; y := y v / len; z := z v / len |}.

End vec3.

(** * renderer/sdf.ts *)
Module sdf.
Import Types.
Local Open Scope float_scope.

Definition sdSphere (p : Vec3) (radius : float) : float :=
  vec3.length p - radius.

Definition sdBox (p : Vec3) (size : Vec3) : float :=
  let d := {| x := abs (x p) - x size / 2;
              y := abs (y p) - y size / 2;
              z := abs (z p) - z size / 2 |} in
  let outside := vec3.length {| x := Js.Math_max (x d) 0;
                                y := Js.Math_max (y d) 0;
                                z := Js.Math_max (z d) 0 |} in
  let inside := Js.Math_min (Js.Math_max (x d) (Js.Math_max (y d) (z d))) 0 in
  outside + inside.

Definition sdPlane (p : Vec3) (normal : Vec3) : float :=
  vec3.dot p (vec3.normalize normal).

Definition sdCylinder (p : Vec3) (radius height : float) : float :=
  let d2 := sqrt (x p * x p + z p * z p) - radius in
  let d1 := abs (y p) - height / 2 in
  let outside := vec3.length {| x := Js.Math_max d2 0; y := Js.Math_max d1 0; z := 0 |} in
  let inside := Js.Math_min (Js.Math_max d2 d1) 0 in
  outside + inside.

Definition evaluateSDF (p : Vec3) (geometry : Geometry) : float :=
  match geometry with
  | Sphere radius => sdSphere p radius
  | Box size => sdBox p size
  | Plane normal => sdPlane p normal
  | Cylinder radius height => sdCylinder p radius height
  | SignedDistanceField _ _ => infinity
  end.

End sdf.

(** * renderer/SpatialGrid.ts *)
Module SpatialGrid.
Import Types.
Local Open Scope float_scope.

Record AABB := mkAABB { aabb_min : Vec3; aabb_max : Vec3 }.

Definition computeAABB (entity : Entity) : AABB :=
  let pos := position (transform entity) in
  let scale := scale (transform entity) in
  match geometry entity with
  | Sphere radius =>
      let r := radius * Js.Math_max (Js.Math_max (x scale) (y scale)) (z scale) in
      {| aabb_min := vec3.sub pos {| x := r; y := r; z := r |};
         aabb_max := vec3.add pos {| x := r; y := r; z := r |} |}
  | Box size =>
      let half := {| x := x size / 2 * x scale;
                     y := y size / 2 * y scale;
                     z := z size / 2 * z scale |} in
      {| aabb_min := vec3.sub pos half; aabb_max := vec3.add pos half |}
  | Cylinder radius height =>
      let r := radius * Js.Math_max (x scale) (z scale) in
      let h := height / 2 * y scale in
      {| aabb_min := vec3.sub pos {| x := r; y := h; z := r |};
         aabb_max := vec3.add pos {| x := r; y := h; z := r |} |}
  | Plane _ | SignedDistanceField _ _ =>
      {| aabb_min := {| x := -1e9; y := -1e9; z := -1e9 |};
         aabb_max := {| x := 1e9; y := 1e9; z := 1e9 |} |}
  end.

(** [((cx * 73856093) ^ (cy * 19349663) ^ (cz * 83492791)) >>> 0]: the
    products are binary64 products, [^] works on their [ToInt32] images and
    [>>> 0] reads the result as an unsigned 32-bit integer. *)
Definition hashCell (cx cy cz : float) : Z :=
  Js.wrap 32
    (Z.lxor (Z.lxor (Js.ToInt32 (cx * 73856093)) (Js.ToInt32 (cy * 19349663)))
            (Js.ToInt32 (cz * 83492791))).

(** [INFINITE_TYPES.has(geometry.type)] *)
Definition isInfinite (geometry : Geometry) : bool :=
  match geometry with
  | Plane _ | SignedDistanceField _ _ => true
  | _ => false
  end.

Record t := mk {
  cellSize : float;
  cells : gmap Z (list nat);
  globalIndices : list nat;
  entities : list Entity
}.

(** The values of [c] in [for (let c = lo; c <= hi; c++)] for bounds that
    [Math.floor] produced.  A NaN bound runs the body for no value.  The
    source loop does not end when a bound is infinite or when [c++] stalls
    (from 2^53 on); such bounds are outside the model, which gives them no
    value either. *)
Definition cellRange (lo hi : float) : list float :=
  match Js.truncZ lo, Js.truncZ hi with
  | Some a, Some b =>
      map (fun k => Js.ofZ (a + Z.of_nat k)) (seq 0 (Z.to_nat (b - a + 1)))
  | _, _ => []
  end.

(** The body of the innermost loop: get or create the array of the cell,
    and push the index unless the array includes it. *)
Definition pushIndex (cells : gmap Z (list nat)) (h : Z) (i : nat)
    : gmap Z (list nat) :=
  match cells !! h with
  | None => <[h := [i]]> cells
  | Some arr =>
      if bool_decide (i ∈ arr) then cells else <[h := arr ++ [i]]> cells
  end.

(** The three nested loops over the cells that the box of entity [i]
    overlaps. *)
Definition insertEntity (cs : float) (cells : gmap Z (list nat)) (i : nat)
    (entity : Entity) : gmap Z (list nat) :=
  let aabb := computeAABB entity in
  let minCX := Js.Math_floor (x (aabb_min aabb) / cs) in
  let minCY := Js.Math_floor (y (aabb_min aabb) / cs) in
  let minCZ := Js.Math_floor (z (aabb_min aabb) / cs) in
  let maxCX := Js.Math_floor (x (aabb_max aabb) / cs) in
  let maxCY := Js.Math_floor (y (aabb_max aabb) / cs) in
  let maxCZ := Js.Math_floor (z (aabb_max aabb) / cs) in
  foldl (fun cells cx =>
    foldl (fun cells cy =>
      foldl (fun cells cz => pushIndex cells (hashCell cx cy cz) i)
            cells (cellRange minCZ maxCZ))
          cells (cellRange minCY maxCY))
        cells (cellRange minCX maxCX).

(** The loop of [rebuild] over the entities from index [i] on. *)
Fixpoint rebuildFrom (cs : float) (i : nat) (rest : list Entity)
    (cells : gmap Z (list nat)) (globalIndices : list nat)
    : gmap Z (list nat) * list nat :=
  match rest with
  | [] => (cells, globalIndices)
  | entity :: rest' =>
      if isInfinite (geometry entity)
      then rebuildFrom cs (S i) rest' cells (globalIndices ++ [i])
      else rebuildFrom cs (S i) rest' (insertEntity cs cells i entity) globalIndices
  end.

Definition rebuild (grid : t) : t :=
  let res := rebuildFrom (cellSize grid) 0 (entities grid) ∅ [] in
  {| cellSize := cellSize grid;
     cells := fst res;
     globalIndices := snd res;
     entities := entities grid |}.

(** [constructor(entities, cellSize = 2.0)] *)
Definition new (entities : list Entity) (cellSize : float) : t :=
  rebuild {| cellSize := cellSize; cells := ∅; globalIndices := [];
             entities := entities |}.

Definition updateEntities (grid : t) (entities : list Entity) : t :=
  rebuild {| cellSize := cellSize grid; cells := cells grid;
             globalIndices := globalIndices grid; entities := entities |}.

Definition getCandidates (grid : t) (point : Vec3) : list nat :=
  let cs := cellSize grid in
  let cx := Js.Math_floor (x point / cs) in
  let cy := Js.Math_floor (y point / cs) in
  let cz := Js.Math_floor (z point / cs) in
  let h := hashCell cx cy cz in
  let cell := default [] (cells grid !! h) in
  globalIndices grid ++ cell.

(** ** The grid invariant *)

(** What holds of every cell array while the entities below index [n] have
    been entered. *)
Definition cellsOk (entities : list Entity) (cells : gmap Z (list nat)) : Prop :=
  forall h arr, cells !! h = Some arr ->
    NoDup arr /\
    forall i, i ∈ arr ->
      exists e, entities !! i = Some e /\ isInfinite (geometry e) = false.

Lemma cellsOk_empty entities : cellsOk entities ∅.
Proof. intros h arr H. rewrite lookup_empty in H. discriminate. Qed.

Lemma pushIndex_ok entities cells h i e :
  entities !! i = Some e -> isInfinite (geometry e) = false ->
  cellsOk entities cells -> cellsOk entities (pushIndex cells h i).
Proof.
  intros Hi Hfin Hok h' arr'. unfold pushIndex.
  destruct (cells !! h) as [arr|] eqn:Eh.
  - case_bool_decide as Hin; [apply Hok|].
    rewrite lookup_insert. case_decide as Hh.
    + intros [= <-]. destruct (Hok h arr Eh) as [Hnd Hall]. split.
      * apply NoDup_app. repeat split; [exact Hnd| |apply NoDup_singleton].
        intros j Hj Hj'. apply list_elem_of_singleton in Hj'. subst. contradiction.
      * intros j Hj. apply elem_of_app in Hj as [Hj|Hj]; [apply Hall, Hj|].
        apply list_elem_of_singleton in Hj. subst. eauto.
    + apply Hok.
  - rewrite lookup_insert. case_decide as Hh; [|apply Hok].
    intros [= <-]. split; [apply NoDup_singleton|].
    intros j Hj. apply list_elem_of_singleton in Hj. subst. eauto.
Qed.

Lemma foldl_invariant {A B} (P : A -> Prop) (f : A -> B -> A) (l : list B) :
  (forall a b, P a -> P (f a b)) -> forall a, P a -> P (foldl f a l).
Proof.
  intros Hf. induction l as [|b l IH]; intros a Ha; cbn; [exact Ha|].
  apply IH, Hf, Ha.
Qed.

Lemma insertEntity_ok entities cs cells i e :
  entities !! i = Some e -> isInfinite (geometry e) = false ->
  cellsOk entities cells -> cellsOk entities (insertEntity cs cells i e).
Proof.
  intros Hi Hfin. unfold insertEntity.
  do 3 (apply foldl_invariant; intros ? ?).
  apply (pushIndex_ok _ _ _ _ _ Hi Hfin).
Qed.

Lemma rebuildFrom_ok entities cs rest : forall i cells globals,
  (forall k e, rest !! k = Some e -> entities !! (i + k)%nat = Some e) ->
  cellsOk entities cells ->
  cellsOk entities (fst (rebuildFrom cs i rest cells globals)).
Proof.
  induction rest as [|e rest IH]; intros i cells globals Hrest Hok; [exact Hok|].
  assert (Hi : entities !! i = Some e).
  { rewrite <- (Nat.add_0_r i). apply Hrest. reflexivity. }
  assert (Hrest' : forall k e', rest !! k = Some e' ->
                     entities !! (S i + k)%nat = Some e').
  { intros k e' Hk. replace (S i + k)%nat with (i + S k)%nat by lia.
    apply Hrest. exact Hk. }
  cbn [rebuildFrom]. destruct (isInfinite (geometry e)) eqn:Hinf.
  - apply IH; assumption.
  - apply IH; [assumption|]. apply (insertEntity_ok _ _ _ _ _ Hi Hinf Hok).
Qed.

Lemma rebuildFrom_globals_mono cs rest : forall i cells globals j,
  j ∈ globals -> j ∈ snd (rebuildFrom cs i rest cells globals).
Proof.
  induction rest as [|e rest IH]; intros i cells globals j Hj; [exact Hj|].
  cbn [rebuildFrom]. destruct (isInfinite (geometry e)).
  - apply IH. apply elem_of_app. left. exact Hj.
  - apply IH. exact Hj.
Qed.

Lemma rebuildFrom_globals cs rest : forall i cells globals k e,
  rest !! k = Some e -> isInfinite (geometry e) = true ->
  (i + k)%nat ∈ snd (rebuildFrom cs i rest cells globals).
Proof.
  induction rest as [|e0 rest IH]; intros i cells globals k e Hk Hinf;
    [discriminate|].
  cbn [rebuildFrom]. destruct k as [|k].
  - cbn in Hk. injection Hk as ->. rewrite Hinf, Nat.add_0_r.
    apply rebuildFrom_globals_mono, elem_of_app. right.
    apply list_elem_of_singleton. reflexivity.
  - cbn in Hk. replace (i + S k)%nat with (S i + k)%nat by lia.
    destruct (isInfinite (geometry e0)); apply (IH _ _ _ _ _ Hk Hinf).
Qed.

Lemma rebuildFrom_globals_only cs rest : forall i cells globals j,
  j ∈ snd (rebuildFrom cs i rest cells globals) ->
  j ∈ globals \/
  exists k e, j = (i + k)%nat /\ rest !! k = Some e /\ isInfinite (geometry e) = true.
Proof.
  induction rest as [|e0 rest IH]; intros i cells globals j Hj; [left; exact Hj|].
  cbn [rebuildFrom] in Hj. destruct (isInfinite (geometry e0)) eqn:Hinf.
  - apply IH in Hj as [Hj|(k & e & -> & Hk & He)].
    + apply elem_of_app in Hj as [Hj|Hj]; [left; exact Hj|].
      apply list_elem_of_singleton in Hj. subst. right.
      exists 0%nat, e0. rewrite Nat.add_0_r. auto.
    + right. exists (S k), e. split; [lia|]. auto.
  - apply IH in Hj as [Hj|(k & e & -> & Hk & He)]; [left; exact Hj|].
    right. exists (S k), e. split; [lia|]. auto.
Qed.

(** C8.  After [rebuild] (hence after construction and after
    [updateEntities], which end in it): every cell array is free of
    duplicates and holds only indices of entities whose geometry is neither
    a plane nor a generic SDF; the always-evaluated list holds exactly the
    indices of the plane and generic-SDF entities; and [getCandidates]
    of any point includes every one of them. *)
Theorem rebuild_invariant (grid : t) :
  (forall h arr, cells (rebuild grid) !! h = Some arr ->
     NoDup arr /\
     forall i, i ∈ arr ->
       exists e, entities grid !! i = Some e /\ isInfinite (geometry e) = false) /\
  (forall i, i ∈ globalIndices (rebuild grid) <->
     exists e, entities grid !! i = Some e /\ isInfinite (geometry e) = true) /\
  (forall i e point, entities grid !! i = Some e ->
     isInfinite (geometry e) = true ->
     i ∈ getCandidates (rebuild grid) point) /\
  (forall entities cellSize, new entities cellSize
     = rebuild (mk cellSize ∅ [] entities)) /\
  (forall entities, updateEntities grid entities
     = rebuild (mk (cellSize grid) (cells grid) (globalIndices grid) entities)).
Proof.
  assert (Hglob : forall i e, entities grid !! i = Some e ->
            isInfinite (geometry e) = true -> i ∈ globalIndices (rebuild grid)).
  { intros i e Hi Hinf. unfold rebuild. cbn [globalIndices].
    apply (rebuildFrom_globals (cellSize grid) (entities grid) 0 ∅ [] i e Hi Hinf). }
  repeat split.
  - revert h arr H. apply (rebuildFrom_ok (entities grid)); [|apply cellsOk_empty].
    intros k e Hk. exact Hk.
  - revert h arr H. apply (rebuildFrom_ok (entities grid)); [|apply cellsOk_empty].
    intros k e Hk. exact Hk.
  - intros Hi. unfold rebuild in Hi. cbn [globalIndices] in Hi.
    apply rebuildFrom_globals_only in Hi as [Hi|(k & e & -> & Hk & He)].
    + apply elem_of_nil in Hi. contradiction.
    + exists e. auto.
  - intros (e & Hi & Hinf). apply (Hglob i e Hi Hinf).
  - intros i e point Hi Hinf. unfold getCandidates.
    apply elem_of_app. left. apply (Hglob i e Hi Hinf).
Qed.

(** ** What [getCandidates] returns *)

Lemma rebuildFrom_globals_NoDup cs rest : forall i cells globals,
  NoDup globals -> (forall j, j ∈ globals -> (j < i)%nat) ->
  NoDup (snd (rebuildFrom cs i rest cells globals)).
Proof.
  induction rest as [|e rest IH]; intros i cells globals Hnd Hlt; [exact Hnd|].
  cbn [rebuildFrom]. destruct (isInfinite (geometry e)).
  - apply IH.
    + apply NoDup_app. repeat split; [exact Hnd| |apply NoDup_singleton].
      intros j Hj Hj'. apply list_elem_of_singleton in Hj'. subst.
      specialize (Hlt _ Hj). lia.
    + intros j Hj. apply elem_of_app in Hj as [Hj|Hj].
      * specialize (Hlt _ Hj). lia.
      * apply list_elem_of_singleton in Hj. lia.
  - apply IH; [exact Hnd|]. intros j Hj. specialize (Hlt _ Hj). lia.
Qed.

Lemma rebuild_cellsOk grid : cellsOk (entities grid) (cells (rebuild grid)).
Proof.
  unfold rebuild. cbn [cells].
  apply (rebuildFrom_ok (entities grid)); [|apply cellsOk_empty].
  intros k e Hk. exact Hk.
Qed.

Lemma rebuild_globals grid i :
  i ∈ globalIndices (rebuild grid) ->
  exists e, entities grid !! i = Some e /\ isInfinite (geometry e) = true.
Proof.
  intros Hi. unfold rebuild in Hi. cbn [globalIndices] in Hi.
  apply rebuildFrom_globals_only in Hi as [Hi|(k & e & -> & Hk & He)].
  - apply elem_of_nil in Hi. contradiction.
  - exists e. auto.
Qed.

Lemma rebuild_cell grid h i :
  i ∈ default [] (cells (rebuild grid) !! h) ->
  exists e, entities grid !! i = Some e /\ isInfinite (geometry e) = false.
Proof.
  intros Hi. destruct (cells (rebuild grid) !! h) as [arr|] eqn:Eh.
  - apply (rebuild_cellsOk grid h arr Eh), Hi.
  - apply elem_of_nil in Hi. contradiction.
Qed.

Lemma candidates_in_range grid point i :
  i ∈ getCandidates (rebuild grid) point -> exists e, entities grid !! i = Some e.
Proof.
  unfold getCandidates. intros Hi. apply elem_of_app in Hi as [Hi|Hi].
  - destruct (rebuild_globals grid i Hi) as (e & He & _). eauto.
  - destruct (rebuild_cell grid _ i Hi) as (e & He & _). eauto.
Qed.

(** X1.  After [rebuild] (so after construction and after [updateEntities]),
    the candidates of any point are indices of the entity array, and no
    index occurs twice among them: [World.sample], which reads
    [entities[i]] for each candidate without a check, finds an entity every
    time and evaluates none twice. *)
Theorem getCandidates_indices (grid : t) (point : Vec3) :
  NoDup (getCandidates (rebuild grid) point) /\
  Forall (fun i => is_Some (entities grid !! i)) (getCandidates (rebuild grid) point).
Proof.
  split.
  - unfold getCandidates. apply NoDup_app. repeat split.
    + unfold rebuild. cbn [globalIndices].
      apply rebuildFrom_globals_NoDup; [apply NoDup_nil_2|].
      intros j Hj. apply elem_of_nil in Hj. contradiction.
    + intros i Hi Hi'. destruct (rebuild_globals grid i Hi) as (e & He & Hinf).
      destruct (rebuild_cell grid _ i Hi') as (e' & He' & Hfin). congruence.
    + match goal with |- NoDup (default [] (?c !! ?h)) =>
        destruct (c !! h) as [arr|] eqn:Eh end.
      * apply (rebuild_cellsOk grid _ arr Eh).
      * apply NoDup_nil_2.
  - apply Forall_forall. intros i Hi.
    destruct (candidates_in_range grid point i Hi) as (e & He). rewrite He. eauto.
Qed.

End SpatialGrid.

(** * renderer/World.ts *)
Module World.
Import Types.
Local Open Scope float_scope.

Record SampleResult := mkSample {
  distance : float;
  sample_material : Material;
  entityId : string;
  entityIndex : Z
}.

Definition EMPTY_MATERIAL : Material :=
  {| baseColor := {| r := 0; g := 0; b := 0 |}; brightness := 0;
     emissive := None; roughness := 0; reflectivity := 0;
     transparency := None; glyphStyle := None; motionBehavior := None |}.

Record t := mk {
  entities : list Entity;
  grid : SpatialGrid.t
}.

Definition new (entities : list Entity) : t :=
  {| entities := entities; grid := SpatialGrid.new entities 2 |}.

Definition updateEntities (world : t) (entities : list Entity) : t :=
  {| entities := entities;
     grid := SpatialGrid.updateEntities (grid world) entities |}.

Section WithMath.
Variable math : Js.MathLib.

Definition worldToLocal (point : Vec3) (transform : Transform) : Vec3 :=
  let translated := vec3.sub point (position transform) in
  let cos := Js.Math_cos math in
  let sin := Js.Math_sin math in
  let rot := rotation transform in
  let rotZ := {| x := x translated * cos (- z rot) - y translated * sin (- z rot);
                 y := x translated * sin (- z rot) + y translated * cos (- z rot);
                 z := z translated |} in
  let rotX := {| x := x rotZ;
                 y := y rotZ * cos (- x rot) - z rotZ * sin (- x rot);
                 z := y rotZ * sin (- x rot) + z rotZ * cos (- x rot) |} in
  let rotY := {| x := x rotX * cos (- y rot) + z rotX * sin (- y rot);
                 y := y rotX;
                 z := - x rotX * sin (- y rot) + z rotX * cos (- y rot) |} in
  {| x := x rotY / x (scale transform);
     y := y rotY / y (scale transform);
     z := z rotY / z (scale transform) |}.

(** The body of the loop of [sample] for candidate [i].  The candidates are
    indices of [entities] (the grid is built from the same array), so the
    lookup succeeds. *)
Definition sampleStep (world : t) (point : Vec3) (closest : SampleResult)
    (i : nat) : SampleResult :=
  match entities world !! i with
  | None => closest
  | Some entity =>
      let localPoint := worldToLocal point (transform entity) in
      let dist := sdf.evaluateSDF localPoint (geometry entity) in
      let scaleFactor :=
        Js.Math_min (Js.Math_min (x (scale (transform entity)))
                                 (y (scale (transform entity))))
                    (z (scale (transform entity))) in
      let dist := dist * scaleFactor in
      if dist <? distance closest
      then {| distance := dist; sample_material := material entity;
              entityId := id entity; entityIndex := Z.of_nat i |}
      else closest
  end.

Definition sample (world : t) (point : Vec3) : SampleResult :=
  let candidates := SpatialGrid.getCandidates (grid world) point in
  foldl (sampleStep world point)
        {| distance := infinity; sample_material := EMPTY_MATERIAL;
           entityId := ""; entityIndex := (-1)%Z |}
        candidates.

End WithMath.

(** ** Sampling does not depend on the host's trigonometry at zero rotation *)

(** A library that is exact at the zeros, to compute with. *)
Definition zeroMath : Js.MathLib :=
  {| Js.Math_cos := fun _ => 1; Js.Math_sin := fun a => a; Js.Math_tan := fun a => a |}.

Lemma zeroMath_exact : Js.exactAtZero zeroMath.
Proof. repeat split. Qed.

Definition unrotated (entity : Entity) : Prop :=
  rotation (transform entity) = {| x := 0; y := 0; z := 0 |}.

Lemma worldToLocal_unrotated math point tr :
  Js.exactAtZero math -> rotation tr = {| x := 0; y := 0; z := 0 |} ->
  worldToLocal math point tr = worldToLocal zeroMath point tr.
Proof.
  intros (Hc0 & Hc & Hs0 & Hs) Hrot. unfold worldToLocal. rewrite Hrot.
  cbn [x y z Js.Math_cos Js.Math_sin zeroMath].
  change (- 0)%float with (-0)%float. rewrite Hc, Hs. reflexivity.
Qed.

Lemma sampleStep_unrotated math world point closest i :
  Js.exactAtZero math -> Forall unrotated (entities world) ->
  sampleStep math world point closest i = sampleStep zeroMath world point closest i.
Proof.
  intros Hm Hall. unfold sampleStep.
  destruct (entities world !! i) as [e|] eqn:Ei; [|reflexivity].
  rewrite (worldToLocal_unrotated math); [reflexivity|exact Hm|].
  rewrite Forall_forall in Hall. apply Hall.
  eapply list_elem_of_lookup_2, Ei.
Qed.

Lemma sample_unrotated math world point :
  Js.exactAtZero math -> Forall unrotated (entities world) ->
  sample math world point = sample zeroMath world point.
Proof.
  intros Hm Hall. unfold sample.
  generalize (SpatialGrid.getCandidates (grid world) point) as cands.
  generalize ({| distance := infinity; sample_material := EMPTY_MATERIAL;
                 entityId := ""; entityIndex := (-1)%Z |}) as acc.
  intros acc cands. revert acc.
  induction cands as [|i cands IH]; intros acc; [reflexivity|].
  cbn [foldl]. rewrite (sampleStep_unrotated math) by assumption. apply IH.
Qed.

(** ** The world of the sampler test *)

Definition unitSphereAt (center : Vec3) (name : string) (m : Material) : Entity :=
  {| id := name;
     transform := {| position := center;
                     rotation := {| x := 0; y := 0; z := 0 |};
                     scale := {| x := 1; y := 1; z := 1 |} |};
     geometry := Sphere 1;
     material := m;
     velocity := None;
     angularVelocity := None |}.

Definition loneSphere (name : string) (m : Material) : t :=
  new [unitSphereAt {| x := 0; y := 1; z := 0 |} name m].

(** C5.  In the world of one unit-scale, unrotated sphere of radius 1 at
    (0,1,0), whatever its identifier and material, [sample] returns the
    distance -1 at (0,1,0), 0 at (0,2,0) and 1 at (0,3,0), under every host
    trigonometry that is exact at the zeros. *)
Theorem sample_lone_sphere (math : Js.MathLib) (name : string) (m : Material) :
  Js.exactAtZero math ->
  distance (sample math (loneSphere name m) {| x := 0; y := 1; z := 0 |}) = (-1)%float /\
  distance (sample math (loneSphere name m) {| x := 0; y := 2; z := 0 |}) = 0%float /\
  distance (sample math (loneSphere name m) {| x := 0; y := 3; z := 0 |}) = 1%float.
Proof.
  intros Hm.
  assert (Hall : Forall unrotated (entities (loneSphere name m))).
  { repeat constructor. }
  rewrite !(sample_unrotated math) by assumption.
  repeat split; vm_compute; reflexivity.
Qed.

Lemma sample_lone_sphere_witness :
  Js.exactAtZero zeroMath /\
  distance (sample zeroMath (loneSphere "sphere_1" EMPTY_MATERIAL)
              {| x := 0; y := 2; z := 0 |}) = 0%float.
Proof.
  split; [exact zeroMath_exact|].
  apply (sample_lone_sphere zeroMath "sphere_1" EMPTY_MATERIAL zeroMath_exact).
Defined.

(** ** A rotated sphere *)

(** A host library that is exact at the zeros and returns the correctly
    rounded cosine and sine of a quarter radian. *)
Definition quarterMath : Js.MathLib :=
  {| Js.Math_cos := fun a => if abs a =? 0.25 then 0.9689124217106447 else 1;
     Js.Math_sin := fun a => if a =? 0.25 then 0.24740395925452294
                             else if a =? -0.25 then -0.24740395925452294
                             else a;
     Js.Math_tan := fun a => a |}.

(** The sphere of the sampler test, rolled by a quarter radian about z. *)
Definition rolledSphere : t :=
  new [ {| id := "sphere_1";
           transform := {| position := {| x := 0; y := 1; z := 0 |};
                           rotation := {| x := 0; y := 0; z := 0.25 |};
                           scale := {| x := 1; y := 1; z := 1 |} |};
           geometry := Sphere 1;
           material := EMPTY_MATERIAL;
           velocity := None;
           angularVelocity := None |} ].

(** C5 (a rotation is not free).  The world holds exactly one unit-scale
    sphere of radius 1 at (0,1,0), rolled by 0.25 about z.  A sphere looks
    the same under every rotation, but [worldToLocal] rotates the sample
    point in binary64: at (0,2,0) the distance is -1.1102230246251565e-16,
    not 0, and at (0,3,0) it is 0.9999999999999998, not 1. *)
Lemma sample_rolled_sphere_counterexample :
  Js.exactAtZero quarterMath /\
  Js.Math_cos quarterMath (-0.25) = 0.9689124217106447 /\
  Js.Math_sin quarterMath (-0.25) = -0.24740395925452294 /\
  length (entities rolledSphere) = 1%nat /\
  distance (sample quarterMath rolledSphere {| x := 0; y := 1; z := 0 |}) = -1 /\
  distance (sample quarterMath rolledSphere {| x := 0; y := 2; z := 0 |})
    = -1.1102230246251565e-16 /\
  distance (sample quarterMath rolledSphere {| x := 0; y := 3; z := 0 |})
    = 0.9999999999999998 /\
  (-1.1102230246251565e-16 =? 0) = false /\
  (0.9999999999999998 =? 1) = false.
Proof.
  repeat split; vm_compute; reflexivity.
Qed.

(** ** The sampler returns the nearest candidate *)

(** The distance that the loop of [sample] computes for an entity: the
    distance in the entity's frame, times its smallest scale. *)
Definition scaledDistance (math : Js.MathLib) (point : Vec3) (entity : Entity) : float :=
  sdf.evaluateSDF (worldToLocal math point (transform entity)) (geometry entity)
  * Js.Math_min (Js.Math_min (x (scale (transform entity)))
                             (y (scale (transform entity))))
                (z (scale (transform entity))).

(** What [sample] returns when no candidate is closer than [Infinity]. *)
Definition nothing : SampleResult :=
  {| distance := infinity; sample_material := EMPTY_MATERIAL;
     entityId := ""; entityIndex := (-1)%Z |}.

(** What [sample] returns when entity [i] is the closest. *)
Definition found (math : Js.MathLib) (point : Vec3) (i : nat) (entity : Entity)
    : SampleResult :=
  {| distance := scaledDistance math point entity;
     sample_material := material entity;
     entityId := id entity; entityIndex := Z.of_nat i |}.

(** The state of the loop after the candidates [seen]. *)
Definition closestOf (math : Js.MathLib) (world : t) (point : Vec3)
    (seen : list nat) (closest : SampleResult) : Prop :=
  (closest = nothing \/
   exists i e, i ∈ seen /\ entities world !! i = Some e /\
     closest = found math point i e /\ (distance closest <? infinity) = true) /\
  (forall j e, j ∈ seen -> entities world !! j = Some e ->
     (scaledDistance math point e <? distance closest) = false).

Lemma sampleStep_closestOf math world point seen closest i :
  closestOf math world point seen closest ->
  closestOf math world point (seen ++ [i]) (sampleStep math world point closest i).
Proof.
  intros [Hwho Hmin]. unfold sampleStep.
  destruct (entities world !! i) as [e|] eqn:Ei.
  - fold (scaledDistance math point e).
    destruct (scaledDistance math point e <? distance closest) eqn:Hlt.
    + split.
      * right. exists i, e. repeat split; [|exact Ei|].
        -- apply elem_of_app. right. apply list_elem_of_singleton. reflexivity.
        -- apply (FloatOrder.ltb_infinity_r _ _ Hlt).
      * intros j e' Hj Ej. cbn [distance].
        apply elem_of_app in Hj as [Hj|Hj].
        -- destruct (scaledDistance math point e' <? scaledDistance math point e) eqn:Hlt';
             [|reflexivity].
           rewrite <- (Hmin j e' Hj Ej). symmetry.
           apply (FloatOrder.ltb_trans _ _ _ Hlt' Hlt).
        -- apply list_elem_of_singleton in Hj. subst j.
           replace e' with e by congruence. apply FloatOrder.ltb_irrefl.
    + split.
      * destruct Hwho as [Hn|(k & e' & Hk & Ek & Hf & Hfin)]; [left; exact Hn|].
        right. exists k, e'. repeat split; try assumption.
        apply elem_of_app. left. exact Hk.
      * intros j e' Hj Ej. apply elem_of_app in Hj as [Hj|Hj]; [apply (Hmin j e' Hj Ej)|].
        apply list_elem_of_singleton in Hj. subst j.
        replace e' with e by congruence. exact Hlt.
  - split.
    + destruct Hwho as [Hn|(k & e' & Hk & Ek & Hf & Hfin)]; [left; exact Hn|].
      right. exists k, e'. repeat split; try assumption.
      apply elem_of_app. left. exact Hk.
    + intros j e' Hj Ej. apply elem_of_app in Hj as [Hj|Hj]; [apply (Hmin j e' Hj Ej)|].
      apply list_elem_of_singleton in Hj. subst j. congruence.
Qed.

Lemma foldl_closestOf math world point candidates : forall seen closest,
  closestOf math world point seen closest ->
  closestOf math world point (seen ++ candidates)
    (foldl (sampleStep math world point) closest candidates).
Proof.
  induction candidates as [|i candidates IH]; intros seen closest H.
  - rewrite app_nil_r. exact H.
  - cbn [foldl]. replace (seen ++ i :: candidates) with ((seen ++ [i]) ++ candidates)
      by (rewrite <- app_assoc; reflexivity).
    apply IH, sampleStep_closestOf, H.
Qed.

Lemma sample_closestOf math world point :
  closestOf math world point (SpatialGrid.getCandidates (grid world) point)
            (sample math world point).
Proof.
  unfold sample. apply (foldl_closestOf math world point _ [] nothing).
  split; [left; reflexivity|].
  intros j e Hj. apply elem_of_nil in Hj. contradiction.
Qed.

(** X2.  In a world as the constructor builds it, every candidate of a point
    is an entity of the world; [sample] returns either the sentinel
    (distance [Infinity], index -1, empty identifier and material) or the
    distance, material, identifier and index of one candidate; and no
    candidate's distance is below the returned one. *)
Theorem sample_nearest (math : Js.MathLib) (entities : list Entity) (point : Vec3) :
  let world := new entities in
  let candidates := SpatialGrid.getCandidates (grid world) point in
  let result := sample math world point in
  (forall i, i ∈ candidates -> exists e, entities !! i = Some e) /\
  (result = nothing \/
   exists i e, i ∈ candidates /\ entities !! i = Some e /\
     result = found math point i e) /\
  (forall i e, i ∈ candidates -> entities !! i = Some e ->
     (scaledDistance math point e <? distance result) = false).
Proof.
  intros world candidates result.
  destruct (sample_closestOf math world point) as [Hwho Hmin].
  split; [|split].
  - intros i Hi.
    apply (SpatialGrid.candidates_in_range (SpatialGrid.mk 2 ∅ [] entities) point i Hi).
  - destruct Hwho as [Hn|(i & e & Hi & Ei & Hf & _)]; [left; exact Hn|].
    right. exists i, e. auto.
  - exact Hmin.
Qed.

(** X3.  An entity of the generic kind ([type: 'sdf'], for which [evaluateSDF]
    answers [Infinity]) whose scale is positive in every component is at
    distance [Infinity] from every point, and [sample] never returns it:
    such entities are candidates everywhere and hit nowhere. *)
Theorem generic_sdf_inert (math : Js.MathLib) (entities : list Entity) (point : Vec3)
    (i : nat) (e : Entity) (name : string) (params : list (string * float)) :
  entities !! i = Some e ->
  geometry e = SignedDistanceField name params ->
  (0 <? Js.Math_min (Js.Math_min (x (scale (transform e))) (y (scale (transform e))))
                    (z (scale (transform e)))) = true ->
  scaledDistance math point e = infinity /\
  (entityIndex (sample math (new entities) point) <> Z.of_nat i)%Z.
Proof.
  intros Ei Hgeo Hpos.
  assert (Hinf : scaledDistance math point e = infinity).
  { unfold scaledDistance. rewrite Hgeo. cbn [sdf.evaluateSDF].
    apply FloatOrder.infinity_mul_pos, Hpos. }
  split; [exact Hinf|]. intros Hidx.
  destruct (sample_closestOf math (new entities) point) as [Hwho _].
  destruct Hwho as [Hn|(k & e' & _ & Ek & Hf & Hfin)].
  - rewrite Hn in Hidx. cbn in Hidx. lia.
  - rewrite Hf in Hidx, Hfin. cbn [entityIndex distance found] in Hidx, Hfin.
    apply Nat2Z.inj in Hidx. subst k.
    cbn [World.entities new] in Ek. replace e' with e in Hfin by congruence.
    rewrite Hinf, FloatOrder.ltb_irrefl in Hfin. discriminate.
Qed.

Definition genericEntity : Entity :=
  {| id := "field";
     transform := {| position := {| x := 0; y := 0; z := 0 |};
                     rotation := {| x := 0; y := 0; z := 0 |};
                     scale := {| x := 1; y := 2; z := 1 |} |};
     geometry := SignedDistanceField "torus" [];
     material := EMPTY_MATERIAL;
     velocity := None;
     angularVelocity := None |}.

Lemma generic_sdf_inert_witness :
  (entityIndex (sample zeroMath (new [genericEntity]) {| x := 0; y := 0; z := 0 |})
   <> Z.of_nat 0)%Z.
Proof.
  refine (proj2 (generic_sdf_inert zeroMath [genericEntity] {| x := 0; y := 0; z := 0 |}
                   0 genericEntity "torus" [] _ _ _)).
  - reflexivity.
  - reflexivity.
  - vm_compute. reflexivity.
Defined.

(** X4.  The world after [updateEntities] is the world that the constructor
    builds from the new array: the grid is rebuilt from empty, and nothing
    of the earlier array is left in it. *)
Theorem updateEntities_is_new (first second : list Entity) (world : t) :
  updateEntities (new first) second = new second /\
  updateEntities (updateEntities world first) second = updateEntities world second.
Proof.
  unfold updateEntities, new, SpatialGrid.updateEntities, SpatialGrid.new,
    SpatialGrid.rebuild.
  cbn [grid entities SpatialGrid.cellSize SpatialGrid.cells
       SpatialGrid.globalIndices SpatialGrid.entities].
  split; reflexivity.
Qed.

End World.

(** * renderer/Raymarch.ts *)
Module Raymarch.
Import Types.
Local Open Scope float_scope.

Definition DEFAULT_MAX_STEPS : nat := 64.
Definition HIT_THRESHOLD : float := 0.01.
Definition MAX_DISTANCE : float := 100.0.
Definition NORMAL_EPSILON : float := 0.001.

Section WithMath.
Variable math : Js.MathLib.

Definition computeNormal (pos : Vec3) (world : World.t) : Vec3 :=
  let eps := NORMAL_EPSILON in
  let d p := World.distance (World.sample math world p) in
  let nx := d {| x := x pos + eps; y := y pos; z := z pos |}
            - d {| x := x pos - eps; y := y pos; z := z pos |} in
  let ny := d {| x := x pos; y := y pos + eps; z := z pos |}
            - d {| x := x pos; y := y pos - eps; z := z pos |} in
  let nz := d {| x := x pos; y := y pos; z := z pos + eps |}
            - d {| x := x pos; y := y pos; z := z pos - eps |} in
  vec3.normalize {| x := nx; y := ny; z := nz |}.

(** The [for] loop with [steps] iterations left and accumulated distance
    [t]. *)
Fixpoint march (steps : nat) (ray : Ray) (world : World.t) (t : float)
    : RaymarchResult :=
  match steps with
  | O => MissResult
  | S steps' =>
      let pos := vec3.add (origin ray) (vec3.mul (ray_direction ray) t) in
      let sample := World.sample math world pos in
      if World.distance sample <? HIT_THRESHOLD then
        HitResult pos (computeNormal pos world) (World.sample_material sample)
                  t (World.entityIndex sample)
      else
        let t := t + World.distance sample in
        if MAX_DISTANCE <? t then MissResult
        else march steps' ray world t
  end.

Definition raymarch (ray : Ray) (world : World.t) (maxSteps : nat)
    : RaymarchResult :=
  march maxSteps ray world 0.

End WithMath.

(** ** Marching does not depend on the host's trigonometry at zero rotation *)

Lemma computeNormal_unrotated math pos world :
  Js.exactAtZero math -> Forall World.unrotated (World.entities world) ->
  computeNormal math pos world = computeNormal World.zeroMath pos world.
Proof.
  intros Hm Hall. unfold computeNormal.
  rewrite !(World.sample_unrotated math) by assumption. reflexivity.
Qed.

Lemma march_unrotated math steps ray world : forall t,
  Js.exactAtZero math -> Forall World.unrotated (World.entities world) ->
  march math steps ray world t = march World.zeroMath steps ray world t.
Proof.
  induction steps as [|steps IH]; intros t Hm Hall; [reflexivity|].
  cbn [march]. rewrite (World.sample_unrotated math) by assumption.
  rewrite (computeNormal_unrotated math) by assumption.
  rewrite IH by assumption. reflexivity.
Qed.

(** ** The ray of the tracer test *)

Definition testRay : Ray :=
  {| origin := {| x := 0; y := 1; z := 6 |};
     ray_direction := {| x := 0; y := 0; z := -1 |} |}.

(** C1 at its own input.  In the world of exactly one unit-scale sphere of
    radius 1 at (0,1,0), the ray from (0,1,6) toward (0,0,-1) with the
    default 64 steps is a miss: the origin lies in grid cell (0,0,3), which
    no bounding box reaches, so the first sample has no candidate, its
    distance is [Infinity], and the accumulated distance passes the maximum
    at once. *)
Theorem raymarch_lone_sphere_misses (math : Js.MathLib) (name : string) (m : Material) :
  SpatialGrid.getCandidates (World.grid (World.loneSphere name m)) (origin testRay) = [] /\
  World.distance (World.sample math (World.loneSphere name m) (origin testRay)) = infinity /\
  raymarch math testRay (World.loneSphere name m) DEFAULT_MAX_STEPS = MissResult.
Proof.
  repeat split; vm_compute; reflexivity.
Qed.

(** The scene of the repository's tracer test has a ground plane besides the
    sphere.  The plane is a candidate everywhere, the ray advances by its
    distance 1 per step, and the fifth step enters a cell of the sphere:
    the hit is at (0,1,1), with normal (0,0,1), after distance 5. *)
Definition groundPlane (m : Material) : Entity :=
  {| id := "ground";
     transform := {| position := {| x := 0; y := 0; z := 0 |};
                     rotation := {| x := 0; y := 0; z := 0 |};
                     scale := {| x := 1; y := 1; z := 1 |} |};
     geometry := Plane {| x := 0; y := 1; z := 0 |};
     material := m;
     velocity := None;
     angularVelocity := None |}.

Definition sphereOnGround (m g : Material) : World.t :=
  World.new [World.unitSphereAt {| x := 0; y := 1; z := 0 |} "sphere_1" m;
             groundPlane g].

Lemma raymarch_sphere_on_ground (math : Js.MathLib) (m g : Material) :
  Js.exactAtZero math ->
  raymarch math testRay (sphereOnGround m g) DEFAULT_MAX_STEPS
  = HitResult {| x := 0; y := 1; z := 1 |} {| x := 0; y := 0; z := 1 |} m 5 0.
Proof.
  intros Hm. unfold raymarch.
  rewrite (march_unrotated math) by (try assumption; repeat constructor).
  vm_compute. reflexivity.
Qed.

(** ** What a hit tells *)

Lemma march_hit math entities ray : forall steps t pos n m d idx,
  (MAX_DISTANCE <? t) = false ->
  march math steps ray (World.new entities) t = HitResult pos n m d idx ->
  pos = vec3.add (origin ray) (vec3.mul (ray_direction ray) d) /\
  (World.distance (World.sample math (World.new entities) pos) <? HIT_THRESHOLD) = true /\
  n = computeNormal math pos (World.new entities) /\
  (MAX_DISTANCE <? d) = false /\
  exists i e, idx = Z.of_nat i /\ entities !! i = Some e /\ m = material e.
Proof.
  induction steps as [|steps IH]; intros t pos n m d idx Ht H; [discriminate|].
  cbn [march] in H.
  set (p := vec3.add (origin ray) (vec3.mul (ray_direction ray) t)) in *.
  destruct (World.distance (World.sample math (World.new entities) p) <? HIT_THRESHOLD)
    eqn:Hhit.
  - injection H as <- <- <- <- <-. repeat split; try assumption.
    destruct (World.sample_closestOf math (World.new entities) p) as [Hwho _].
    destruct Hwho as [Hn|(i & e & _ & Ei & Hf & _)].
    + rewrite Hn in Hhit. cbn [World.distance World.nothing] in Hhit.
      rewrite FloatOrder.infinity_ltb in Hhit. discriminate.
    + exists i, e. rewrite Hf. repeat split. exact Ei.
  - destruct (MAX_DISTANCE <? t + World.distance (World.sample math (World.new entities) p))
      eqn:Hfar; [discriminate|].
    apply (IH _ _ _ _ _ _ Hfar H).
Qed.

(** X5.  Every hit that [raymarch] reports in a world as the constructor builds
    it lies on the ray at the reported distance, at a point where the
    sampled distance is below the hit threshold; the distance does not
    exceed the maximum; and the index names an entity of the world, whose
    material is the reported one (never the sentinel -1 of the sampler). *)
Theorem raymarch_hit_sound (math : Js.MathLib) (entities : list Entity) (ray : Ray)
    (maxSteps : nat) (pos n : Vec3) (m : Material) (d : float) (idx : Z) :
  raymarch math ray (World.new entities) maxSteps = HitResult pos n m d idx ->
  pos = vec3.add (origin ray) (vec3.mul (ray_direction ray) d) /\
  (World.distance (World.sample math (World.new entities) pos) <? HIT_THRESHOLD) = true /\
  n = computeNormal math pos (World.new entities) /\
  (MAX_DISTANCE <? d) = false /\
  exists i e, idx = Z.of_nat i /\ entities !! i = Some e /\ m = material e.
Proof.
  unfold raymarch. apply march_hit. vm_compute. reflexivity.
Qed.

Lemma raymarch_hit_sound_witness :
  raymarch World.zeroMath testRay
    (World.new [World.unitSphereAt {| x := 0; y := 1; z := 0 |} "sphere_1" World.EMPTY_MATERIAL;
                groundPlane World.EMPTY_MATERIAL]) DEFAULT_MAX_STEPS
  = HitResult {| x := 0; y := 1; z := 1 |} {| x := 0; y := 0; z := 1 |}
              World.EMPTY_MATERIAL 5 0 /\
  (MAX_DISTANCE <? 5) = false.
Proof.
  assert (H : raymarch World.zeroMath testRay
    (World.new [World.unitSphereAt {| x := 0; y := 1; z := 0 |} "sphere_1" World.EMPTY_MATERIAL;
                groundPlane World.EMPTY_MATERIAL]) DEFAULT_MAX_STEPS
  = HitResult {| x := 0; y := 1; z := 1 |} {| x := 0; y := 0; z := 1 |}
              World.EMPTY_MATERIAL 5 0) by (vm_compute; reflexivity).
  split; [exact H|].
  exact (proj1 (proj2 (proj2 (proj2 (raymarch_hit_sound _ _ _ _ _ _ _ _ _ H))))).
Defined.

(** X6.  A ray whose first sample point has no candidate in the grid is a miss,
    for every direction and every number of steps: the sampled distance is
    [Infinity], which is no hit and takes the accumulated distance past the
    maximum at once. *)
Theorem raymarch_no_candidates (math : Js.MathLib) (world : World.t) (ray : Ray)
    (maxSteps : nat) :
  SpatialGrid.getCandidates (World.grid world)
    (vec3.add (origin ray) (vec3.mul (ray_direction ray) 0)) = [] ->
  raymarch math ray world maxSteps = MissResult.
Proof.
  intros Hnone. unfold raymarch. destruct maxSteps as [|steps]; [reflexivity|].
  cbn [march]. unfold World.sample. rewrite Hnone. cbn [foldl World.distance].
  replace (infinity <? HIT_THRESHOLD) with false by (vm_compute; reflexivity).
  replace (MAX_DISTANCE <? 0 + infinity) with true by (vm_compute; reflexivity).
  reflexivity.
Qed.

Lemma raymarch_no_candidates_witness :
  raymarch World.zeroMath testRay (World.new []) 3 = MissResult.
Proof.
  apply (raymarch_no_candidates World.zeroMath (World.new []) testRay 3).
  vm_compute. reflexivity.
Defined.

End Raymarch.

(** * GlyphDB (src/glyph/GlyphDB.ts)

    The SQLite read and the JSON parse of the constructor are outside the
    model: it starts from the array [parsed] that the constructor builds
    from them.  Features are binary64 numbers; [JSON.parse] yields
    [Infinity] for a literal such as [1e999]. *)
Module GlyphDB.
Local Open Scope float_scope.

(** The raw features of a record ([Omit<GlyphRecord, normalized...>]). *)
Record ParsedGlyph := mkParsed {
  p_codePoint : Z;
  p_char : string;
  p_coverage : float;
  p_roundness : float;
  p_complexity : float;
  p_symmetryH : float;
  p_symmetryV : float;
  p_connectedComponents : float;
  p_aspectRatio : float;
  p_strokeWidthMedian : float;
  p_strokeWidthVariance : float;
  p_endpointCount : float;
  p_junctionCount : float;
  p_eulerNumber : float
}.

Record GlyphRecord := mkGlyph {
  raw : ParsedGlyph;
  normalizedCoverage : float;
  normalizedComplexity : float;
  normalizedConnectedComponents : float
}.

Definition roundness (g : GlyphRecord) : float := p_roundness (raw g).
Definition symmetryH (g : GlyphRecord) : float := p_symmetryH (raw g).

Record GlyphQueryParams := mkParams {
  targetCoverage : float;
  targetRoundness : option float;
  targetComplexity : option float;
  glyphStyle : option Types.GlyphStyle
}.

(** [Math.min(...values)] and [Math.max(...values)]: [Infinity] and
    [-Infinity] for no argument, NaN as soon as one argument is NaN. *)
Definition minOf (values : list float) : float :=
  fold_left Js.Math_min values infinity.

Definition maxOf (values : list float) : float :=
  fold_left Js.Math_max values neg_infinity.

(** [normalize(values)] *)
Definition normalize (values : list float) : list float :=
  let min := minOf values in
  let max := maxOf values in
  let range := max - min in
  if range =? 0 then map (fun _ => 0) values
  else map (fun v => (v - min) / range) values.

(** The comparator of the sort, [(a, b) => a.normalizedCoverage -
    b.normalizedCoverage]. *)
Definition comparator (a b : GlyphRecord) : float :=
  normalizedCoverage a - normalizedCoverage b.

(** [Array.prototype.sort] with this comparator.  The sort is stable, and
    a comparator result that is NaN counts as 0: a record goes after the
    records that the comparator puts strictly before it (negative result)
    and before the others.  Where the comparator is consistent this is the
    one order that ECMAScript allows; where it is not (some, not all, of the
    differences are NaN) ECMAScript leaves the order to the implementation,
    and what depends on the order carries a hypothesis on it. *)
Fixpoint insertByCoverage (g : GlyphRecord) (sorted : list GlyphRecord) : list GlyphRecord :=
  match sorted with
  | [] => [g]
  | h :: rest =>
      if comparator h g <? 0
      then h :: insertByCoverage g rest
      else g :: h :: rest
  end.

Definition sortByCoverage (l : list GlyphRecord) : list GlyphRecord :=
  foldr insertByCoverage [] l.

(** The constructor, from the parsed rows on.  [normCoverages[i]] reads
    [undefined] past the end of the array; it is given as NaN, which every
    use of a normalised feature (differences, comparisons, products)
    treats alike. *)
Definition load (parsed : list ParsedGlyph) : list GlyphRecord :=
  let coverages := map p_coverage parsed in
  let complexities := map p_complexity parsed in
  let components := map p_connectedComponents parsed in
  let normCoverages := normalize coverages in
  let normComplexities := normalize complexities in
  let normComponents := normalize components in
  let glyphs :=
    imap (fun i g =>
            {| raw := g;
               normalizedCoverage := nth i normCoverages nan;
               normalizedComplexity := nth i normComplexities nan;
               normalizedConnectedComponents := nth i normComponents nan |})
         parsed in
  sortByCoverage glyphs.

(** The binary search of [queryBest]; [None] when the fuel runs out or an
    index leaves the array, neither of which happens (see [bsearch_total]). *)
Fixpoint bsearch (fuel : nat) (glyphs : list GlyphRecord) (lo : float)
    (left_ right_ : nat) : option nat :=
  if (left_ <? right_)%nat then
    match fuel with
    | O => None
    | S fuel' =>
        let mid := Nat.div2 (left_ + right_) in
        match glyphs !! mid with
        | None => None
        | Some g =>
            if normalizedCoverage g <? lo
            then bsearch fuel' glyphs lo (mid + 1) right_
            else bsearch fuel' glyphs lo left_ mid
        end
    end
  else Some left_.

(** [while (endIdx < length && glyphs[endIdx].normalizedCoverage <= hi) endIdx++],
    run on the part of the array from [endIdx] on. *)
Fixpoint scan (rest : list GlyphRecord) (hi : float) (endIdx : nat) : nat :=
  match rest with
  | [] => endIdx
  | g :: rest' =>
      if normalizedCoverage g <=? hi then scan rest' hi (S endIdx)
      else endIdx
  end.

(** The body of the scoring loop. *)
Definition score (params : GlyphQueryParams) (glyph : GlyphRecord) : float :=
  let score := 0 in
  let score := score + 4.0 * abs (normalizedCoverage glyph - targetCoverage params) in
  let score :=
    match targetRoundness params with
    | Some r => score + 1.0 * abs (roundness glyph - r)
    | None => score
    end in
  let score :=
    match targetComplexity params with
    | Some c => score + 1.0 * abs (normalizedComplexity glyph - c)
    | None => score
    end in
  match glyphStyle params with
  | Some Types.dense => score + 1.5 * (1 - normalizedCoverage glyph)
  | Some Types.light => score + 1.5 * normalizedCoverage glyph
  | Some Types.round => score + 1.5 * (1 - roundness glyph)
  | Some Types.angular => score + 1.5 * roundness glyph
  | Some Types.line => score + 1.5 * normalizedConnectedComponents glyph
  | Some Types.noise => score + 1.5 * (1 - normalizedComplexity glyph)
  | Some Types.block => score + 1.5 * (1 - symmetryH glyph)
  | Some Types.symbolic => score
  | None => score
  end.

(** One turn of the scoring loop on the pair [(bestScore, best)]. *)
Definition better (params : GlyphQueryParams) (acc : float * GlyphRecord)
    (glyph : GlyphRecord) : float * GlyphRecord :=
  let s := score params glyph in
  if s <? fst acc then (s, glyph) else acc.

(** The scoring loop, from [bestScore = Infinity] and [best = best0]. *)
Definition pickBest (params : GlyphQueryParams) (candidates : list GlyphRecord)
    (best0 : GlyphRecord) : GlyphRecord :=
  snd (fold_left (better params) candidates (infinity, best0)).

(** [queryBest(params)]; [None] stands for the [TypeError] that the loop
    raises on the empty array, where the only candidate is [undefined]. *)
Definition queryBest (glyphs : list GlyphRecord) (params : GlyphQueryParams)
    : option GlyphRecord :=
  match glyphs with
  | [] => None
  | _ =>
      let lo := targetCoverage params - 0.1 in
      let hi := targetCoverage params + 0.1 in
      match bsearch (length glyphs) glyphs lo 0 (length glyphs - 1) with
      | None => None
      | Some left_ =>
          let startIdx := left_ in
          let endIdx := scan (drop startIdx glyphs) hi startIdx in
          let candidates :=
            if (startIdx <? endIdx)%nat
            then take (endIdx - startIdx) (drop startIdx glyphs)
            else match glyphs !! (Nat.min (Nat.max left_ 0) (length glyphs - 1)) with
                 | Some g => [g]
                 | None => []
                 end in
          match candidates with
          | [] => None
          | c0 :: _ => Some (pickBest params candidates c0)
          end
      end
  end.

(** ** Properties of loading *)

Lemma elem_of_insertByCoverage g x l :
  x ∈ insertByCoverage g l <-> x = g \/ x ∈ l.
Proof.
  induction l as [|h l IH]; cbn [insertByCoverage].
  - rewrite list_elem_of_singleton, elem_of_nil. tauto.
  - destruct (comparator h g <? 0).
    + rewrite !elem_of_cons, IH. tauto.
    + rewrite !elem_of_cons. tauto.
Qed.

Lemma elem_of_sortByCoverage x l : x ∈ sortByCoverage l <-> x ∈ l.
Proof.
  induction l as [|h l IH]; [reflexivity|].
  change (sortByCoverage (h :: l)) with (insertByCoverage h (sortByCoverage l)).
  rewrite elem_of_insertByCoverage, IH, elem_of_cons. tauto.
Qed.

Lemma length_insertByCoverage g l : length (insertByCoverage g l) = S (length l).
Proof.
  induction l as [|h l IH]; cbn [insertByCoverage]; [reflexivity|].
  destruct (comparator h g <? 0); cbn; [rewrite IH|]; reflexivity.
Qed.

Lemma length_sortByCoverage l : length (sortByCoverage l) = length l.
Proof.
  induction l as [|h l IH]; [reflexivity|].
  change (sortByCoverage (h :: l)) with (insertByCoverage h (sortByCoverage l)).
  rewrite length_insertByCoverage, IH. reflexivity.
Qed.

Lemma length_load parsed : length (load parsed) = length parsed.
Proof.
  unfold load. rewrite length_sortByCoverage, length_imap. reflexivity.
Qed.

Lemma elem_of_load r parsed :
  r ∈ load parsed ->
  exists i g, parsed !! i = Some g /\ raw r = g /\
    normalizedCoverage r = nth i (normalize (map p_coverage parsed)) nan /\
    normalizedComplexity r = nth i (normalize (map p_complexity parsed)) nan /\
    normalizedConnectedComponents r
      = nth i (normalize (map p_connectedComponents parsed)) nan.
Proof.
  unfold load. rewrite elem_of_sortByCoverage.
  intros H. apply elem_of_lookup_imap_1 in H as (i & g & -> & Hg).
  exists i, g. cbn. auto.
Qed.

(** ** The search terminates and [queryBest] returns a loaded record *)

Lemma bsearch_total fuel glyphs lo : forall left_ right_,
  (right_ < length glyphs)%nat -> (right_ - left_ <= fuel)%nat ->
  exists res, bsearch fuel glyphs lo left_ right_ = Some res /\
    (left_ <= res)%nat /\ (left_ <= right_ -> res <= right_)%nat.
Proof.
  induction fuel as [|fuel IH]; intros l r Hr Hfuel.
  - cbn [bsearch]. destruct (Nat.ltb_spec l r); [lia|]. exists l. split; [reflexivity|lia].
  - cbn [bsearch]. destruct (Nat.ltb_spec l r) as [Hlt|Hge].
    + pose proof (Nat.div2_div (l + r)) as Hmid.
      assert (Hm : (l <= Nat.div2 (l + r) < r)%nat).
      { pose proof (Nat.div_mod_eq (l + r) 2).
        pose proof (Nat.mod_upper_bound (l + r) 2). lia. }
      destruct (lookup_lt_is_Some_2 glyphs (Nat.div2 (l + r))) as [g Hg]; [lia|].
      rewrite Hg. destruct (normalizedCoverage g <? lo).
      * destruct (IH (Nat.div2 (l + r) + 1)%nat r Hr) as (res & E & H1 & H2); [lia|].
        exists res. split; [exact E|]. lia.
      * destruct (IH l (Nat.div2 (l + r))) as (res & E & H1 & H2); [lia|lia|].
        exists res. split; [exact E|]. lia.
    + exists l. split; [reflexivity|lia].
Qed.

Lemma scan_bounds rest hi : forall endIdx,
  (endIdx <= scan rest hi endIdx <= endIdx + length rest)%nat.
Proof.
  induction rest as [|g rest IH]; intros e; cbn; [lia|].
  destruct (normalizedCoverage g <=? hi); [|lia]. specialize (IH (S e)). lia.
Qed.

Lemma better_elem params candidates : forall acc,
  snd (fold_left (better params) candidates acc) ∈ snd acc :: candidates.
Proof.
  induction candidates as [|c cs IH]; intros acc; cbn [fold_left].
  - apply list_elem_of_here.
  - specialize (IH (better params acc c)).
    assert (H : snd (better params acc c) = snd acc \/ snd (better params acc c) = c).
    { unfold better. destruct (_ <? _); cbn; auto. }
    rewrite !elem_of_cons in *. destruct IH as [E|IH]; [|auto].
    rewrite E. destruct H as [-> | ->]; auto.
Qed.

Lemma pickBest_elem params candidates best0 :
  pickBest params candidates best0 ∈ best0 :: candidates.
Proof. apply (better_elem params candidates (infinity, best0)). Qed.

Lemma pickBest_single params g : pickBest params [g] g = g.
Proof.
  pose proof (pickBest_elem params [g] g) as H.
  rewrite !elem_of_cons, elem_of_nil in H. tauto.
Qed.

Lemma queryBest_total glyphs params :
  glyphs <> [] -> exists g, queryBest glyphs params = Some g /\ g ∈ glyphs.
Proof.
  intros Hne. unfold queryBest.
  destruct glyphs as [|g0 gs] eqn:Eg; [contradiction|]. rewrite <- Eg.
  assert (Hlen : (0 < length glyphs)%nat) by (subst; cbn; lia).
  clear Eg Hne g0 gs.
  destruct (bsearch_total (length glyphs) glyphs (targetCoverage params - 0.1)
              0%nat (length glyphs - 1)%nat) as (l & -> & _ & Hl); [lia|lia|].
  specialize (Hl ltac:(lia)).
  pose proof (scan_bounds (drop l glyphs) (targetCoverage params + 0.1) l) as Hs.
  set (e := scan (drop l glyphs) (targetCoverage params + 0.1) l) in *.
  destruct (Nat.ltb_spec l e) as [Hlt|Hge].
  - destruct (take (e - l) (drop l glyphs)) as [|c0 cs] eqn:Ec.
    + exfalso. apply (f_equal length) in Ec. rewrite length_take in Ec.
      cbn in Ec. lia.
    + eexists. split; [reflexivity|].
      assert (Hsub : forall x, x ∈ c0 :: cs -> x ∈ glyphs).
      { intros x Hx. rewrite <- Ec in Hx.
        apply (subseteq_drop l glyphs), (subseteq_take (e - l)). exact Hx. }
      apply Hsub. pose proof (pickBest_elem params (c0 :: cs) c0) as H.
      rewrite elem_of_cons in H. destruct H as [->|H]; [left|exact H].
  - replace (Nat.max l 0) with l by lia.
    destruct (lookup_lt_is_Some_2 glyphs (Nat.min l (length glyphs - 1))) as [g Hg]; [lia|].
    rewrite Hg. eexists. split; [reflexivity|].
    rewrite pickBest_single. eapply list_elem_of_lookup_2, Hg.
Qed.

(** ** Min-max normalisation of a constant feature *)

(** A finite number is a zero or has a mantissa and an exponent. *)
Lemma finite_cases (v : float) :
  is_finite v = true ->
  (exists s, Prim2SF v = S754_zero s) \/ (exists s m e, Prim2SF v = S754_finite s m e).
Proof.
  unfold is_finite, is_nan, is_infinity.
  rewrite !FloatAxioms.eqb_spec, abs_spec. unfold SFeqb.
  change (Prim2SF infinity) with (S754_infinity false).
  destruct (Prim2SF v) as [s|s| |s m e]; cbn; try discriminate; eauto.
  destruct s; discriminate.
Qed.

Lemma finite_compare_refl (v : float) :
  is_finite v = true -> SFcompare (Prim2SF v) (Prim2SF v) = Some Eq.
Proof.
  intros H. destruct (finite_cases v H) as [[s ->]|(s & m & e & ->)]; [reflexivity|].
  cbn. rewrite Z.compare_refl. fold (Pos.compare m m). rewrite Pos.compare_refl.
  destruct s; reflexivity.
Qed.

Lemma finite_not_nan (v : float) : is_finite v = true -> is_nan v = false.
Proof.
  intros H. unfold is_nan. rewrite FloatAxioms.eqb_spec. unfold SFeqb.
  rewrite (finite_compare_refl v H). reflexivity.
Qed.

Lemma Math_min_same (v : float) : is_finite v = true -> Js.Math_min v v = v.
Proof.
  intros H. unfold Js.Math_min.
  rewrite (finite_not_nan v H), FloatOrder.ltb_irrefl. cbn [orb].
  destruct (get_sign v); reflexivity.
Qed.

Lemma Math_max_same (v : float) : is_finite v = true -> Js.Math_max v v = v.
Proof.
  intros H. unfold Js.Math_max.
  rewrite (finite_not_nan v H), FloatOrder.ltb_irrefl. cbn [orb].
  destruct (get_sign v); reflexivity.
Qed.

Lemma Math_min_infinity (v : float) : is_finite v = true -> Js.Math_min infinity v = v.
Proof.
  intros H. unfold Js.Math_min.
  rewrite (finite_not_nan v H), FloatOrder.infinity_ltb.
  replace (is_nan infinity) with false by reflexivity. cbn [orb].
  replace (v <? infinity) with true; [reflexivity|].
  rewrite ltb_spec. unfold SFltb. change (Prim2SF infinity) with (S754_infinity false).
  destruct (finite_cases v H) as [[s ->]|(s & m & e & ->)]; reflexivity.
Qed.

Lemma Math_max_neg_infinity (v : float) :
  is_finite v = true -> Js.Math_max neg_infinity v = v.
Proof.
  intros H. unfold Js.Math_max.
  rewrite (finite_not_nan v H).
  replace (is_nan neg_infinity) with false by reflexivity. cbn [orb].
  replace (neg_infinity <? v) with true; [reflexivity|].
  rewrite ltb_spec. unfold SFltb.
  change (Prim2SF neg_infinity) with (S754_infinity true).
  destruct (finite_cases v H) as [[s ->]|(s & m & e & ->)]; reflexivity.
Qed.

(** The difference of a finite number with itself is a zero. *)
Lemma finite_sub_same (v : float) : is_finite v = true -> (v - v =? 0) = true.
Proof.
  intros H. rewrite FloatAxioms.eqb_spec, sub_spec. unfold SFeqb.
  change (Prim2SF 0) with (S754_zero false).
  destruct (finite_cases v H) as [[s ->]|(s & m & e & ->)].
  - destruct s; reflexivity.
  - unfold SF64sub, SFsub. cbv zeta. rewrite Z.sub_diag. reflexivity.
Qed.

Lemma fold_min_same (v : float) values : forall acc,
  is_finite v = true -> Forall (fun y => y = v) values ->
  acc = v -> fold_left Js.Math_min values acc = v.
Proof.
  induction values as [|y ys IH]; intros acc Hv Hall Hacc; [exact Hacc|].
  inversion Hall as [|? ? Hy Hys]; subst. cbn [fold_left].
  apply IH; [exact Hv|exact Hys|apply Math_min_same, Hv].
Qed.

Lemma fold_max_same (v : float) values : forall acc,
  is_finite v = true -> Forall (fun y => y = v) values ->
  acc = v -> fold_left Js.Math_max values acc = v.
Proof.
  induction values as [|y ys IH]; intros acc Hv Hall Hacc; [exact Hacc|].
  inversion Hall as [|? ? Hy Hys]; subst. cbn [fold_left].
  apply IH; [exact Hv|exact Hys|apply Math_max_same, Hv].
Qed.

Lemma normalize_const (v : float) values :
  is_finite v = true -> Forall (fun y => y = v) values ->
  normalize values = map (fun _ => 0) values.
Proof.
  intros Hv Hall. destruct values as [|y ys]; [reflexivity|].
  inversion Hall as [|? ? Hy Hys]; subst. unfold normalize, minOf, maxOf.
  cbn [fold_left].
  rewrite (fold_min_same v ys _ Hv Hys (Math_min_infinity v Hv)).
  rewrite (fold_max_same v ys _ Hv Hys (Math_max_neg_infinity v Hv)).
  rewrite (finite_sub_same v Hv). reflexivity.
Qed.

Lemma nth_zeros {A} (l : list A) i :
  (i < length l)%nat -> nth i (map (fun _ => 0) l) nan = 0.
Proof.
  revert i. induction l as [|a l IH]; intros [|i] Hi; cbn in *; try lia; auto.
  apply IH. lia.
Qed.

Definition plainGlyph (cp : Z) (coverage complexity symH : float) : ParsedGlyph :=
  {| p_codePoint := cp; p_char := "#";
     p_coverage := coverage; p_roundness := 0.5; p_complexity := complexity;
     p_symmetryH := symH; p_symmetryV := 0; p_connectedComponents := 1;
     p_aspectRatio := 1; p_strokeWidthMedian := 0; p_strokeWidthVariance := 0;
     p_endpointCount := 0; p_junctionCount := 0; p_eulerNumber := 0 |}.

(** C10, as stated, fails for a value that is not finite.  Two rows whose
    coverage is [Infinity] (the value of the JSON literal [1e999]): minimum
    and maximum are [Infinity], the range [Infinity - Infinity] is NaN,
    which is not [=== 0], and every record gets the normalised coverage
    [(Infinity - Infinity) / NaN], that is NaN, not 0. *)
Lemma normalize_infinite_counterexample :
  let parsed := [plainGlyph 35 infinity 3 1; plainGlyph 64 infinity 7 0] in
  Forall (fun g => p_coverage g = infinity) parsed /\
  normalize (map p_coverage parsed) = [nan; nan] /\
  map normalizedCoverage (load parsed) = [nan; nan] /\
  (nan =? 0) = false.
Proof.
  cbv zeta. split; [repeat constructor|]. repeat split; vm_compute; reflexivity.
Qed.

(** C10, amended.  When every parsed record carries one and the same
    finite raw coverage (respectively complexity, connected-component
    count), every record of the loaded set has normalised coverage
    (respectively complexity, connected components) 0; the loaded set has
    as many records as were parsed. *)
Theorem normalize_constant_feature (parsed : list ParsedGlyph) (v : float) :
  parsed <> [] -> is_finite v = true ->
  length (load parsed) = length parsed /\
  ((forall g, g ∈ parsed -> p_coverage g = v) ->
   forall r, r ∈ load parsed -> normalizedCoverage r = 0) /\
  ((forall g, g ∈ parsed -> p_complexity g = v) ->
   forall r, r ∈ load parsed -> normalizedComplexity r = 0) /\
  ((forall g, g ∈ parsed -> p_connectedComponents g = v) ->
   forall r, r ∈ load parsed -> normalizedConnectedComponents r = 0).
Proof.
  intros _ Hv. split; [apply length_load|].
  assert (Hconst : forall f : ParsedGlyph -> float,
             (forall g, g ∈ parsed -> f g = v) ->
             forall i, (i < length parsed)%nat ->
               nth i (normalize (map f parsed)) nan = 0).
  { intros f Hf i Hi. rewrite (normalize_const v).
    - apply nth_zeros. rewrite length_map. exact Hi.
    - exact Hv.
    - apply Forall_forall. intros y Hy.
      apply list_elem_of_In, in_map_iff in Hy as (g & <- & Hg).
      apply Hf, list_elem_of_In, Hg. }
  repeat split; intros Hall r Hr;
    apply elem_of_load in Hr as (i & g & Hi & _ & E1 & E2 & E3);
    apply lookup_lt_Some in Hi.
  - rewrite E1. apply (Hconst _ Hall i Hi).
  - rewrite E2. apply (Hconst _ Hall i Hi).
  - rewrite E3. apply (Hconst _ Hall i Hi).
Qed.

Lemma normalize_constant_feature_witness :
  [plainGlyph 35 0.4 3 1; plainGlyph 64 0.4 7 0] <> [] /\
  is_finite 0.4 = true /\
  Forall (fun r => normalizedCoverage r = 0)
         (load [plainGlyph 35 0.4 3 1; plainGlyph 64 0.4 7 0]).
Proof.
  split; [discriminate|]. split; [reflexivity|].
  apply Forall_forall.
  apply (normalize_constant_feature
           [plainGlyph 35 0.4 3 1; plainGlyph 64 0.4 7 0] 0.4).
  - discriminate.
  - reflexivity.
  - intros g Hg. rewrite !elem_of_cons, elem_of_nil in Hg.
    destruct Hg as [->|[->|[]]]; reflexivity.
Defined.

(** ** The style bias *)

(** The score without its style term. *)
Definition baseScore (params : GlyphQueryParams) (glyph : GlyphRecord) : float :=
  score {| targetCoverage := targetCoverage params;
           targetRoundness := targetRoundness params;
           targetComplexity := targetComplexity params;
           glyphStyle := None |} glyph.

Lemma score_noise params glyph :
  glyphStyle params = Some Types.noise ->
  score params glyph = baseScore params glyph + 1.5 * (1 - normalizedComplexity glyph).
Proof. unfold score, baseScore. cbn. intros ->. reflexivity. Qed.

Lemma score_block params glyph :
  glyphStyle params = Some Types.block ->
  score params glyph = baseScore params glyph + 1.5 * (1 - symmetryH glyph).
Proof. unfold score, baseScore. cbn. intros ->. reflexivity. Qed.

Definition lowGlyph : GlyphRecord :=
  {| raw := plainGlyph 46 0.5 0 0; normalizedCoverage := 0.5;
     normalizedComplexity := 0; normalizedConnectedComponents := 0 |}.
Definition highGlyph : GlyphRecord :=
  {| raw := plainGlyph 37 0.5 1 1; normalizedCoverage := 0.5;
     normalizedComplexity := 1; normalizedConnectedComponents := 0 |}.
Definition styled (s : Types.GlyphStyle) : GlyphQueryParams :=
  {| targetCoverage := 0.5; targetRoundness := None;
     targetComplexity := None; glyphStyle := Some s |}.

(** C2, as stated, fails: two records that agree on every other score term,
    the first with the lower normalised complexity and the lower horizontal
    symmetry; under [noise] and under [block] the first one gets the higher
    score (1.5 against 0), and [queryBest] returns the second. *)
Lemma style_bias_counterexample :
  baseScore (styled Types.noise) lowGlyph = baseScore (styled Types.noise) highGlyph /\
  (normalizedComplexity lowGlyph <? normalizedComplexity highGlyph) = true /\
  (symmetryH lowGlyph <? symmetryH highGlyph) = true /\
  score (styled Types.noise) lowGlyph = 1.5 /\
  score (styled Types.noise) highGlyph = 0 /\
  score (styled Types.block) lowGlyph = 1.5 /\
  score (styled Types.block) highGlyph = 0 /\
  (score (styled Types.noise) lowGlyph <? score (styled Types.noise) highGlyph) = false /\
  (score (styled Types.block) lowGlyph <? score (styled Types.block) highGlyph) = false /\
  queryBest [lowGlyph; highGlyph] (styled Types.noise) = Some highGlyph /\
  queryBest [lowGlyph; highGlyph] (styled Types.block) = Some highGlyph.
Proof.
  repeat split; vm_compute; reflexivity.
Qed.

(** Scores are rounded: under [noise], the normalised complexities 0.1 and
    the next number above it get one and the same bias, so that no strict
    preference between such records can be read off the scores. *)
Lemma style_bias_rounds :
  (0.1 <? 0.10000000000000002) = true /\
  1.5 * (1 - 0.1) = 1.5 * (1 - 0.10000000000000002).
Proof. split; vm_compute; reflexivity. Qed.

(** ** The direction of the bias *)

Lemma unit_finite (f : float) :
  (0 <=? f) = true -> (f <=? 1) = true -> FloatRound.finite f.
Proof.
  intros H0 H1. apply (FloatRound.between_finite 0 f 1); try assumption;
    apply FloatRound.finite_is_finite; reflexivity.
Qed.

(** The bias [1.5 * (1 - f)] does not grow with the feature [f] in [0, 1],
    and neither does the sum of a finite score and the bias. *)
Lemma bias_antitone (base f1 f2 : float) :
  is_finite base = true ->
  (0 <=? f1) = true -> (f1 <=? f2) = true -> (f2 <=? 1) = true ->
  (base + 1.5 * (1 - f2) <=? base + 1.5 * (1 - f1)) = true.
Proof.
  intros Hb H0 H12 H1.
  assert (F1 : FloatRound.finite 1) by (apply FloatRound.finite_is_finite; reflexivity).
  assert (F0 : FloatRound.finite 0) by (apply FloatRound.finite_is_finite; reflexivity).
  assert (F15 : FloatRound.finite 1.5) by (apply FloatRound.finite_is_finite; reflexivity).
  assert (Fb : FloatRound.finite base) by (apply FloatRound.finite_is_finite, Hb).
  assert (Hf1 : (f1 <=? 1) = true) by (apply (FloatOrder.leb_trans _ f2); assumption).
  assert (Hf2 : (0 <=? f2) = true) by (apply (FloatOrder.leb_trans _ f1); assumption).
  pose proof (unit_finite f1 H0 Hf1) as Ff1. pose proof (unit_finite f2 Hf2 H1) as Ff2.
  (* the complements lie in [0, 1] *)
  assert (Hc : forall f, FloatRound.finite f -> (0 <=? f) = true -> (f <=? 1) = true ->
             (0 <=? 1 - f) = true /\ (1 - f <=? 1) = true).
  { intros f Ff Hlo Hhi. split.
    - replace 0 with (1 - 1) at 1 by reflexivity.
      apply FloatRound.sub_mono; auto using FloatRound.leb_refl.
    - replace 1 with (1 - 0) at 2 by reflexivity.
      apply FloatRound.sub_mono; auto using FloatRound.leb_refl. }
  destruct (Hc f1 Ff1 H0 Hf1) as [A1 B1]. destruct (Hc f2 Ff2 Hf2 H1) as [A2 B2].
  pose proof (unit_finite _ A1 B1) as Fc1. pose proof (unit_finite _ A2 B2) as Fc2.
  assert (Hsub : (1 - f2 <=? 1 - f1) = true).
  { apply FloatRound.sub_mono; auto using FloatRound.leb_refl. }
  (* the biases lie in [0, 1.5] *)
  assert (Hm : forall c, FloatRound.finite c -> (0 <=? c) = true -> (c <=? 1) = true ->
             FloatRound.finite (1.5 * c)).
  { intros c Fc Hlo Hhi. apply (FloatRound.between_finite 0 (1.5 * c) 1.5); try assumption.
    - replace 0 with (1.5 * 0) at 1 by reflexivity.
      apply FloatRound.mul_mono; auto.
    - replace 1.5 with (1.5 * 1) at 2 by reflexivity.
      apply FloatRound.mul_mono; auto. }
  apply FloatRound.add_mono; auto using FloatRound.leb_refl.
  apply FloatRound.mul_mono; auto.
Qed.

(** C2, amended.  Style [noise] adds the bias 1.5 * (1 - normalised
    complexity) and style [block] the bias 1.5 * (1 - horizontal symmetry),
    in binary64 arithmetic, to the sum of the other score terms.  For two
    records that agree on that sum: they score the same when they agree on
    the feature; when one has the feature value 1 and the other 0, the
    first scores the sum plus 0 and the second the sum plus 1.5; and when
    the sum is finite and the features lie in [0, 1], the record with the
    higher feature never scores more.  The bias works for the higher
    normalised complexity, respectively the higher horizontal symmetry. *)
Theorem style_bias_noise_block (params : GlyphQueryParams) (g1 g2 : GlyphRecord) :
  baseScore params g1 = baseScore params g2 ->
  (glyphStyle params = Some Types.noise ->
     score params g1 = baseScore params g1 + 1.5 * (1 - normalizedComplexity g1) /\
     score params g2 = baseScore params g1 + 1.5 * (1 - normalizedComplexity g2) /\
     (normalizedComplexity g1 = normalizedComplexity g2 ->
        score params g1 = score params g2) /\
     (normalizedComplexity g1 = 0 -> normalizedComplexity g2 = 1 ->
        score params g1 = baseScore params g1 + 1.5 /\
        score params g2 = baseScore params g1 + 0) /\
     (is_finite (baseScore params g1) = true ->
      (0 <=? normalizedComplexity g1) = true ->
      (normalizedComplexity g1 <=? normalizedComplexity g2) = true ->
      (normalizedComplexity g2 <=? 1) = true ->
        (score params g2 <=? score params g1) = true)) /\
  (glyphStyle params = Some Types.block ->
     score params g1 = baseScore params g1 + 1.5 * (1 - symmetryH g1) /\
     score params g2 = baseScore params g1 + 1.5 * (1 - symmetryH g2) /\
     (symmetryH g1 = symmetryH g2 -> score params g1 = score params g2) /\
     (symmetryH g1 = 0 -> symmetryH g2 = 1 ->
        score params g1 = baseScore params g1 + 1.5 /\
        score params g2 = baseScore params g1 + 0) /\
     (is_finite (baseScore params g1) = true ->
      (0 <=? symmetryH g1) = true ->
      (symmetryH g1 <=? symmetryH g2) = true ->
      (symmetryH g2 <=? 1) = true ->
        (score params g2 <=? score params g1) = true)).
Proof.
  intros Hbase. split; intros Hstyle.
  - rewrite !(score_noise _ _ Hstyle), <- Hbase.
    split; [reflexivity|]. split; [reflexivity|]. split; [|split].
    + intros ->. reflexivity.
    + intros E1 E2. rewrite E1, E2. split; reflexivity.
    + intros Hfin H0 H12 H1. apply bias_antitone; assumption.
  - rewrite !(score_block _ _ Hstyle), <- Hbase.
    split; [reflexivity|]. split; [reflexivity|]. split; [|split].
    + intros ->. reflexivity.
    + intros E1 E2. rewrite E1, E2. split; reflexivity.
    + intros Hfin H0 H12 H1. apply bias_antitone; assumption.
Qed.

Lemma style_bias_noise_block_witness :
  baseScore (styled Types.noise) lowGlyph = baseScore (styled Types.noise) highGlyph /\
  score (styled Types.noise) lowGlyph
  = baseScore (styled Types.noise) lowGlyph + 1.5 /\
  score (styled Types.noise) highGlyph
  = baseScore (styled Types.noise) lowGlyph + 0 /\
  (score (styled Types.noise) highGlyph <=? score (styled Types.noise) lowGlyph) = true.
Proof.
  assert (Hbase : baseScore (styled Types.noise) lowGlyph
                  = baseScore (styled Types.noise) highGlyph) by reflexivity.
  split; [exact Hbase|].
  destruct (proj1 (style_bias_noise_block (styled Types.noise) lowGlyph highGlyph Hbase)
              eq_refl) as (_ & _ & _ & Hends & Hmono).
  destruct (Hends eq_refl eq_refl) as [E1 E2].
  split; [exact E1|]. split; [exact E2|].
  apply Hmono; reflexivity.
Defined.

(** ** The empty coverage window *)

Definition inWindow (params : GlyphQueryParams) (g : GlyphRecord) : Prop :=
  (targetCoverage params - 0.1 <=? normalizedCoverage g) = true /\
  (normalizedCoverage g <=? targetCoverage params + 0.1) = true.

Definition coverageGap (params : GlyphQueryParams) (g : GlyphRecord) : float :=
  abs (normalizedCoverage g - targetCoverage params).

(** A loaded set of two glyphs, of raw coverage 0 and 1. *)
Definition twoGlyphs : list GlyphRecord :=
  load [plainGlyph 46 0 0 0; plainGlyph 64 1 1 1].

Definition coverageOnly (c : float) : GlyphQueryParams :=
  {| targetCoverage := c; targetRoundness := None;
     targetComplexity := None; glyphStyle := None |}.

(** C3 at a failing input.  The loaded set has normalised coverages 0 and 1;
    for target coverage 0.3 no record lies in the window
    [0.19999999999999998, 0.4]; [queryBest] returns the record of coverage
    1, at distance 0.7 from the target, although the record of coverage 0
    is at distance 0.3. *)
Theorem queryBest_fallback_not_nearest :
  map normalizedCoverage twoGlyphs = [0; 1] /\
  (forall g, g ∈ twoGlyphs -> ~ inWindow (coverageOnly 0.3) g) /\
  exists best other,
    queryBest twoGlyphs (coverageOnly 0.3) = Some best /\
    other ∈ twoGlyphs /\
    coverageGap (coverageOnly 0.3) best = 0.7 /\
    coverageGap (coverageOnly 0.3) other = 0.3 /\
    (coverageGap (coverageOnly 0.3) other <? coverageGap (coverageOnly 0.3) best) = true.
Proof.
  split; [vm_compute; reflexivity|]. split.
  - intros g Hg.
    assert (E : twoGlyphs
                = ltac:(let v := eval vm_compute in twoGlyphs in exact v))
      by (vm_compute; reflexivity).
    rewrite E, !elem_of_cons, elem_of_nil in Hg.
    destruct Hg as [->|[->|[]]]; intros [H1 H2]; vm_compute in H1, H2; congruence.
  - eexists _, _. split; [vm_compute; reflexivity|].
    split; [apply list_elem_of_here|].
    repeat split; vm_compute; reflexivity.
Qed.

(** ** What loading keeps *)

Lemma insertByCoverage_Permutation g l : insertByCoverage g l ≡ₚ g :: l.
Proof.
  induction l as [|h l IH]; cbn [insertByCoverage]; [reflexivity|].
  destruct (comparator h g <? 0); [|reflexivity].
  rewrite IH. apply Permutation_swap.
Qed.

Lemma sortByCoverage_Permutation l : sortByCoverage l ≡ₚ l.
Proof.
  induction l as [|h l IH]; [reflexivity|].
  change (sortByCoverage (h :: l)) with (insertByCoverage h (sortByCoverage l)).
  rewrite insertByCoverage_Permutation, IH. reflexivity.
Qed.

(** Ascending order of normalised coverage. *)
Definition byCoverage (a b : GlyphRecord) : Prop :=
  (normalizedCoverage a <=? normalizedCoverage b) = true.

(** The comparator of the sort orders finite coverages as [<] does. *)
Lemma comparator_negative (a b : GlyphRecord) :
  is_finite (normalizedCoverage a) = true -> is_finite (normalizedCoverage b) = true ->
  (comparator a b <? 0) = (normalizedCoverage a <? normalizedCoverage b).
Proof.
  intros Fa Fb. unfold comparator.
  apply FloatRound.sub_negative; apply FloatRound.finite_is_finite; assumption.
Qed.

Lemma finite_total (x y : float) :
  is_finite x = true -> is_finite y = true -> (x <? y) = false -> (y <=? x) = true.
Proof.
  intros Fx Fy H.
  apply FloatRound.finite_is_finite, FloatRound.finite_number in Fx, Fy.
  apply FloatRound.leb_le; [assumption..|].
  destruct (Z.le_gt_cases (FloatRound.ordv (Prim2SF y)) (FloatRound.ordv (Prim2SF x)))
    as [|Hgt]; [assumption|].
  apply FloatRound.ltb_lt in Hgt; [congruence|assumption..].
Qed.

Lemma insertByCoverage_sorted (g : GlyphRecord) (l : list GlyphRecord) :
  is_finite (normalizedCoverage g) = true ->
  Forall (fun h => is_finite (normalizedCoverage h) = true) l ->
  StronglySorted byCoverage l -> StronglySorted byCoverage (insertByCoverage g l).
Proof.
  intros Fg. induction l as [|h l IH]; intros Hfin Hs; cbn [insertByCoverage].
  - repeat constructor.
  - inversion Hfin as [|? ? Fh Hfin']; subst.
    apply StronglySorted_cons in Hs as [Hall Hs].
    rewrite (comparator_negative h g Fh Fg).
    destruct (normalizedCoverage h <? normalizedCoverage g) eqn:Hlt.
    + apply SSorted_cons; [apply IH; assumption|].
      apply Forall_forall. intros x Hx. apply elem_of_insertByCoverage in Hx as [->|Hx].
      * apply FloatOrder.ltb_leb, Hlt.
      * rewrite Forall_forall in Hall. apply Hall, Hx.
    + pose proof (finite_total _ _ Fh Fg Hlt) as Hgh.
      apply SSorted_cons; [apply SSorted_cons; assumption|].
      constructor; [exact Hgh|].
      eapply Forall_impl; [exact Hall|]. intros x Hx.
      apply (FloatOrder.leb_trans _ (normalizedCoverage h)); assumption.
Qed.

Lemma sortByCoverage_sorted (l : list GlyphRecord) :
  Forall (fun h => is_finite (normalizedCoverage h) = true) l ->
  StronglySorted byCoverage (sortByCoverage l).
Proof.
  induction l as [|h l IH]; intros Hfin; [constructor|].
  inversion Hfin as [|? ? Fh Hfin']; subst.
  change (sortByCoverage (h :: l)) with (insertByCoverage h (sortByCoverage l)).
  apply insertByCoverage_sorted; [exact Fh| |apply IH, Hfin'].
  apply Forall_forall. intros x Hx. rewrite elem_of_sortByCoverage in Hx.
  rewrite Forall_forall in Hfin'. apply Hfin', Hx.
Qed.

(** X7.  The constructor keeps every parsed row exactly once (the raw rows
    of the loaded array are a permutation of the parsed ones), and each
    record carries the three normalised features that [normalize] computed
    at the index of its own row: sorting moves whole records.  When every
    normalised coverage is finite, the constructor leaves the array in
    ascending order of normalised coverage. *)
Theorem load_sorted (parsed : list ParsedGlyph) :
  raw <$> load parsed ≡ₚ parsed /\
  length (load parsed) = length parsed /\
  Forall (fun r => exists i,
            parsed !! i = Some (raw r) /\
            normalize (map p_coverage parsed) !! i = Some (normalizedCoverage r) /\
            normalize (map p_complexity parsed) !! i = Some (normalizedComplexity r) /\
            normalize (map p_connectedComponents parsed) !! i
            = Some (normalizedConnectedComponents r))
         (load parsed) /\
  (Forall (fun v => is_finite v = true) (normalize (map p_coverage parsed)) ->
   StronglySorted byCoverage (load parsed)).
Proof.
  assert (Hlen : forall f : ParsedGlyph -> float,
            length (normalize (map f parsed)) = length parsed).
  { intros f. unfold normalize. destruct (_ =? _); rewrite !length_map; reflexivity. }
  assert (Hnth : forall (l : list float) i, (i < length l)%nat ->
            l !! i = Some (nth i l nan)).
  { intros l i Hl. destruct (lookup_lt_is_Some_2 l i Hl) as [x Hx].
    rewrite (nth_lookup_Some l i nan x Hx). exact Hx. }
  split; [|split; [apply length_load|split]].
  - unfold load. rewrite sortByCoverage_Permutation.
    match goal with |- raw <$> imap ?f parsed ≡ₚ _ =>
      assert (E : raw <$> imap f parsed = parsed) end.
    { apply list_eq. intros i. rewrite list_lookup_fmap, list_lookup_imap.
      destruct (parsed !! i); reflexivity. }
    rewrite E. reflexivity.
  - apply Forall_forall. intros r Hr.
    apply elem_of_load in Hr as (i & g & Hi & <- & -> & -> & ->).
    exists i. split; [exact Hi|]. apply lookup_lt_Some in Hi.
    repeat split; apply Hnth; rewrite Hlen; exact Hi.
  - intros Hfin. unfold load. apply sortByCoverage_sorted.
    apply Forall_forall. intros r Hr.
    apply elem_of_lookup_imap_1 in Hr as (i & g & -> & Hg). cbn [normalizedCoverage].
    apply lookup_lt_Some in Hg.
    rewrite Forall_forall in Hfin. apply Hfin.
    eapply list_elem_of_lookup_2, Hnth. rewrite Hlen. exact Hg.
Qed.

(** ** A NaN among the values *)

Lemma Math_min_nan_r (a : float) : Js.Math_min a nan = nan.
Proof.
  unfold Js.Math_min. replace (is_nan nan) with true by reflexivity.
  rewrite orb_true_r. reflexivity.
Qed.

Lemma Math_max_nan_r (a : float) : Js.Math_max a nan = nan.
Proof.
  unfold Js.Math_max. replace (is_nan nan) with true by reflexivity.
  rewrite orb_true_r. reflexivity.
Qed.

Lemma fold_nan (f : float -> float -> float) values :
  (forall a, f a nan = nan) -> (forall b, f nan b = nan) ->
  forall acc, acc = nan \/ nan ∈ values -> fold_left f values acc = nan.
Proof.
  intros Hr Hl. induction values as [|v vs IH]; intros acc H; cbn [fold_left].
  - destruct H as [H|H]; [exact H|]. apply elem_of_nil in H. contradiction.
  - apply IH. destruct H as [->|H]; [left; apply Hl|].
    apply elem_of_cons in H as [<-|H]; [left; apply Hr|right; exact H].
Qed.

Lemma div_nan_r (a : float) : a / nan = nan.
Proof.
  rewrite <- (SF2Prim_Prim2SF (a / nan)), div_spec.
  change (Prim2SF nan) with S754_nan.
  destruct (Prim2SF a) as [s|s| |s m e]; reflexivity.
Qed.

(** X8.  [normalize] returns as many numbers as it is given, and a NaN
    among the values spoils them all: the minimum and the maximum are NaN,
    the range is NaN, which is not [=== 0], and every normalised value is
    NaN. *)
Theorem normalize_nan (values : list float) :
  length (normalize values) = length values /\
  (nan ∈ values ->
   minOf values = nan /\ maxOf values = nan /\
   Forall (fun u => u = nan) (normalize values)).
Proof.
  split.
  - unfold normalize. destruct (_ =? _); rewrite length_map; reflexivity.
  - intros Hnan.
    assert (Hmin : minOf values = nan).
    { apply (fold_nan Js.Math_min); [apply Math_min_nan_r|reflexivity|right; exact Hnan]. }
    assert (Hmax : maxOf values = nan).
    { apply (fold_nan Js.Math_max); [apply Math_max_nan_r|reflexivity|right; exact Hnan]. }
    split; [exact Hmin|]. split; [exact Hmax|].
    unfold normalize. rewrite Hmin, Hmax.
    replace (nan - nan =? 0) with false by reflexivity.
    apply Forall_map, Forall_forall. intros v _. cbv beta.
    replace (nan - nan) with nan by reflexivity. apply div_nan_r.
Qed.

(** ** The scoring loop returns the first candidate of least score *)

(** The state of the loop after some candidates, [(B, b)], and the loop
    over the candidates [cs] that are left. *)
Lemma fold_better params cs : forall B b,
  let r := fold_left (better params) cs (B, b) in
  (r = (B, b) /\ Forall (fun c => (score params c <? B) = false) cs) \/
  (exists pre suf, cs = pre ++ snd r :: suf /\
     (score params (snd r) <? B) = true /\
     Forall (fun c => (score params c <=? score params (snd r)) = false) pre /\
     Forall (fun c => (score params c <? score params (snd r)) = false) suf).
Proof.
  induction cs as [|c cs IH]; intros B b; cbv zeta.
  - left. split; [reflexivity|constructor].
  - cbn [fold_left].
    replace (better params (B, b) c)
      with (if score params c <? B then (score params c, c) else (B, b))
      by reflexivity.
    destruct (score params c <? B) eqn:Hlt.
    + right. specialize (IH (score params c) c). cbv zeta in IH.
      set (r := fold_left (better params) cs (score params c, c)) in *.
      destruct IH as [[Hr Hall]|(pre & suf & E & Hs & Hpre & Hsuf)].
      * exists [], cs. cbn [app]. rewrite Hr. cbn [snd].
        repeat split; [exact Hlt|constructor|exact Hall].
      * exists (c :: pre), suf. rewrite E at 1.
        repeat split; [apply (FloatOrder.ltb_trans _ _ _ Hs Hlt)| |exact Hsuf].
        constructor; [apply FloatOrder.ltb_not_leb, Hs|exact Hpre].
    + specialize (IH B b). cbv zeta in IH.
      set (r := fold_left (better params) cs (B, b)) in *.
      destruct IH as [[Hr Hall]|(pre & suf & E & Hs & Hpre & Hsuf)].
      * left. split; [exact Hr|]. constructor; [exact Hlt|exact Hall].
      * right. exists (c :: pre), suf. rewrite E at 1.
        repeat split; [exact Hs| |exact Hsuf].
        constructor; [|exact Hpre].
        destruct (score params c <=? score params (snd r)) eqn:Hle; [|reflexivity].
        rewrite (FloatOrder.leb_ltb_trans _ _ _ Hle Hs) in Hlt. discriminate.
Qed.

(** No candidate scores strictly below the one that the loop returns. *)
Lemma pickBest_least params c0 cs :
  Forall (fun c => (score params c <? score params (pickBest params (c0 :: cs) c0))
                   = false)
         (c0 :: cs).
Proof.
  unfold pickBest.
  pose proof (fold_better params (c0 :: cs) infinity c0) as H. cbv zeta in H.
  set (r := fold_left (better params) (c0 :: cs) (infinity, c0)) in *.
  destruct H as [[Hr Hall]|(pre & suf & E & Hs & Hpre & Hsuf)].
  - rewrite Hr. cbn [snd]. apply Forall_forall. intros c Hc.
    rewrite Forall_forall in Hall.
    apply FloatOrder.both_not_below; [apply Hall, Hc|apply Hall, list_elem_of_here].
  - rewrite E. apply Forall_app. split; [|constructor].
    + eapply Forall_impl; [exact Hpre|]. intros c Hc. cbv beta in Hc.
      destruct (score params c <? score params (snd r)) eqn:Hlt; [|reflexivity].
      rewrite (FloatOrder.ltb_leb _ _ Hlt) in Hc. discriminate.
    + apply FloatOrder.ltb_irrefl.
    + exact Hsuf.
Qed.

(** X9.  Starting with [best = candidates[0]] and [bestScore = Infinity] as
    the source does, the loop returns: the first candidate, when no
    candidate scores below [Infinity]; and otherwise the first candidate of
    least score, a NaN score never being chosen: its score is below
    [Infinity], every candidate before it scores NaN or strictly more (it
    is not less than or equal), and no candidate after it scores strictly
    less. *)
Theorem pickBest_first_minimum (params : GlyphQueryParams) (c0 : GlyphRecord)
    (cs : list GlyphRecord) :
  let best := pickBest params (c0 :: cs) c0 in
  (best = c0 /\
   Forall (fun c => (score params c <? infinity) = false) (c0 :: cs)) \/
  (exists pre suf,
     c0 :: cs = pre ++ best :: suf /\
     (score params best <? infinity) = true /\
     Forall (fun c => (score params c <=? score params best) = false) pre /\
     Forall (fun c => (score params c <? score params best) = false) suf).
Proof.
  cbv zeta. unfold pickBest.
  pose proof (fold_better params (c0 :: cs) infinity c0) as H. cbv zeta in H.
  set (r := fold_left (better params) (c0 :: cs) (infinity, c0)) in *.
  destruct H as [[Hr Hall]|(pre & suf & E & Hs & Hpre & Hsuf)].
  - left. rewrite Hr. split; [reflexivity|exact Hall].
  - right. exists pre, suf. auto.
Qed.

(** ** What [queryBest] returns on a sorted array *)

Lemma sorted_lookup l : forall i j gi gj,
  StronglySorted byCoverage l -> (i < j)%nat ->
  l !! i = Some gi -> l !! j = Some gj ->
  (normalizedCoverage gi <=? normalizedCoverage gj) = true.
Proof.
  induction l as [|h l IH]; intros i j gi gj Hs Hij Hi Hj; [discriminate|].
  apply StronglySorted_cons in Hs as [Hall Hs].
  destruct i as [|i], j as [|j]; cbn in Hi, Hj; try lia.
  - injection Hi as <-. rewrite Forall_forall in Hall.
    apply Hall. eapply list_elem_of_lookup_2, Hj.
  - apply (IH i j gi gj Hs); [lia|assumption|assumption].
Qed.

(** The binary search returns the lower bound of [lo], except that it never
    looks at the last record: there it stops whatever the coverage is. *)
Lemma bsearch_lower glyphs lo last :
  StronglySorted byCoverage glyphs -> (last < length glyphs)%nat ->
  forall fuel left_ right_ res,
  bsearch fuel glyphs lo left_ right_ = Some res ->
  (left_ <= right_)%nat -> (right_ <= last)%nat ->
  (forall k g, (k < left_)%nat -> glyphs !! k = Some g ->
     (normalizedCoverage g <? lo) = true) ->
  (right_ = last \/
   exists g, glyphs !! right_ = Some g /\ (normalizedCoverage g <? lo) = false) ->
  (forall k g, (k < res)%nat -> glyphs !! k = Some g ->
     (normalizedCoverage g <? lo) = true) /\
  (res = last \/
   exists g, glyphs !! res = Some g /\ (normalizedCoverage g <? lo) = false) /\
  (res <= last)%nat.
Proof.
  intros Hs Hlast. induction fuel as [|fuel IH]; intros l r res Hb Hlr Hr Hlow Hup;
    cbn [bsearch] in Hb; destruct (Nat.ltb_spec l r) as [Hlt|Hge]; try discriminate.
  - injection Hb as <-. replace l with r in * by lia. auto.
  - pose proof (Nat.div2_div (l + r)) as Hmid.
    assert (Hm : (l <= Nat.div2 (l + r) < r)%nat).
    { pose proof (Nat.div_mod_eq (l + r) 2).
      pose proof (Nat.mod_upper_bound (l + r) 2). lia. }
    destruct (glyphs !! Nat.div2 (l + r)) as [g|] eqn:Eg; [|discriminate].
    destruct (normalizedCoverage g <? lo) eqn:Hg.
    + apply (IH _ _ _ Hb); [lia|lia| |exact Hup].
      intros k g' Hk Ek.
      destruct (Nat.eq_dec k (Nat.div2 (l + r))) as [->|Hne].
      * replace g' with g by congruence. exact Hg.
      * apply (FloatOrder.leb_ltb_trans _ (normalizedCoverage g)); [|exact Hg].
        apply (sorted_lookup glyphs k (Nat.div2 (l + r)) g' g Hs);
          [lia|assumption|assumption].
    + apply (IH _ _ _ Hb); [lia|lia|exact Hlow|]. right. exists g. auto.
  - injection Hb as <-. replace l with r in * by lia. auto.
Qed.

Lemma scan_spec hi rest : forall endIdx,
  Forall (fun g => (normalizedCoverage g <=? hi) = true)
         (take (scan rest hi endIdx - endIdx) rest) /\
  (forall g, rest !! (scan rest hi endIdx - endIdx)%nat = Some g ->
     (normalizedCoverage g <=? hi) = false).
Proof.
  induction rest as [|g rest IH]; intros e; cbn [scan].
  - split; [rewrite take_nil; constructor|]. intros g H. discriminate.
  - destruct (normalizedCoverage g <=? hi) eqn:E.
    + pose proof (scan_bounds rest hi (S e)) as Hb. destruct (IH (S e)) as [H1 H2].
      replace (scan rest hi (S e) - e)%nat with (S (scan rest hi (S e) - S e)) by lia.
      split.
      * cbn [take]. constructor; [exact E|exact H1].
      * intros g' Hg'. cbn in Hg'. apply H2, Hg'.
    + rewrite Nat.sub_diag. split; [constructor|].
      intros g' [= <-]. exact E.
Qed.

(** The start and the end of the slice that [queryBest] scores. *)
Lemma queryBest_slice glyphs params :
  StronglySorted byCoverage glyphs -> glyphs <> [] ->
  exists startIdx endIdx,
    bsearch (length glyphs) glyphs (targetCoverage params - 0.1) 0 (length glyphs - 1)
      = Some startIdx /\
    endIdx = scan (drop startIdx glyphs) (targetCoverage params + 0.1) startIdx /\
    (startIdx <= endIdx <= length glyphs)%nat /\
    (startIdx < length glyphs)%nat /\
    (forall k g, (k < startIdx)%nat -> glyphs !! k = Some g ->
       (normalizedCoverage g <? targetCoverage params - 0.1) = true) /\
    (startIdx = (length glyphs - 1)%nat \/
     exists g, glyphs !! startIdx = Some g /\
       (normalizedCoverage g <? targetCoverage params - 0.1) = false) /\
    (forall k g, (startIdx <= k < endIdx)%nat -> glyphs !! k = Some g ->
       (normalizedCoverage g <=? targetCoverage params + 0.1) = true) /\
    (forall k g, (endIdx <= k)%nat -> glyphs !! k = Some g ->
       (normalizedCoverage g <=? targetCoverage params + 0.1) = false).
Proof.
  intros Hs Hne.
  assert (Hlen : (0 < length glyphs)%nat).
  { destruct glyphs; [contradiction|cbn; lia]. }
  destruct (bsearch_total (length glyphs) glyphs (targetCoverage params - 0.1)
              0%nat (length glyphs - 1)%nat) as (l & Hb & _ & Hl); [lia|lia|].
  specialize (Hl ltac:(lia)).
  destruct (bsearch_lower glyphs (targetCoverage params - 0.1) (length glyphs - 1)
              Hs ltac:(lia) _ _ _ _ Hb) as (Hlow & Hup & _); [lia|lia| |left; reflexivity|].
  { intros k g Hk. lia. }
  pose proof (scan_bounds (drop l glyphs) (targetCoverage params + 0.1) l) as Hbd.
  destruct (scan_spec (targetCoverage params + 0.1) (drop l glyphs) l) as [Hin Hout].
  rewrite length_drop in Hbd.
  set (e := scan (drop l glyphs) (targetCoverage params + 0.1) l) in *.
  exists l, e. repeat split; try assumption; try lia.
  - intros k g [Hk1 Hk2] Ek. rewrite Forall_forall in Hin. apply Hin.
    apply list_elem_of_lookup. exists (k - l)%nat.
    rewrite lookup_take_lt by lia. rewrite lookup_drop.
    replace (l + (k - l))%nat with k by lia. exact Ek.
  - intros k g Hk Ek.
    assert (He : (e < length glyphs)%nat).
    { apply lookup_lt_Some in Ek. lia. }
    destruct (lookup_lt_is_Some_2 glyphs e He) as [ge Ege].
    assert (Hge : (normalizedCoverage ge <=? targetCoverage params + 0.1) = false).
    { apply Hout. rewrite lookup_drop. replace (l + (e - l))%nat with e by lia.
      exact Ege. }
    destruct (Nat.eq_dec k e) as [->|Hne'].
    + replace g with ge by congruence. exact Hge.
    + destruct (normalizedCoverage g <=? targetCoverage params + 0.1) eqn:Hg;
        [|reflexivity].
      rewrite <- Hge. symmetry.
      apply (FloatOrder.leb_trans _ (normalizedCoverage g)); [|exact Hg].
      apply (sorted_lookup glyphs e k ge g Hs); [lia|assumption|assumption].
Qed.

(** X10.  On an array in ascending order of normalised coverage: when some
    record lies in the window between the target coverage minus 0.1 and
    plus 0.1 (both computed in binary64), [queryBest] returns a record of
    the window, and no record of the window scores strictly less. *)
Theorem queryBest_window_optimal (glyphs : list GlyphRecord)
    (params : GlyphQueryParams) (g : GlyphRecord) :
  StronglySorted byCoverage glyphs -> g ∈ glyphs -> inWindow params g ->
  exists best, queryBest glyphs params = Some best /\ best ∈ glyphs /\
    inWindow params best /\
    forall c, c ∈ glyphs -> inWindow params c ->
      (score params c <? score params best) = false.
Proof.
  intros Hs Hg [Hg1 Hg2].
  assert (Hne : glyphs <> []) by (intros ->; apply elem_of_nil in Hg; exact Hg).
  destruct (queryBest_slice glyphs params Hs Hne)
    as (l & e & Hb & He & Hle & Hl & Hlow & Hup & Hin & Hout).
  assert (Hidx : forall c, c ∈ glyphs -> inWindow params c ->
            exists k, (l <= k < e)%nat /\ glyphs !! k = Some c).
  { intros c Hc [Hc1 Hc2]. apply list_elem_of_lookup in Hc as [k Ek]. exists k.
    split; [|exact Ek]. split.
    - destruct (Nat.lt_ge_cases k l) as [Hk|Hk]; [|exact Hk].
      specialize (Hlow k c Hk Ek).
      rewrite (FloatOrder.ltb_not_leb _ _ Hlow) in Hc1. discriminate.
    - destruct (Nat.lt_ge_cases k e) as [Hk|Hk]; [exact Hk|].
      specialize (Hout k c Hk Ek). congruence. }
  destruct (Hidx g Hg (conj Hg1 Hg2)) as (kg & Hkg & Ekg).
  destruct (lookup_lt_is_Some_2 glyphs l Hl) as [gl Egl].
  assert (Hgl : (targetCoverage params - 0.1 <=? normalizedCoverage gl) = true).
  { destruct (Nat.eq_dec kg l) as [->|Hne'].
    - replace gl with g by congruence. exact Hg1.
    - assert (Hle' : (normalizedCoverage gl <=? normalizedCoverage g) = true).
      { apply (sorted_lookup glyphs l kg gl g Hs); [lia|assumption|assumption]. }
      destruct Hup as [Hlast|(g' & Eg' & Hg')].
      + apply lookup_lt_Some in Ekg. lia.
      + replace g' with gl in Hg' by congruence.
        apply FloatOrder.not_ltb_leb; [| |exact Hg'].
        * apply (FloatOrder.leb_number_l _ _ Hle').
        * apply (FloatOrder.leb_number_l _ _ Hg1). }
  assert (Hlo : forall k c, (l <= k)%nat -> glyphs !! k = Some c ->
            (targetCoverage params - 0.1 <=? normalizedCoverage c) = true).
  { intros k c Hk Ek. destruct (Nat.eq_dec k l) as [->|Hne'].
    - replace c with gl by congruence. exact Hgl.
    - apply (FloatOrder.leb_trans _ (normalizedCoverage gl)); [exact Hgl|].
      apply (sorted_lookup glyphs l k gl c Hs); [lia|assumption|assumption]. }
  unfold queryBest. destruct glyphs as [|g0 gs] eqn:Eglyphs; [contradiction|].
  rewrite <- Eglyphs in *. rewrite Hb, <- He.
  destruct (Nat.ltb_spec l e) as [Hlt|Hge]; [|lia].
  destruct (take (e - l) (drop l glyphs)) as [|c0 cs] eqn:Ec.
  { exfalso. apply (f_equal length) in Ec. rewrite length_take, length_drop in Ec.
    cbn in Ec. lia. }
  assert (Hcand : forall c, c ∈ c0 :: cs <->
            exists k, (l <= k < e)%nat /\ glyphs !! k = Some c).
  { intros c. rewrite <- Ec, list_elem_of_lookup. split.
    - intros [i Hi]. apply lookup_take_Some in Hi as [Hi Hlt'].
      rewrite lookup_drop in Hi. exists (l + i)%nat. split; [lia|exact Hi].
    - intros (k & Hk & Ek). exists (k - l)%nat.
      rewrite lookup_take_lt by lia. rewrite lookup_drop.
      replace (l + (k - l))%nat with k by lia. exact Ek. }
  exists (pickBest params (c0 :: cs) c0). split; [reflexivity|].
  pose proof (pickBest_least params c0 cs) as Hleast.
  pose proof (pickBest_elem params (c0 :: cs) c0) as Hbest.
  set (best := pickBest params (c0 :: cs) c0) in *.
  assert (Hbest' : best ∈ c0 :: cs).
  { apply elem_of_cons in Hbest as [->|Hbest]; [left|exact Hbest]. }
  apply Hcand in Hbest' as (kb & Hkb & Ekb).
  split; [eapply list_elem_of_lookup_2, Ekb|]. split.
  - split; [apply (Hlo kb best); [lia|exact Ekb]|apply (Hin kb best Hkb Ekb)].
  - intros c Hc Hwin. destruct (Hidx c Hc Hwin) as (k & Hk & Ek).
    rewrite Forall_forall in Hleast. apply Hleast, Hcand. eauto.
Qed.

Lemma queryBest_window_optimal_witness :
  exists best,
    queryBest twoGlyphs (coverageOnly 0.05) = Some best /\
    inWindow (coverageOnly 0.05) best.
Proof.
  assert (Hs : StronglySorted byCoverage twoGlyphs).
  { vm_compute. repeat constructor. }
  assert (Hg : exists g, g ∈ twoGlyphs /\ inWindow (coverageOnly 0.05) g).
  { eexists. split; [vm_compute; apply list_elem_of_here|].
    split; vm_compute; reflexivity. }
  destruct Hg as (g & Hg & Hwin).
  destruct (queryBest_window_optimal twoGlyphs (coverageOnly 0.05) g Hs Hg Hwin)
    as (best & Hq & _ & Hb & _).
  exists best. split; assumption.
Defined.

(** X11.  On a non-empty array in ascending order of normalised coverage,
    for a target whose window bounds are numbers: when no record lies in
    the window, [queryBest] returns the first record that is not within
    the upper bound, if the search stops at one, and otherwise the last
    record of the array, which is below the window; every record before the
    returned one is below the window. *)
Theorem queryBest_empty_window (glyphs : list GlyphRecord)
    (params : GlyphQueryParams) :
  StronglySorted byCoverage glyphs -> glyphs <> [] ->
  (targetCoverage params - 0.1 <=? targetCoverage params + 0.1) = true ->
  (forall g, g ∈ glyphs -> ~ inWindow params g) ->
  exists i best,
    queryBest glyphs params = Some best /\ glyphs !! i = Some best /\
    (forall k g, (k < i)%nat -> glyphs !! k = Some g ->
       (normalizedCoverage g <? targetCoverage params - 0.1) = true) /\
    ((normalizedCoverage best <=? targetCoverage params + 0.1) = false \/
     (i = (length glyphs - 1)%nat /\
      (normalizedCoverage best <? targetCoverage params - 0.1) = true)).
Proof.
  intros Hs Hne Hbounds Hnone.
  destruct (queryBest_slice glyphs params Hs Hne)
    as (l & e & Hb & He & Hle & Hl & Hlow & Hup & Hin & Hout).
  destruct (lookup_lt_is_Some_2 glyphs l Hl) as [gl Egl].
  assert (Hgl : ~ inWindow params gl).
  { apply Hnone. eapply list_elem_of_lookup_2, Egl. }
  exists l, gl. unfold queryBest.
  destruct glyphs as [|g0 gs] eqn:Eglyphs; [contradiction|].
  rewrite <- Eglyphs in *. rewrite Hb, <- He.
  destruct (Nat.ltb_spec l e) as [Hlt|Hge].
  - assert (Hhi : (normalizedCoverage gl <=? targetCoverage params + 0.1) = true).
    { apply (Hin l gl); [lia|exact Egl]. }
    assert (Hlo : (normalizedCoverage gl <? targetCoverage params - 0.1) = true).
    { apply FloatOrder.not_leb_ltb.
      - apply (FloatOrder.leb_number_l _ _ Hbounds).
      - apply (FloatOrder.leb_number_l _ _ Hhi).
      - destruct (targetCoverage params - 0.1 <=? normalizedCoverage gl) eqn:E;
          [|reflexivity].
        exfalso. apply Hgl. split; assumption. }
    assert (Hlast : l = (length glyphs - 1)%nat).
    { destruct Hup as [H|(g' & Eg' & Hg')]; [exact H|].
      exfalso. replace g' with gl in Hg' by congruence. congruence. }
    assert (Ecand : take (e - l) (drop l glyphs) = [gl]).
    { replace (e - l)%nat with 1%nat by lia.
      rewrite (drop_S glyphs gl l Egl). cbn [take]. rewrite take_0. reflexivity. }
    rewrite Ecand, pickBest_single. repeat split; try assumption.
    right. split; assumption.
  - replace (Nat.max l 0) with l by lia.
    replace (Nat.min l (length glyphs - 1)) with l by lia. rewrite Egl.
    rewrite pickBest_single. repeat split; try assumption.
    left. apply (Hout l gl); [lia|exact Egl].
Qed.

Lemma queryBest_empty_window_witness :
  exists best,
    queryBest twoGlyphs (coverageOnly 0.3) = Some best /\
    normalizedCoverage best = 1.
Proof.
  assert (Hs : StronglySorted byCoverage twoGlyphs).
  { vm_compute. repeat constructor. }
  destruct (queryBest_empty_window twoGlyphs (coverageOnly 0.3) Hs)
    as (i & best & Hq & _).
  - vm_compute. discriminate.
  - vm_compute. reflexivity.
  - intros g Hg.
    assert (E : twoGlyphs
                = ltac:(let v := eval vm_compute in twoGlyphs in exact v))
      by (vm_compute; reflexivity).
    rewrite E, !elem_of_cons, elem_of_nil in Hg.
    destruct Hg as [->|[->|[]]]; intros [H1 H2]; vm_compute in H1, H2; congruence.
  - exists best. split; [exact Hq|].
    assert (E : queryBest twoGlyphs (coverageOnly 0.3)
                = ltac:(let v := eval vm_compute in (queryBest twoGlyphs (coverageOnly 0.3))
                        in exact v)) by (vm_compute; reflexivity).
    rewrite E in Hq. injection Hq as <-. reflexivity.
Defined.

(** X12.  [queryBest] fails (with a [TypeError], on reading a feature of
    [undefined]) exactly on the empty array; on any other array, sorted or
    not, its loops terminate and it returns a record of the array. *)
Theorem queryBest_defined (glyphs : list GlyphRecord) (params : GlyphQueryParams) :
  (queryBest glyphs params = None <-> glyphs = []) /\
  (forall g, queryBest glyphs params = Some g -> g ∈ glyphs).
Proof.
  destruct glyphs as [|g0 gs].
  - split; [split; reflexivity|]. intros g H. discriminate.
  - destruct (queryBest_total (g0 :: gs) params) as (g & Hq & Hg); [discriminate|].
    rewrite Hq. split.
    + split; discriminate.
    + intros g' [= <-]. exact Hg.
Qed.

End GlyphDB.
(** * GlyphCache (src/glyph/GlyphCache.ts)

    The cache is generic in the database: [queryBest] is any function from
    query parameters to records, as [GlyphDB.queryBest] is on a non-empty
    database (on an empty one it raises instead of returning). *)
Module GlyphCache.
Local Open Scope float_scope.

Definition BRIGHTNESS_BUCKETS : float := 32.
Definition ROUNDNESS_BUCKETS : float := 8.
Definition COMPLEXITY_BUCKETS : float := 8.
Definition STYLE_COUNT : float := 9.

(** [CACHE_SIZE], as the length of the table. *)
Definition CACHE_SIZE : nat := 32 * 8 * 8 * 9.

Definition STYLE_INDEX : list (Types.GlyphStyle * float) :=
  [(Types.dense, 1); (Types.light, 2); (Types.round, 3); (Types.angular, 4);
   (Types.line, 5); (Types.noise, 6); (Types.block, 7); (Types.symbolic, 8)].

Definition styleEqb (a b : Types.GlyphStyle) : bool :=
  match a, b with
  | Types.dense, Types.dense | Types.light, Types.light
  | Types.round, Types.round | Types.angular, Types.angular
  | Types.line, Types.line | Types.noise, Types.noise
  | Types.block, Types.block | Types.symbolic, Types.symbolic => true
  | _, _ => false
  end.

(** [STYLE_INDEX[style] ?? 0] *)
Definition styleToIndex (style : option Types.GlyphStyle) : float :=
  match style with
  | None => 0
  | Some s =>
      match find (fun e => styleEqb (fst e) s) STYLE_INDEX with
      | Some e => snd e
      | None => 0
      end
  end.

Record GlyphQueryParams := mkParams {
  targetCoverage : float;
  targetRoundness : option float;
  targetComplexity : option float;
  glyphStyle : option Types.GlyphStyle
}.

Definition buildKey (params : GlyphQueryParams) : float :=
  let bb := Js.Math_min (BRIGHTNESS_BUCKETS - 1)
              (Js.Math_floor (targetCoverage params * (BRIGHTNESS_BUCKETS - 1))) in
  let rb := Js.Math_min (ROUNDNESS_BUCKETS - 1)
              (Js.Math_floor (default 0.5 (targetRoundness params)
                              * (ROUNDNESS_BUCKETS - 1))) in
  let cb := Js.Math_min (COMPLEXITY_BUCKETS - 1)
              (Js.Math_floor (default 0.5 (targetComplexity params)
                              * (COMPLEXITY_BUCKETS - 1))) in
  let si := styleToIndex (glyphStyle params) in
  bb
  + rb * BRIGHTNESS_BUCKETS
  + cb * BRIGHTNESS_BUCKETS * ROUNDNESS_BUCKETS
  + si * BRIGHTNESS_BUCKETS * ROUNDNESS_BUCKETS * COMPLEXITY_BUCKETS.

(** The parameters that [warmup] passes to [select], in the order of its
    four nested loops. *)
Definition upTo (n : nat) : list float :=
  map (fun k => Js.ofZ (Z.of_nat k)) (seq 0 n).

Definition styleOfIndex (si : float) : option Types.GlyphStyle :=
  match find (fun e => snd e =? si) STYLE_INDEX with
  | Some e => Some (fst e)
  | None => None
  end.

Definition warmupParams : list GlyphQueryParams :=
  flat_map (fun si =>
    let style := styleOfIndex si in
    flat_map (fun bb =>
      let cov := bb / (BRIGHTNESS_BUCKETS - 1) in
      flat_map (fun rb =>
        let round := rb / (ROUNDNESS_BUCKETS - 1) in
        map (fun cb =>
          let comp := cb / (COMPLEXITY_BUCKETS - 1) in
          {| targetCoverage := cov; targetRoundness := Some round;
             targetComplexity := Some comp; glyphStyle := style |})
          (upTo 8))
        (upTo 8))
      (upTo 32))
    (upTo 9).

Section WithDatabase.
Variable GlyphRecord : Type.
Variable queryBest : GlyphQueryParams -> GlyphRecord.

Record t := mk {
  cache : list (option GlyphRecord);
  hits : nat;
  misses : nat
}.

Definition new : t :=
  {| cache := replicate CACHE_SIZE None; hits := 0; misses := 0 |}.

(** What [this.cache[key]] evaluates to.  A key that is no index of the
    array (negative, fractional, NaN, or past the end) reads [undefined]. *)
Inductive Slot := Undefined | Null | Cached (record : GlyphRecord).

Definition readSlot (c : t) (key : float) : Slot :=
  match Js.toIndex key with
  | None => Undefined
  | Some i =>
      match cache c !! i with
      | None => Undefined
      | Some None => Null
      | Some (Some record) => Cached record
      end
  end.

(** [select(params)]: the returned value ([None] for [undefined]) and the
    new state.  The database is asked exactly where [misses] is
    incremented. *)
Definition select (c : t) (params : GlyphQueryParams) : option GlyphRecord * t :=
  let key := buildKey params in
  match readSlot c key with
  | Cached record =>
      (Some record, {| cache := cache c; hits := S (hits c); misses := misses c |})
  | Undefined =>
      (None, {| cache := cache c; hits := S (hits c); misses := misses c |})
  | Null =>
      let result := queryBest params in
      let i := default O (Js.toIndex key) in
      (Some result,
       {| cache := <[i := Some result]> (cache c);
          hits := hits c; misses := S (misses c) |})
  end.

Definition clearCache (c : t) : t :=
  {| cache := replicate (length (cache c)) None; hits := 0; misses := 0 |}.

Definition selectAll (c : t) (ps : list GlyphQueryParams) : t :=
  foldl (fun c p => snd (select c p)) c ps.

Definition warmup (c : t) : t :=
  let c' := selectAll c warmupParams in
  {| cache := cache c'; hits := 0; misses := 0 |}.

End WithDatabase.

(** ** The keys that [warmup] visits *)

Definition zs (n : nat) : list Z := map Z.of_nat (seq 0 n).

(** The keys [bb + 32 rb + 256 cb + 2048 si] in the order of the loops. *)
Definition expectedKeys : list Z :=
  flat_map (fun si =>
    flat_map (fun bb =>
      flat_map (fun rb =>
        map (fun cb => bb + 32 * rb + 256 * cb + 2048 * si)%Z (zs 8))
        (zs 8))
      (zs 32))
    (zs 9).

Fixpoint keysAre (ps : list GlyphQueryParams) (keys : list Z) : bool :=
  match ps, keys with
  | [], [] => true
  | p :: ps', k :: keys' =>
      match Js.toIndexZ (buildKey p) with
      | Some z => (z =? k)%Z && keysAre ps' keys'
      | None => false
      end
  | _, _ => false
  end.

(** In binary64, [Math.floor((bb / 31) * 31)] is [bb] for each of the 32
    coverage buckets and [Math.floor((k / 7) * 7)] is [k] for each of the 8
    roundness and complexity buckets: every call of [warmup] has the key of
    its loop counters. *)
Lemma warmup_keys : keysAre warmupParams expectedKeys = true.
Proof. vm_compute. reflexivity. Qed.

Lemma keysAre_lookup ps : forall keys j k,
  keysAre ps keys = true -> keys !! j = Some k ->
  exists p, ps !! j = Some p /\ Js.toIndexZ (buildKey p) = Some k.
Proof.
  induction ps as [|p ps IH]; intros [|k0 keys] j k H Hk; try discriminate.
  cbn [keysAre] in H.
  destruct (Js.toIndexZ (buildKey p)) as [z|] eqn:Ez; [|discriminate].
  apply andb_true_iff in H as [Hz Hrest]. apply Z.eqb_eq in Hz. subst z.
  destruct j as [|j].
  - cbn in Hk. injection Hk as ->. exists p. split; [reflexivity|exact Ez].
  - cbn in Hk. destruct (IH keys j k Hrest Hk) as (q & Hq & Eq).
    exists q. split; [exact Hq|exact Eq].
Qed.

Lemma elem_of_zs n z : (0 <= z < Z.of_nat n)%Z -> In z (zs n).
Proof.
  intros Hz. unfold zs. apply in_map_iff. exists (Z.to_nat z).
  split; [lia|]. apply in_seq. lia.
Qed.

Lemma CACHE_SIZE_value : Z.of_nat CACHE_SIZE = 18432%Z.
Proof. vm_compute. reflexivity. Qed.

Lemma expectedKeys_cover (k : nat) :
  (k < CACHE_SIZE)%nat -> In (Z.of_nat k) expectedKeys.
Proof.
  intros Hk. pose proof CACHE_SIZE_value as Hsize.
  set (z := Z.of_nat k). assert (Hz : (0 <= z < 18432)%Z) by (subst z; lia).
  clearbody z. clear Hk Hsize k.
  unfold expectedKeys.
  apply in_flat_map. exists (z / 2048)%Z. split.
  { apply elem_of_zs. cbn. Z.div_mod_to_equations. lia. }
  apply in_flat_map. exists (z mod 32)%Z. split.
  { apply elem_of_zs. cbn. Z.div_mod_to_equations. lia. }
  apply in_flat_map. exists ((z / 32) mod 8)%Z. split.
  { apply elem_of_zs. cbn. Z.div_mod_to_equations. lia. }
  apply in_map_iff. exists ((z / 256) mod 8)%Z. split.
  { Z.div_mod_to_equations. lia. }
  apply elem_of_zs. cbn. Z.div_mod_to_equations. lia.
Qed.

(** Every slot has a call of [warmup] whose key it is. *)
Lemma warmup_covers (k : nat) :
  (k < CACHE_SIZE)%nat ->
  exists p, p ∈ warmupParams /\ Js.toIndex (buildKey p) = Some k.
Proof.
  intros Hk. pose proof (expectedKeys_cover k Hk) as Hin.
  apply list_elem_of_In, list_elem_of_lookup in Hin as [j Hj].
  destruct (keysAre_lookup _ _ _ _ warmup_keys Hj) as (p & Hp & Ep).
  exists p. split; [eapply list_elem_of_lookup_2, Hp|].
  unfold Js.toIndex. rewrite Ep. f_equal. lia.
Qed.

Section Facts.
Context {GlyphRecord : Type} (queryBest : GlyphQueryParams -> GlyphRecord).

Local Abbreviation select := (select GlyphRecord queryBest).
Local Abbreviation selectAll := (selectAll GlyphRecord queryBest).
Local Abbreviation warmup := (warmup GlyphRecord queryBest).

(** Slot [k] holds a record. *)
Definition filled (c : t GlyphRecord) (k : nat) : Prop :=
  exists record, cache _ c !! k = Some (Some record).

Definition full (c : t GlyphRecord) : Prop :=
  forall k, (k < length (cache _ c))%nat -> filled c k.

Lemma select_length c p :
  length (cache _ (snd (select c p))) = length (cache _ c).
Proof.
  unfold select. destruct (readSlot _ c (buildKey p)); cbn; [reflexivity| |reflexivity].
  apply length_insert.
Qed.

Lemma select_filled_mono c p k :
  filled c k -> filled (snd (select c p)) k.
Proof.
  intros [r Hr]. unfold select, readSlot.
  destruct (Js.toIndex (buildKey p)) as [i|] eqn:Ei; [|exists r; exact Hr].
  destruct (cache _ c !! i) as [[r'|]|] eqn:Ec; cbn; try (exists r; exact Hr).
  destruct (decide (i = k)) as [->|Hne]; [congruence|].
  exists r. cbn [cache]. rewrite list_lookup_insert_ne by exact Hne. exact Hr.
Qed.

Lemma select_fills c p k :
  Js.toIndex (buildKey p) = Some k -> (k < length (cache _ c))%nat ->
  filled (snd (select c p)) k.
Proof.
  intros Ek Hk. unfold select, readSlot. rewrite Ek.
  destruct (lookup_lt_is_Some_2 (cache _ c) k Hk) as [slot Hslot].
  rewrite Hslot. destruct slot as [r|]; cbn.
  - exists r. exact Hslot.
  - exists (queryBest p). cbn [cache]. apply list_lookup_insert_eq. exact Hk.
Qed.

Lemma selectAll_length ps : forall c,
  length (cache _ (selectAll c ps)) = length (cache _ c).
Proof.
  induction ps as [|p ps IH]; intros c; [reflexivity|].
  cbn [GlyphCache.selectAll foldl]. fold (selectAll (snd (select c p)) ps).
  rewrite IH. apply select_length.
Qed.

Lemma selectAll_filled_mono ps : forall c k,
  filled c k -> filled (selectAll c ps) k.
Proof.
  induction ps as [|p ps IH]; intros c k Hk; [exact Hk|].
  cbn [GlyphCache.selectAll foldl]. fold (selectAll (snd (select c p)) ps).
  apply IH, select_filled_mono, Hk.
Qed.

Lemma selectAll_fills ps : forall c p k,
  p ∈ ps -> Js.toIndex (buildKey p) = Some k -> (k < length (cache _ c))%nat ->
  filled (selectAll c ps) k.
Proof.
  induction ps as [|q ps IH]; intros c p k Hin Ek Hk.
  - apply elem_of_nil in Hin. contradiction.
  - cbn [GlyphCache.selectAll foldl]. fold (selectAll (snd (select c q)) ps).
    apply elem_of_cons in Hin as [->|Hin].
    + apply selectAll_filled_mono, select_fills; assumption.
    + apply (IH _ p k Hin Ek). rewrite select_length. exact Hk.
Qed.

(** On a full table [select] never asks the database. *)
Lemma select_full c p :
  full c ->
  snd (select c p)
  = {| cache := cache _ c; hits := S (hits _ c); misses := misses _ c |}.
Proof.
  intros Hfull. unfold select, readSlot.
  destruct (Js.toIndex (buildKey p)) as [i|] eqn:Ei; [|reflexivity].
  destruct (cache _ c !! i) as [[r|]|] eqn:Ec; [reflexivity| |reflexivity].
  exfalso. destruct (Hfull i) as [r Hr]; [|congruence].
  eapply lookup_lt_Some, Ec.
Qed.

Lemma selectAll_full ps : forall c,
  full c ->
  selectAll c ps
  = {| cache := cache _ c; hits := (length ps + hits _ c)%nat;
       misses := misses _ c |}.
Proof.
  induction ps as [|p ps IH]; intros c Hfull.
  - destruct c; reflexivity.
  - cbn [GlyphCache.selectAll foldl]. fold (selectAll (snd (select c p)) ps).
    rewrite (select_full c p Hfull). rewrite IH by exact Hfull.
    cbn [cache hits misses length]. f_equal. lia.
Qed.

(** The state that a run of [select] over a full table ends in. *)
Lemma selectAll_on_full (w : t GlyphRecord) ps :
  full w -> hits _ w = 0%nat -> misses _ w = 0%nat ->
  selectAll w ps = {| cache := cache _ w; hits := length ps; misses := 0 |}.
Proof.
  intros Hfull Hh Hm. rewrite (selectAll_full ps w Hfull), Hh, Hm.
  f_equal. lia.
Qed.

Lemma warmup_unfold c :
  warmup c = {| cache := cache _ (selectAll c warmupParams); hits := 0; misses := 0 |}.
Proof. reflexivity. Qed.

Lemma full_after_warmup c :
  length (cache _ c) = CACHE_SIZE -> full (selectAll c warmupParams).
Proof.
  intros Hlen k Hk. rewrite selectAll_length, Hlen in Hk.
  destruct (warmup_covers k Hk) as (p & Hp & Ek).
  apply (selectAll_fills _ c p k Hp Ek). rewrite Hlen. exact Hk.
Qed.

Local Abbreviation warmedUp w :=
  (Z.of_nat CACHE_SIZE = 18432%Z /\
   length (cache _ w) = CACHE_SIZE /\
   (forall k, (k < CACHE_SIZE)%nat ->
      exists record, cache _ w !! k = Some (Some record)) /\
   hits _ w = 0%nat /\
   misses _ w = 0%nat /\
   (forall ps,
      cache _ (selectAll w ps) = cache _ w /\
      misses _ (selectAll w ps) = 0%nat /\
      hits _ (selectAll w ps) = length ps) /\
   (forall ps p k record,
      Js.toIndex (buildKey p) = Some k ->
      cache _ w !! k = Some (Some record) ->
      select (selectAll w ps) p
      = (Some record,
         {| cache := cache _ w; hits := S (length ps); misses := 0 |}))).

(** A full table of [CACHE_SIZE] slots with its counters reset. *)
Lemma reset_full_table (c' : t GlyphRecord) :
  length (cache _ c') = CACHE_SIZE -> full c' ->
  warmedUp {| cache := cache _ c'; hits := 0; misses := 0 |}.
Proof.
  intros Hlen Hfull'.
  set (w := {| cache := cache _ c'; hits := 0; misses := 0 |}).
  assert (Hfull : full w) by exact Hfull'.
  assert (Hall : forall ps, selectAll w ps
            = {| cache := cache _ w; hits := length ps; misses := 0 |}).
  { intros ps. apply selectAll_on_full; [exact Hfull|reflexivity|reflexivity]. }
  split; [exact CACHE_SIZE_value|]. split; [exact Hlen|]. split.
  { intros k Hk. apply Hfull'. rewrite Hlen. exact Hk. }
  split; [reflexivity|]. split; [reflexivity|]. split.
  - intros ps. rewrite Hall. cbn [cache hits misses]. auto.
  - intros ps p k record Ek Hrec. rewrite Hall.
    unfold GlyphCache.select, readSlot. cbn [cache hits misses].
    rewrite Ek, Hrec. reflexivity.
Qed.

(** C6.  On a table of [CACHE_SIZE] slots, in whatever state, [warmup]
    leaves a table of the same 18,432 slots, each holding a record, with
    both counters 0; and any sequence of [select] calls after it leaves the
    table as it is, never increments [misses] (the database is asked only
    where [misses] is incremented), counts every call as a hit, and
    answers each call whose key is a slot with the record of that slot. *)
Theorem warmup_fills_cache (c : t GlyphRecord) :
  length (cache _ c) = CACHE_SIZE -> warmedUp (warmup c).
Proof.
  intros Hlen. rewrite !warmup_unfold.
  apply reset_full_table.
  - rewrite selectAll_length. exact Hlen.
  - apply full_after_warmup, Hlen.
Qed.

End Facts.

Lemma new_length (A : Type) : length (cache A (new A)) = CACHE_SIZE.
Proof. unfold new. cbn [cache]. apply length_replicate. Qed.

Lemma warmup_fills_cache_witness :
  length (cache _ (new unit)) = CACHE_SIZE /\
  length (cache _ (warmup unit (fun _ => tt) (new unit))) = CACHE_SIZE.
Proof.
  exact (conj (new_length unit)
           (proj1 (proj2 (warmup_fills_cache (fun _ => tt) (new unit)
                            (new_length unit))))).
Defined.

(** ** Counters, memoisation and keys that are no index *)

Section Behaviour.
Context {GlyphRecord : Type} (queryBest : GlyphQueryParams -> GlyphRecord).

Local Abbreviation select := (select GlyphRecord queryBest).
Local Abbreviation selectAll := (selectAll GlyphRecord queryBest).

(** The number of slots that hold a record. *)
Fixpoint countFilled (slots : list (option GlyphRecord)) : nat :=
  match slots with
  | [] => 0
  | Some _ :: rest => S (countFilled rest)
  | None :: rest => countFilled rest
  end.

Lemma countFilled_le slots : (countFilled slots <= length slots)%nat.
Proof.
  induction slots as [|[r|] slots IH]; cbn; lia.
Qed.

Lemma countFilled_replicate n : countFilled (replicate n None) = 0%nat.
Proof. induction n as [|n IH]; [reflexivity|exact IH]. Qed.

Lemma countFilled_insert slots : forall i r,
  slots !! i = Some None ->
  countFilled (<[i := Some r]> slots) = S (countFilled slots).
Proof.
  induction slots as [|s slots IH]; intros i r Hi; [discriminate|].
  destruct i as [|i]; cbn in Hi.
  - injection Hi as ->. reflexivity.
  - change (<[S i := Some r]> (s :: slots)) with (s :: <[i := Some r]> slots).
    destruct s; cbn [countFilled]; rewrite (IH i r Hi); reflexivity.
Qed.

(** One call of [select]: one of the counters goes up by one, [misses]
    only when an empty slot is filled. *)
Lemma select_counters c p :
  (hits _ (snd (select c p)) + misses _ (snd (select c p))
   = S (hits _ c + misses _ c))%nat /\
  (countFilled (cache _ (snd (select c p))) + misses _ c
   = countFilled (cache _ c) + misses _ (snd (select c p)))%nat.
Proof.
  unfold GlyphCache.select, readSlot.
  destruct (Js.toIndex (buildKey p)) as [i|]; [|cbn; lia].
  destruct (cache _ c !! i) as [[r|]|] eqn:Ei; cbn [snd hits misses cache default];
    [lia| |lia].
  rewrite (countFilled_insert _ _ _ Ei). lia.
Qed.

Lemma selectAll_counters ps : forall c,
  (hits _ (selectAll c ps) + misses _ (selectAll c ps)
   = hits _ c + misses _ c + length ps)%nat /\
  (countFilled (cache _ (selectAll c ps)) + misses _ c
   = countFilled (cache _ c) + misses _ (selectAll c ps))%nat.
Proof.
  induction ps as [|p ps IH]; intros c; [cbn; lia|].
  cbn [GlyphCache.selectAll foldl length]. fold (selectAll (snd (select c p)) ps).
  destruct (IH (snd (select c p))) as [H1 H2].
  destruct (select_counters c p) as [H3 H4]. lia.
Qed.

(** X13.  Whatever the sequence of queries put to a cache that was just built or
    cleared: every call counts once, as a hit or as a miss, and the number
    of misses is the number of filled slots.  So the database is asked at
    most [CACHE_SIZE] times, however long the sequence. *)
Theorem misses_are_filled_slots (c : t GlyphRecord) (ps : list GlyphQueryParams) :
  let fresh := selectAll (new GlyphRecord) ps in
  let cleared := selectAll (clearCache _ c) ps in
  (hits _ fresh + misses _ fresh = length ps)%nat /\
  misses _ fresh = countFilled (cache _ fresh) /\
  (misses _ fresh <= CACHE_SIZE)%nat /\
  (hits _ cleared + misses _ cleared = length ps)%nat /\
  misses _ cleared = countFilled (cache _ cleared) /\
  (misses _ cleared <= length (cache _ c))%nat.
Proof.
  intros fresh cleared.
  destruct (selectAll_counters ps (new GlyphRecord)) as [H1 H2].
  destruct (selectAll_counters ps (clearCache _ c)) as [H3 H4].
  fold fresh in H1, H2. fold cleared in H3, H4.
  cbn [new clearCache hits misses cache] in H1, H2, H3, H4.
  rewrite countFilled_replicate in H2, H4.
  pose proof (countFilled_le (cache _ fresh)) as L1.
  pose proof (countFilled_le (cache _ cleared)) as L2.
  unfold fresh in L1 at 2. unfold cleared in L2 at 2.
  rewrite selectAll_length in L1, L2.
  cbn [new clearCache cache] in L1, L2. rewrite length_replicate in L1, L2.
  repeat split; lia.
Qed.

(** X14.  Memoisation is by key.  After a query [p] that found its slot empty,
    a query [q] with the same key is answered with the record that the
    database gave for [p]; the database is not asked again and the table
    stays as it is. *)
Theorem select_memoises_by_key (c : t GlyphRecord) (p q : GlyphQueryParams) :
  readSlot _ c (buildKey p) = Null _ -> buildKey q = buildKey p ->
  let first := select c p in
  let second := select (snd first) q in
  fst first = Some (queryBest p) /\
  fst second = Some (queryBest p) /\
  cache _ (snd second) = cache _ (snd first) /\
  misses _ (snd second) = S (misses _ c) /\
  hits _ (snd second) = S (hits _ c).
Proof.
  intros Hnull Hkey first second.
  set (c1 := {| cache := <[default 0%nat (Js.toIndex (buildKey p)) := Some (queryBest p)]>
                           (cache _ c);
                hits := hits _ c; misses := S (misses _ c) |}).
  assert (E1 : first = (Some (queryBest p), c1)).
  { subst first. unfold GlyphCache.select. rewrite Hnull. reflexivity. }
  assert (Hslot : readSlot _ c1 (buildKey q) = Cached _ (queryBest p)).
  { rewrite Hkey. unfold readSlot in *. cbn [cache c1].
    destruct (Js.toIndex (buildKey p)) as [i|]; [|discriminate]. cbn [default].
    destruct (cache _ c !! i) as [[r|]|] eqn:Ei; try discriminate.
    rewrite list_lookup_insert_eq by (eapply lookup_lt_Some, Ei). reflexivity. }
  assert (E2 : second = (Some (queryBest p),
                         {| cache := cache _ c1; hits := S (hits _ c1);
                            misses := misses _ c1 |})).
  { subst second. rewrite E1. cbn [snd]. unfold GlyphCache.select.
    rewrite Hslot. reflexivity. }
  rewrite E1, E2. cbn [fst snd cache hits misses c1]. repeat split.
Qed.

End Behaviour.

Lemma select_memoises_by_key_witness :
  let p := {| targetCoverage := 0.5; targetRoundness := None;
              targetComplexity := None; glyphStyle := None |} in
  let q := {| targetCoverage := 0.51; targetRoundness := None;
              targetComplexity := None; glyphStyle := None |} in
  fst (select _ targetCoverage (snd (select _ targetCoverage (new float) p)) q)
  = Some 0.5.
Proof.
  intros p q.
  refine (proj1 (proj2 (select_memoises_by_key targetCoverage (new float) p q _ _))).
  - vm_compute. reflexivity.
  - vm_compute. reflexivity.
Defined.

(** ** A NaN coverage *)

Lemma nan_add (a : float) : nan + a = nan.
Proof.
  rewrite <- (SF2Prim_Prim2SF (nan + a)), add_spec.
  change (Prim2SF nan) with S754_nan. reflexivity.
Qed.

Lemma buildKey_nan (p : GlyphQueryParams) :
  targetCoverage p = nan -> buildKey p = nan.
Proof.
  intros Hp. unfold buildKey. rewrite Hp.
  replace (Js.Math_min (BRIGHTNESS_BUCKETS - 1)
             (Js.Math_floor (nan * (BRIGHTNESS_BUCKETS - 1)))) with nan
    by (vm_compute; reflexivity).
  rewrite !nan_add. reflexivity.
Qed.

(** X15.  A query whose target coverage is NaN has the key NaN, which is no
    index of the table: [select] reads [undefined], which is not [null],
    counts a hit, returns [undefined] and asks the database nothing; the
    table stays as it is, so that every repetition does the same. *)
Theorem select_nan_coverage (GlyphRecord : Type)
    (queryBest : GlyphQueryParams -> GlyphRecord) (c : t GlyphRecord)
    (p : GlyphQueryParams) :
  targetCoverage p = nan ->
  select _ queryBest c p
  = (None, {| cache := cache _ c; hits := S (hits _ c); misses := misses _ c |}).
Proof.
  intros Hp. unfold select, readSlot. rewrite (buildKey_nan p Hp).
  replace (Js.toIndex nan) with (@None nat) by (vm_compute; reflexivity).
  reflexivity.
Qed.

Lemma select_nan_coverage_witness :
  fst (select _ targetCoverage (new float)
         {| targetCoverage := nan; targetRoundness := Some 0.5;
            targetComplexity := Some 0.5; glyphStyle := Some Types.dense |})
  = None.
Proof.
  rewrite (select_nan_coverage float targetCoverage (new float)
             {| targetCoverage := nan; targetRoundness := Some 0.5;
                targetComplexity := Some 0.5; glyphStyle := Some Types.dense |}
             eq_refl).
  reflexivity.
Defined.

End GlyphCache.

(** * renderer/FrameBuffer.ts

    A typed array is the list of its elements, each read as a number; a
    write converts the number to the element type ([Js.toUint32],
    [Js.toUint8], [Js.fround]) and is dropped when the index is out of
    range, as stdpp's list insert is; a read out of range is [undefined],
    here [None]. *)
Module FrameBuffer.
Local Open Scope float_scope.

Record t := mk {
  width : nat;
  height : nat;
  chars : list float;
  colorR : list float;
  colorG : list float;
  colorB : list float;
  brightness : list float;
  dirty : list float
}.

(** [TypedArray.prototype.fill] *)
Definition fill (conv : float -> float) (arr : list float) (v : float) : list float :=
  replicate (length arr) (conv v).

Definition clear (fb : t) : t :=
  {| width := width fb; height := height fb;
     chars := fill Js.toUint32 (chars fb) 32;
     colorR := fill Js.toUint8 (colorR fb) 0;
     colorG := fill Js.toUint8 (colorG fb) 0;
     colorB := fill Js.toUint8 (colorB fb) 0;
     brightness := fill Js.fround (brightness fb) 0;
     dirty := fill Js.toUint8 (dirty fb) 1 |}.

(** [constructor(width, height)]: fresh arrays hold zeros, then [clear]. *)
Definition new (width height : nat) : t :=
  let size := (width * height)%nat in
  clear {| width := width; height := height;
           chars := replicate size 0; colorR := replicate size 0;
           colorG := replicate size 0; colorB := replicate size 0;
           brightness := replicate size 0; dirty := replicate size 0 |}.

(** [arr[idx] !== v]: [undefined] differs from every number. *)
Definition differs (arr : list float) (idx : nat) (v : float) : bool :=
  match arr !! idx with
  | Some stored => negb (stored =? v)
  | None => true
  end.

(** [if (arr[idx] !== v) { arr[idx] = v; changed = true }] *)
Definition writeIfDiffers (conv : float -> float) (arr : list float) (idx : nat)
    (v : float) (changed : bool) : list float * bool :=
  if differs arr idx v then (<[idx := conv v]> arr, true) else (arr, changed).

Definition set (fb : t) (x y : nat) (char r g b brightness_ : float) : t :=
  let idx := (y * width fb + x)%nat in
  let changed := false in
  let '(chars', changed) := writeIfDiffers Js.toUint32 (chars fb) idx char changed in
  let '(colorR', changed) := writeIfDiffers Js.toUint8 (colorR fb) idx r changed in
  let '(colorG', changed) := writeIfDiffers Js.toUint8 (colorG fb) idx g changed in
  let '(colorB', changed) := writeIfDiffers Js.toUint8 (colorB fb) idx b changed in
  let '(brightness', changed) :=
    writeIfDiffers Js.fround (brightness fb) idx brightness_ changed in
  {| width := width fb; height := height fb;
     chars := chars'; colorR := colorR'; colorG := colorG'; colorB := colorB';
     brightness := brightness';
     dirty := if changed then <[idx := Js.toUint8 1]> (dirty fb) else dirty fb |}.

(** [GlyphCell], with the character given by its code point. *)
Record GlyphCell := mkCell {
  cell_char : float;
  cell_r : float;
  cell_g : float;
  cell_b : float;
  cell_brightness : float
}.

(** [get(x, y)]; [None] where [String.fromCodePoint] raises a [RangeError]:
    out of range (the code point is [undefined]) or above 0x10FFFF. *)
Definition get (fb : t) (x y : nat) : option GlyphCell :=
  let idx := (y * width fb + x)%nat in
  match chars fb !! idx with
  | Some c =>
      if c <=? 1114111 then
        Some {| cell_char := c;
                cell_r := default nan (colorR fb !! idx);
                cell_g := default nan (colorG fb !! idx);
                cell_b := default nan (colorB fb !! idx);
                cell_brightness := default nan (brightness fb !! idx) |}
      else None
  | None => None
  end.

Definition isDirty (fb : t) (x y : nat) : bool :=
  match dirty fb !! (y * width fb + x)%nat with
  | Some d => d =? 1
  | None => false
  end.

Definition clearDirtyFlags (fb : t) : t :=
  {| width := width fb; height := height fb;
     chars := chars fb; colorR := colorR fb; colorG := colorG fb;
     colorB := colorB fb; brightness := brightness fb;
     dirty := fill Js.toUint8 (dirty fb) 0 |}.

Definition resize (fb : t) (newWidth newHeight : nat) : t :=
  new newWidth newHeight.

(** ** What [set] does to a cell *)

(** The arrays have the size of the grid. *)
Definition wf (fb : t) : Prop :=
  let size := (width fb * height fb)%nat in
  length (chars fb) = size /\ length (colorR fb) = size /\
  length (colorG fb) = size /\ length (colorB fb) = size /\
  length (brightness fb) = size /\ length (dirty fb) = size.

(** The stored values of cell [i] (without its flag). *)
Definition cellAt (fb : t) (i : nat) : list (option float) :=
  [chars fb !! i; colorR fb !! i; colorG fb !! i; colorB fb !! i;
   brightness fb !! i].

Lemma toUint8_one : Js.toUint8 1 = 1.
Proof. vm_compute. reflexivity. Qed.

Lemma length_fill conv arr v : length (fill conv arr v) = length arr.
Proof. apply length_replicate. Qed.

Lemma wf_new w h : wf (new w h).
Proof.
  unfold wf, new, clear. cbn [width height chars colorR colorG colorB brightness dirty].
  rewrite !length_fill, !length_replicate. repeat split.
Qed.

Ltac split_writes :=
  unfold set, writeIfDiffers;
  destruct (differs (chars _) _ _) eqn:?;
  destruct (differs (colorR _) _ _) eqn:?;
  destruct (differs (colorG _) _ _) eqn:?;
  destruct (differs (colorB _) _ _) eqn:?;
  destruct (differs (brightness _) _ _) eqn:?;
  cbn [width height chars colorR colorG colorB brightness dirty].

Lemma set_unchanged fb x y c r g b br :
  let idx := (y * width fb + x)%nat in
  differs (chars fb) idx c = false -> differs (colorR fb) idx r = false ->
  differs (colorG fb) idx g = false -> differs (colorB fb) idx b = false ->
  differs (brightness fb) idx br = false ->
  set fb x y c r g b br = fb.
Proof.
  intros idx H1 H2 H3 H4 H5. subst idx. unfold set, writeIfDiffers.
  rewrite H1, H2, H3, H4, H5. destruct fb; reflexivity.
Qed.

Lemma set_frame fb x y c r g b br j :
  j <> (y * width fb + x)%nat ->
  cellAt (set fb x y c r g b br) j = cellAt fb j /\
  dirty (set fb x y c r g b br) !! j = dirty fb !! j.
Proof.
  intros Hj. unfold cellAt. split_writes;
    rewrite ?(list_lookup_insert_ne _ _ _ _ (not_eq_sym Hj)); split; reflexivity.
Qed.

Lemma set_wf fb x y c r g b br : wf fb -> wf (set fb x y c r g b br).
Proof.
  unfold wf. intros H. split_writes; rewrite ?length_insert; exact H.
Qed.

Lemma set_flag fb x y c r g b br :
  let idx := (y * width fb + x)%nat in
  (idx < length (dirty fb))%nat ->
  set fb x y c r g b br <> fb ->
  dirty (set fb x y c r g b br) !! idx = Some 1.
Proof.
  intros idx Hidx Hne. subst idx. revert Hne. split_writes; intros Hne;
    try (rewrite list_lookup_insert_eq by exact Hidx; rewrite toUint8_one; reflexivity).
  exfalso. apply Hne. destruct fb; reflexivity.
Qed.

Lemma set_dirty_monotone fb x y c r g b br j :
  dirty fb !! j = Some 1 -> dirty (set fb x y c r g b br) !! j = Some 1.
Proof.
  intros Hj. split_writes; try exact Hj;
    (destruct (decide (j = (y * width fb + x)%nat)) as [->|Hne];
     [ rewrite list_lookup_insert_eq by (eapply lookup_lt_Some, Hj);
       rewrite toUint8_one; reflexivity
     | rewrite list_lookup_insert_ne by congruence; exact Hj ]).
Qed.

(** C9 as stated fails where it says that a differing value is stored: a
    brightness that is no float32 is stored rounded.  On a cleared 1x1
    buffer, [set(0, 0, 32, 0, 0, 0, 0.2)] differs from the stored brightness
    0, and afterwards the cell holds 0.20000000298023224, which is not
    0.2.  For the same reason the same call, repeated after
    [clearDirtyFlags], finds a difference again: it sets the flag to 1 and
    leaves the stored values as they were. *)
Lemma set_stores_counterexample :
  let fb1 := set (new 1 1) 0 0 32 0 0 0 0.2 in
  let fb2 := set (clearDirtyFlags fb1) 0 0 32 0 0 0 0.2 in
  differs (brightness (new 1 1)) 0 0.2 = true /\
  brightness fb1 !! 0%nat = Some 0.20000000298023224 /\
  differs (brightness fb1) 0 0.2 = true /\
  cellAt fb2 0 = cellAt fb1 0 /\
  isDirty (clearDirtyFlags fb1) 0 0 = false /\
  isDirty fb2 0 0 = true.
Proof. vm_compute. repeat split. Qed.

(** C9, amended.  On a buffer whose arrays have the size of the grid and
    for a cell inside it: when each of the five values is strictly equal
    ([===]) to the stored one, [set] leaves the whole buffer, flags
    included, as it is; otherwise every value that differs is written
    through the element conversion of its typed array (code point to
    Uint32, colour channels to Uint8, brightness rounded to float32) and
    every value that does not differ stays; whenever the call changes the
    buffer, the flag of the cell is 1 afterwards; no other cell's values or
    flag change, and the arrays keep their size. *)
Theorem set_cell_effect (fb : t) (x y : nat) (c r g b br : float) :
  wf fb -> (x < width fb)%nat -> (y < height fb)%nat ->
  let idx := (y * width fb + x)%nat in
  let fb' := set fb x y c r g b br in
  (differs (chars fb) idx c = false -> differs (colorR fb) idx r = false ->
   differs (colorG fb) idx g = false -> differs (colorB fb) idx b = false ->
   differs (brightness fb) idx br = false -> fb' = fb) /\
  chars fb' !! idx
    = (if differs (chars fb) idx c then Some (Js.toUint32 c) else chars fb !! idx) /\
  colorR fb' !! idx
    = (if differs (colorR fb) idx r then Some (Js.toUint8 r) else colorR fb !! idx) /\
  colorG fb' !! idx
    = (if differs (colorG fb) idx g then Some (Js.toUint8 g) else colorG fb !! idx) /\
  colorB fb' !! idx
    = (if differs (colorB fb) idx b then Some (Js.toUint8 b) else colorB fb !! idx) /\
  brightness fb' !! idx
    = (if differs (brightness fb) idx br then Some (Js.fround br)
       else brightness fb !! idx) /\
  (fb' <> fb -> isDirty fb' x y = true) /\
  (forall j, j <> idx ->
     cellAt fb' j = cellAt fb j /\ dirty fb' !! j = dirty fb !! j) /\
  wf fb'.
Proof.
  intros Hwf Hx Hy idx fb'.
  assert (Hidx : (idx < width fb * height fb)%nat) by (subst idx; nia).
  destruct Hwf as (L1 & L2 & L3 & L4 & L5 & L6).
  split; [apply set_unchanged|].
  assert (Hlook : forall conv arr v,
            length arr = (width fb * height fb)%nat ->
            fst (writeIfDiffers conv arr idx v false) !! idx
            = (if differs arr idx v then Some (conv v) else arr !! idx)).
  { intros conv arr v L. unfold writeIfDiffers. destruct (differs arr idx v).
    - cbn. apply list_lookup_insert_eq. lia.
    - reflexivity. }
  assert (Hchars : chars fb' = fst (writeIfDiffers Js.toUint32 (chars fb) idx c false)).
  { subst fb' idx. split_writes; reflexivity. }
  assert (HcolorR : colorR fb' = fst (writeIfDiffers Js.toUint8 (colorR fb) idx r false)).
  { subst fb' idx. split_writes; reflexivity. }
  assert (HcolorG : colorG fb' = fst (writeIfDiffers Js.toUint8 (colorG fb) idx g false)).
  { subst fb' idx. split_writes; reflexivity. }
  assert (HcolorB : colorB fb' = fst (writeIfDiffers Js.toUint8 (colorB fb) idx b false)).
  { subst fb' idx. split_writes; reflexivity. }
  assert (Hbr : brightness fb' = fst (writeIfDiffers Js.fround (brightness fb) idx br false)).
  { subst fb' idx. split_writes; reflexivity. }
  rewrite Hchars, HcolorR, HcolorG, HcolorB, Hbr, !Hlook by assumption.
  repeat (split; [reflexivity|]).
  split; [|split].
  - intros Hne. unfold isDirty.
    replace (width fb') with (width fb) by (subst fb'; split_writes; reflexivity).
    fold idx. subst fb' idx. rewrite set_flag; [reflexivity|lia|exact Hne].
  - intros j Hj. apply set_frame, Hj.
  - apply set_wf. repeat split; assumption.
Qed.

Lemma set_cell_effect_witness :
  wf (new 2 2) /\
  isDirty (set (clearDirtyFlags (new 2 2)) 1 1 65 255 128 0 0.75) 1 1 = true.
Proof.
  split; [apply wf_new|].
  refine (proj1 (proj2 (proj2 (proj2 (proj2 (proj2 (proj2
            (set_cell_effect (clearDirtyFlags (new 2 2)) 1 1 65 255 128 0 0.75
               _ _ _))))))) _).
  - repeat split.
  - cbn. lia.
  - cbn. lia.
  - vm_compute. discriminate.
Defined.

(** ** Construction, reading back, coordinates and flags *)

(** The cell that [clear] writes: a space, black, of brightness 0. *)
Definition blank : GlyphCell :=
  {| cell_char := 32; cell_r := 0; cell_g := 0; cell_b := 0; cell_brightness := 0 |}.

Lemma lookup_fill conv arr v i :
  (i < length arr)%nat -> fill conv arr v !! i = Some (conv v).
Proof. intros Hi. unfold fill. apply lookup_replicate_2, Hi. Qed.

(** X16.  After [clear], and so in a buffer that was just built or resized,
    every cell of the grid reads as a blank and is dirty; clearing a buffer
    gives the buffer that the constructor builds for the same size. *)
Theorem clear_blank (fb : t) (x y : nat) :
  wf fb -> (x < width fb)%nat -> (y < height fb)%nat ->
  get (clear fb) x y = Some blank /\
  isDirty (clear fb) x y = true /\
  clear fb = new (width fb) (height fb) /\
  resize fb (width fb) (height fb) = clear fb.
Proof.
  intros (L1 & L2 & L3 & L4 & L5 & L6) Hx Hy.
  assert (Hidx : (y * width fb + x < width fb * height fb)%nat) by nia.
  assert (Hnew : clear fb = new (width fb) (height fb)).
  { unfold new, clear, fill.
    cbn [width height chars colorR colorG colorB brightness dirty].
    rewrite !length_replicate, L1, L2, L3, L4, L5, L6. reflexivity. }
  repeat split; try (rewrite Hnew; reflexivity); try exact Hnew.
  - unfold get, clear. cbn [width chars colorR colorG colorB brightness].
    rewrite !lookup_fill by lia. reflexivity.
  - unfold isDirty, clear. cbn [width dirty].
    rewrite lookup_fill by lia. reflexivity.
Qed.

Lemma clear_blank_witness :
  get (clear (set (new 3 2) 2 1 64 255 255 255 1)) 2 1 = Some blank.
Proof.
  refine (proj1 (clear_blank (set (new 3 2) 2 1 64 255 255 255 1) 2 1 _ _ _)).
  - apply set_wf, wf_new.
  - vm_compute. lia.
  - vm_compute. lia.
Defined.

(** A value that the element conversion [conv] of a typed array leaves as it
    is, NaN apart: a value of the element type. *)
Definition storable (conv : float -> float) (v : float) : Prop :=
  conv v = v /\ (v =? v) = true.

Lemma set_chars fb x y c r g b br :
  chars (set fb x y c r g b br)
  = fst (writeIfDiffers Js.toUint32 (chars fb) (y * width fb + x) c false).
Proof. split_writes; reflexivity. Qed.

Lemma set_colorR fb x y c r g b br :
  colorR (set fb x y c r g b br)
  = fst (writeIfDiffers Js.toUint8 (colorR fb) (y * width fb + x) r false).
Proof. split_writes; reflexivity. Qed.

Lemma set_colorG fb x y c r g b br :
  colorG (set fb x y c r g b br)
  = fst (writeIfDiffers Js.toUint8 (colorG fb) (y * width fb + x) g false).
Proof. split_writes; reflexivity. Qed.

Lemma set_colorB fb x y c r g b br :
  colorB (set fb x y c r g b br)
  = fst (writeIfDiffers Js.toUint8 (colorB fb) (y * width fb + x) b false).
Proof. split_writes; reflexivity. Qed.

Lemma set_brightness fb x y c r g b br :
  brightness (set fb x y c r g b br)
  = fst (writeIfDiffers Js.fround (brightness fb) (y * width fb + x) br false).
Proof. split_writes; reflexivity. Qed.

Lemma set_keeps_width fb x y c r g b br : width (set fb x y c r g b br) = width fb.
Proof. split_writes; reflexivity. Qed.

Lemma stored_after conv arr idx v changed :
  (idx < length arr)%nat -> storable conv v ->
  exists s, fst (writeIfDiffers conv arr idx v changed) !! idx = Some s /\
            (s =? v) = true.
Proof.
  intros Hidx [Hconv Hv]. unfold writeIfDiffers, differs.
  destruct (lookup_lt_is_Some_2 arr idx Hidx) as [old Hold]. rewrite Hold.
  destruct (old =? v) eqn:E; cbn [negb fst].
  - exists old. auto.
  - exists v. rewrite list_lookup_insert_eq by exact Hidx. rewrite Hconv. auto.
Qed.

(** X17.  Reading back what was set.  For a cell of the grid and values of the
    element types (a code point up to 0x10FFFF, three bytes, a float32),
    [get] after [set] returns a cell whose five values are [===] to the
    ones given.  (They need not be the same numbers: [set] leaves a stored
    0 in place when it is given -0.) *)
Theorem get_after_set (fb : t) (x y : nat) (c r g b br : float) :
  wf fb -> (x < width fb)%nat -> (y < height fb)%nat ->
  storable Js.toUint32 c -> (c <=? 1114111) = true ->
  storable Js.toUint8 r -> storable Js.toUint8 g -> storable Js.toUint8 b ->
  storable Js.fround br ->
  exists cell, get (set fb x y c r g b br) x y = Some cell /\
    (cell_char cell =? c) = true /\ (cell_r cell =? r) = true /\
    (cell_g cell =? g) = true /\ (cell_b cell =? b) = true /\
    (cell_brightness cell =? br) = true.
Proof.
  intros (L1 & L2 & L3 & L4 & L5 & L6) Hx Hy Hc Hcp Hr Hg Hb Hbr.
  assert (Hidx : (y * width fb + x < width fb * height fb)%nat) by nia.
  unfold get. rewrite set_keeps_width, set_chars, set_colorR, set_colorG,
    set_colorB, set_brightness.
  destruct (stored_after Js.toUint32 (chars fb) (y * width fb + x) c false ltac:(lia) Hc) as (sc & -> & Ec).
  destruct (stored_after Js.toUint8 (colorR fb) (y * width fb + x) r false ltac:(lia) Hr) as (sr & -> & Er).
  destruct (stored_after Js.toUint8 (colorG fb) (y * width fb + x) g false ltac:(lia) Hg) as (sg & -> & Eg).
  destruct (stored_after Js.toUint8 (colorB fb) (y * width fb + x) b false ltac:(lia) Hb) as (sb & -> & Eb).
  destruct (stored_after Js.fround (brightness fb) (y * width fb + x) br false ltac:(lia) Hbr)
    as (sbr & -> & Ebr).
  rewrite (FloatOrder.eqb_leb_left sc c _ Ec), Hcp.
  eexists. split; [reflexivity|]. cbn. repeat split; assumption.
Qed.

Lemma get_after_set_witness :
  exists cell, get (set (new 2 2) 1 0 64 255 128 0 0.5) 1 0 = Some cell /\
               (cell_brightness cell =? 0.5) = true.
Proof.
  destruct (get_after_set (new 2 2) 1 0 64 255 128 0 0.5) as (cell & Hget & H);
    try (split; vm_compute; reflexivity); try (vm_compute; reflexivity);
    try (cbn; lia); [apply wf_new|].
  exists cell. split; [exact Hget|]. apply H.
Defined.

(** X18.  [set] does not check its coordinates.  A column beyond the width
    addresses the cell of the next row; and an index beyond the arrays
    changes nothing, since a typed array ignores such a write. *)
Theorem set_unchecked (fb : t) (x y : nat) (c r g b br : float) :
  set fb (x + width fb) y c r g b br = set fb x (S y) c r g b br /\
  (wf fb -> (width fb * height fb <= y * width fb + x)%nat ->
   set fb x y c r g b br = fb).
Proof.
  split.
  - unfold set. replace (y * width fb + (x + width fb))%nat
      with (S y * width fb + x)%nat by lia. reflexivity.
  - intros (L1 & L2 & L3 & L4 & L5 & L6) Hout. unfold set, writeIfDiffers, differs.
    rewrite !(lookup_ge_None_2 _ (y * width fb + x)) by lia.
    rewrite !list_insert_ge by lia. destruct fb; reflexivity.
Qed.

(** X19.  Flags only go up under [set], and only [clearDirtyFlags] (besides
    [clear]) takes them down: it leaves no cell dirty and no stored value
    changed. *)
Theorem dirty_flags (fb : t) (x y x' y' : nat) (c r g b br : float) :
  (isDirty fb x' y' = true -> isDirty (set fb x y c r g b br) x' y' = true) /\
  isDirty (clearDirtyFlags fb) x' y' = false /\
  get (clearDirtyFlags fb) x' y' = get fb x' y'.
Proof.
  repeat split.
  - unfold isDirty. rewrite set_keeps_width.
    set (j := (y' * width fb + x')%nat).
    destruct (dirty fb !! j) as [d|] eqn:Ed; [|discriminate]. intros Hd.
    split_writes; rewrite ?Ed; try exact Hd;
      (destruct (decide (j = (y * width fb + x)%nat)) as [<-|Hne];
       [ rewrite list_lookup_insert_eq by (eapply lookup_lt_Some, Ed);
         rewrite toUint8_one; reflexivity
       | rewrite list_lookup_insert_ne by congruence; rewrite Ed; exact Hd ]).
  - unfold isDirty, clearDirtyFlags. cbn [width dirty].
    destruct (fill Js.toUint8 (dirty fb) 0 !! (y' * width fb + x')%nat) as [d|] eqn:Ed;
      [|reflexivity].
    unfold fill in Ed. apply lookup_replicate in Ed as [-> _]. reflexivity.
Qed.

End FrameBuffer.

(** * renderer/TemporalCache.ts

    Typed arrays as in [FrameBuffer]. *)
Module TemporalCache.
Import Types.
Local Open Scope float_scope.

Record t := mk {
  width : nat;
  height : nat;
  depth : list float;
  entityIndex : list float;
  valid : list float;
  hitPosX : list float;
  hitPosY : list float;
  hitPosZ : list float;
  normalX : list float;
  normalY : list float;
  normalZ : list float;
  prevCameraPos : Vec3;
  prevCameraRot : Vec3
}.

Definition zeros (size : nat) : list float := replicate size 0.

Definition new (width height : nat) : t :=
  let size := (width * height)%nat in
  {| width := width; height := height;
     depth := zeros size;
     entityIndex := replicate size (Js.toInt16 (-1));
     valid := zeros size;
     hitPosX := zeros size; hitPosY := zeros size; hitPosZ := zeros size;
     normalX := zeros size; normalY := zeros size; normalZ := zeros size;
     prevCameraPos := {| x := 0; y := 0; z := 0 |};
     prevCameraRot := {| x := 0; y := 0; z := 0 |} |}.

Definition invalidateAll (tc : t) : t :=
  {| width := width tc; height := height tc;
     depth := depth tc; entityIndex := entityIndex tc;
     valid := replicate (length (valid tc)) (Js.toUint8 0);
     hitPosX := hitPosX tc; hitPosY := hitPosY tc; hitPosZ := hitPosZ tc;
     normalX := normalX tc; normalY := normalY tc; normalZ := normalZ tc;
     prevCameraPos := prevCameraPos tc; prevCameraRot := prevCameraRot tc |}.

(** [resize] reallocates the arrays and keeps the remembered camera. *)
Definition resize (tc : t) (newWidth newHeight : nat) : t :=
  let size := (newWidth * newHeight)%nat in
  {| width := newWidth; height := newHeight;
     depth := zeros size;
     entityIndex := replicate size (Js.toInt16 (-1));
     valid := zeros size;
     hitPosX := zeros size; hitPosY := zeros size; hitPosZ := zeros size;
     normalX := zeros size; normalY := zeros size; normalZ := zeros size;
     prevCameraPos := prevCameraPos tc; prevCameraRot := prevCameraRot tc |}.

Definition store (tc : t) (x y : nat) (depth_ entityIdx : float)
    (hitPos normal : Vec3) : t :=
  let idx := (y * width tc + x)%nat in
  {| width := width tc; height := height tc;
     depth := <[idx := Js.fround depth_]> (depth tc);
     entityIndex := <[idx := Js.toInt16 entityIdx]> (entityIndex tc);
     valid := <[idx := Js.toUint8 1]> (valid tc);
     hitPosX := <[idx := Js.fround (Types.x hitPos)]> (hitPosX tc);
     hitPosY := <[idx := Js.fround (Types.y hitPos)]> (hitPosY tc);
     hitPosZ := <[idx := Js.fround (Types.z hitPos)]> (hitPosZ tc);
     normalX := <[idx := Js.fround (Types.x normal)]> (normalX tc);
     normalY := <[idx := Js.fround (Types.y normal)]> (normalY tc);
     normalZ := <[idx := Js.fround (Types.z normal)]> (normalZ tc);
     prevCameraPos := prevCameraPos tc; prevCameraRot := prevCameraRot tc |}.

Definition storeMiss (tc : t) (x y : nat) : t :=
  let idx := (y * width tc + x)%nat in
  {| width := width tc; height := height tc;
     depth := depth tc;
     entityIndex := <[idx := Js.toInt16 (-1)]> (entityIndex tc);
     valid := <[idx := Js.toUint8 1]> (valid tc);
     hitPosX := hitPosX tc; hitPosY := hitPosY tc; hitPosZ := hitPosZ tc;
     normalX := normalX tc; normalY := normalY tc; normalZ := normalZ tc;
     prevCameraPos := prevCameraPos tc; prevCameraRot := prevCameraRot tc |}.

Definition isValid (tc : t) (x y : nat) : bool :=
  match valid tc !! (y * width tc + x)%nat with
  | Some v => v =? 1
  | None => false
  end.

(** The getters read [undefined] out of range; it is given as NaN, which
    every use treats alike (it is strictly equal to nothing and indexes no
    entity). *)
Definition getHitPos (tc : t) (x y : nat) : Vec3 :=
  let idx := (y * width tc + x)%nat in
  {| x := default nan (hitPosX tc !! idx);
     y := default nan (hitPosY tc !! idx);
     z := default nan (hitPosZ tc !! idx) |}.

Definition getNormal (tc : t) (x y : nat) : Vec3 :=
  let idx := (y * width tc + x)%nat in
  {| x := default nan (normalX tc !! idx);
     y := default nan (normalY tc !! idx);
     z := default nan (normalZ tc !! idx) |}.

Definition getEntityIndex (tc : t) (x y : nat) : float :=
  default nan (entityIndex tc !! (y * width tc + x)%nat).

Definition cameraChanged (tc : t) (camPos camRot : Vec3) : bool :=
  let threshold := 0.001 in
  let p := prevCameraPos tc in
  let r := prevCameraRot tc in
  (threshold <? abs (x camPos - x p)) ||
  (threshold <? abs (y camPos - y p)) ||
  (threshold <? abs (z camPos - z p)) ||
  (threshold <? abs (x camRot - x r)) ||
  (threshold <? abs (y camRot - y r)) ||
  (threshold <? abs (z camRot - z r)).

Definition updateCamera (tc : t) (camPos camRot : Vec3) : t :=
  {| width := width tc; height := height tc;
     depth := depth tc; entityIndex := entityIndex tc; valid := valid tc;
     hitPosX := hitPosX tc; hitPosY := hitPosY tc; hitPosZ := hitPosZ tc;
     normalX := normalX tc; normalY := normalY tc; normalZ := normalZ tc;
     prevCameraPos := {| x := x camPos; y := y camPos; z := z camPos |};
     prevCameraRot := {| x := x camRot; y := y camRot; z := z camRot |} |}.

(** ** Properties of the cache *)

(** The difference of a number with itself never exceeds the threshold:
    it is 0, or NaN for a NaN or an infinity, and no comparison with NaN
    holds. *)
Lemma self_difference_small (a : float) : (0.001 <? abs (a - a)) = false.
Proof.
  rewrite ltb_spec, abs_spec, sub_spec.
  destruct (Prim2SF a) as [s|s| |s m e]; try (destruct s; reflexivity);
    try reflexivity.
  unfold SF64sub, SFsub. cbv zeta. rewrite Z.sub_diag. reflexivity.
Qed.

Lemma cameraChanged_updateCamera tc camPos camRot :
  cameraChanged (updateCamera tc camPos camRot) camPos camRot = false.
Proof.
  unfold cameraChanged, updateCamera. cbn [prevCameraPos prevCameraRot x y z].
  rewrite !self_difference_small. reflexivity.
Qed.

Lemma toUint8_1 : Js.toUint8 1 = 1.
Proof. vm_compute. reflexivity. Qed.

Lemma one_eqb_one : (1 =? 1) = true.
Proof. vm_compute. reflexivity. Qed.

Lemma isValid_insert tc valid' (idx : nat) x' y' :
  valid' = <[idx := Js.toUint8 1]> (valid tc) ->
  (match valid tc !! (y' * width tc + x')%nat with
   | Some v => v =? 1 | None => false end) = true ->
  (match valid' !! (y' * width tc + x')%nat with
   | Some v => v =? 1 | None => false end) = true.
Proof.
  intros -> H. destruct (decide (idx = (y' * width tc + x')%nat)) as [->|Hne].
  - destruct (valid tc !! (y' * width tc + x')%nat) as [v|] eqn:Ev; [|discriminate].
    rewrite list_lookup_insert_eq by (eapply lookup_lt_Some, Ev).
    rewrite toUint8_1. exact one_eqb_one.
  - rewrite list_lookup_insert_ne by exact Hne. exact H.
Qed.

Lemma isValid_store_mono tc x y d e p n x' y' :
  isValid tc x' y' = true -> isValid (store tc x y d e p n) x' y' = true.
Proof.
  unfold isValid, store. cbn [valid width].
  apply (isValid_insert tc _ (y * width tc + x)). reflexivity.
Qed.

Lemma isValid_storeMiss_mono tc x y x' y' :
  isValid tc x' y' = true -> isValid (storeMiss tc x y) x' y' = true.
Proof.
  unfold isValid, storeMiss. cbn [valid width].
  apply (isValid_insert tc _ (y * width tc + x)). reflexivity.
Qed.

Lemma isValid_store tc x y d e p n :
  (y * width tc + x < length (valid tc))%nat ->
  isValid (store tc x y d e p n) x y = true.
Proof.
  intros H. unfold isValid, store. cbn [valid width].
  rewrite list_lookup_insert_eq by exact H. rewrite toUint8_1. exact one_eqb_one.
Qed.

Lemma isValid_storeMiss tc x y :
  (y * width tc + x < length (valid tc))%nat ->
  isValid (storeMiss tc x y) x y = true.
Proof.
  intros H. unfold isValid, storeMiss. cbn [valid width].
  rewrite list_lookup_insert_eq by exact H. rewrite toUint8_1. exact one_eqb_one.
Qed.

(** ** Reading back what was stored *)

(** The arrays have the size of the grid. *)
Definition wf (tc : t) : Prop :=
  let size := (width tc * height tc)%nat in
  length (depth tc) = size /\ length (entityIndex tc) = size /\
  length (valid tc) = size /\
  length (hitPosX tc) = size /\ length (hitPosY tc) = size /\
  length (hitPosZ tc) = size /\
  length (normalX tc) = size /\ length (normalY tc) = size /\
  length (normalZ tc) = size.

Lemma wf_new_cache w h : wf (new w h).
Proof.
  unfold wf, new, zeros. cbn. rewrite !length_replicate. repeat split.
Qed.

Lemma wf_resize_cache tc w h : wf (resize tc w h).
Proof.
  unfold wf, resize, zeros. cbn. rewrite !length_replicate. repeat split.
Qed.

Lemma wf_store_cache tc x y d e p n : wf tc -> wf (store tc x y d e p n).
Proof.
  unfold wf, store. cbn. rewrite !length_insert. trivial.
Qed.

(** What the cache holds for the pixel of index [i]. *)
Definition pixelAt (tc : t) (i : nat) : list (option float) :=
  [depth tc !! i; entityIndex tc !! i; valid tc !! i;
   hitPosX tc !! i; hitPosY tc !! i; hitPosZ tc !! i;
   normalX tc !! i; normalY tc !! i; normalZ tc !! i].

(** X20.  [store] and the getters.  For a pixel of the grid, what was stored is
    valid and reads back in the element types of the arrays: the hit
    position and the normal rounded to float32, the entity index as an
    Int16.  No other pixel changes, and the remembered camera stays. *)
Theorem store_reads_back (tc : t) (x y : nat) (d e : float) (p n : Vec3) :
  wf tc -> (x < width tc)%nat -> (y < height tc)%nat ->
  let tc' := store tc x y d e p n in
  isValid tc' x y = true /\
  getHitPos tc' x y
  = {| x := Js.fround (Types.x p); y := Js.fround (Types.y p);
       z := Js.fround (Types.z p) |} /\
  getNormal tc' x y
  = {| x := Js.fround (Types.x n); y := Js.fround (Types.y n);
       z := Js.fround (Types.z n) |} /\
  getEntityIndex tc' x y = Js.toInt16 e /\
  (forall i, i <> (y * width tc + x)%nat -> pixelAt tc' i = pixelAt tc i) /\
  prevCameraPos tc' = prevCameraPos tc /\ prevCameraRot tc' = prevCameraRot tc.
Proof.
  intros (L1 & L2 & L3 & L4 & L5 & L6 & L7 & L8 & L9) Hx Hy tc'.
  assert (Hidx : (y * width tc + x < width tc * height tc)%nat) by nia.
  subst tc'. unfold isValid, getHitPos, getNormal, getEntityIndex, pixelAt, store.
  cbn [width valid hitPosX hitPosY hitPosZ normalX normalY normalZ entityIndex
       depth prevCameraPos prevCameraRot].
  rewrite !list_lookup_insert_eq by lia. cbn [default].
  repeat split.
  intros i Hi. rewrite !list_lookup_insert_ne by congruence. reflexivity.
Qed.

Lemma store_reads_back_witness :
  getHitPos (store (new 2 2) 1 1 5 0 {| x := 0.1; y := 1; z := 1 |}
                   {| x := 0; y := 0; z := 1 |}) 1 1
  = {| x := Js.fround 0.1; y := Js.fround 1; z := Js.fround 1 |}.
Proof.
  refine (proj1 (proj2 (store_reads_back (new 2 2) 1 1 5 0
            {| x := 0.1; y := 1; z := 1 |} {| x := 0; y := 0; z := 1 |} _ _ _))).
  - apply wf_new_cache.
  - vm_compute. lia.
  - vm_compute. lia.
Defined.

(** ** Entity indices in the Int16 array *)

(** The integers from [lo], [n] of them. *)
Fixpoint zrange (lo : Z) (n : nat) : list Z :=
  match n with
  | O => []
  | S n' => lo :: zrange (lo + 1) n'
  end.

Lemma In_zrange n : forall lo i,
  (lo <= i < lo + Z.of_nat n)%Z -> In i (zrange lo n).
Proof.
  induction n as [|n IH]; intros lo i Hi; [lia|].
  cbn [zrange]. destruct (Z.eq_dec lo i) as [->|Hne]; [left; reflexivity|].
  right. apply IH. lia.
Qed.

Definition int16Exact (i : Z) : bool :=
  PrimFloat.Leibniz.eqb (Js.toInt16 (Js.ofZ i)) (Js.ofZ i).

Lemma int16_table : forallb int16Exact (zrange (-1) (Z.to_nat 32769)) = true.
Proof. vm_compute. reflexivity. Qed.

Lemma toInt16_exact (i : Z) :
  (-1 <= i < 32768)%Z -> Js.toInt16 (Js.ofZ i) = Js.ofZ i.
Proof.
  intros Hi. apply FloatAxioms.Leibniz.eqb_spec.
  pose proof int16_table as H. rewrite forallb_forall in H. apply H.
  apply In_zrange. lia.
Qed.

(** X21.  The index of the entity that a pixel shows comes back from the cache as
    it went in, as long as it is -1 (a miss) or below 32768, the range of
    the Int16 array; and [storeMiss] makes the pixel valid with index -1
    while the hit position, the normal and the depth of an earlier hit stay
    in place. *)
Theorem entityIndex_reads_back (tc : t) (x y : nat) (d : float) (i : Z) (p n : Vec3) :
  wf tc -> (x < width tc)%nat -> (y < height tc)%nat ->
  (-1 <= i < 32768)%Z ->
  getEntityIndex (store tc x y d (Js.ofZ i) p n) x y = Js.ofZ i /\
  getEntityIndex (storeMiss tc x y) x y = (-1)%float /\
  isValid (storeMiss tc x y) x y = true /\
  getHitPos (storeMiss tc x y) x y = getHitPos tc x y /\
  getNormal (storeMiss tc x y) x y = getNormal tc x y /\
  depth (storeMiss tc x y) = depth tc.
Proof.
  intros (L1 & L2 & L3 & L4 & L5 & L6 & L7 & L8 & L9) Hx Hy Hi.
  assert (Hidx : (y * width tc + x < width tc * height tc)%nat) by nia.
  unfold getEntityIndex, isValid, getHitPos, getNormal, store, storeMiss.
  cbn [width valid hitPosX hitPosY hitPosZ normalX normalY normalZ entityIndex depth].
  rewrite !list_lookup_insert_eq by lia. cbn [default].
  rewrite toInt16_exact by lia. repeat split.
Qed.

Lemma entityIndex_reads_back_witness :
  getEntityIndex (store (new 4 3) 3 2 7.5 (Js.ofZ 12) {| x := 0; y := 1; z := 2 |}
                        {| x := 0; y := 1; z := 0 |}) 3 2
  = Js.ofZ 12.
Proof.
  refine (proj1 (entityIndex_reads_back (new 4 3) 3 2 7.5 12
            {| x := 0; y := 1; z := 2 |} {| x := 0; y := 1; z := 0 |} _ _ _ _)).
  - apply wf_new_cache.
  - vm_compute. lia.
  - vm_compute. lia.
  - lia.
Defined.

(** ** Invalidation *)

(** X22.  In a cache that was just built, resized or invalidated no pixel is
    valid, inside the grid or outside it.  Invalidation writes the array
    of valid flags only: the size, the depths, the entity indices, the hit
    positions and the normals stay as they are, so all three getters read
    what they read before.  The constructor remembers the camera at the
    origin with zero rotation; [resize] and [invalidateAll] keep both the
    remembered position and the remembered rotation; [resize] takes the new
    size and reads entity index -1 and zero vectors inside the new grid. *)
Theorem nothing_valid (tc : t) (w h x y : nat) :
  isValid (new w h) x y = false /\
  isValid (resize tc w h) x y = false /\
  isValid (invalidateAll tc) x y = false /\
  (width (invalidateAll tc) = width tc /\
   height (invalidateAll tc) = height tc /\
   length (valid (invalidateAll tc)) = length (valid tc) /\
   depth (invalidateAll tc) = depth tc /\
   entityIndex (invalidateAll tc) = entityIndex tc /\
   hitPosX (invalidateAll tc) = hitPosX tc /\
   hitPosY (invalidateAll tc) = hitPosY tc /\
   hitPosZ (invalidateAll tc) = hitPosZ tc /\
   normalX (invalidateAll tc) = normalX tc /\
   normalY (invalidateAll tc) = normalY tc /\
   normalZ (invalidateAll tc) = normalZ tc) /\
  (getHitPos (invalidateAll tc) x y = getHitPos tc x y /\
   getNormal (invalidateAll tc) x y = getNormal tc x y /\
   getEntityIndex (invalidateAll tc) x y = getEntityIndex tc x y) /\
  (prevCameraPos (new w h) = {| x := 0; y := 0; z := 0 |} /\
   prevCameraRot (new w h) = {| x := 0; y := 0; z := 0 |}) /\
  (prevCameraPos (resize tc w h) = prevCameraPos tc /\
   prevCameraRot (resize tc w h) = prevCameraRot tc) /\
  (prevCameraPos (invalidateAll tc) = prevCameraPos tc /\
   prevCameraRot (invalidateAll tc) = prevCameraRot tc) /\
  (width (resize tc w h) = w /\ height (resize tc w h) = h /\
   ((x < w)%nat -> (y < h)%nat ->
    getEntityIndex (resize tc w h) x y = (-1)%float /\
    getHitPos (resize tc w h) x y = {| x := 0; y := 0; z := 0 |} /\
    getNormal (resize tc w h) x y = {| x := 0; y := 0; z := 0 |})).
Proof.
  assert (Hrep : forall n i (v : float), (v =? 1) = false ->
            match replicate n v !! i with Some u => u =? 1 | None => false end = false).
  { intros n i v Hv. destruct (replicate n v !! i) as [u|] eqn:Eu; [|reflexivity].
    apply lookup_replicate in Eu as [-> _]. exact Hv. }
  split; [|split; [|split]].
  - unfold isValid, new, zeros. cbn [width valid]. apply Hrep. vm_compute. reflexivity.
  - unfold isValid, resize, zeros. cbn [width valid]. apply Hrep. vm_compute. reflexivity.
  - unfold isValid, invalidateAll. cbn [width valid]. apply Hrep. vm_compute. reflexivity.
  - split; [|split; [|split; [|split; [|split]]]].
    + unfold invalidateAll. cbn [width height valid depth entityIndex hitPosX hitPosY
        hitPosZ normalX normalY normalZ]. rewrite length_replicate.
      repeat split; reflexivity.
    + repeat split; reflexivity.
    + split; reflexivity.
    + split; reflexivity.
    + split; reflexivity.
    + split; [reflexivity|]. split; [reflexivity|]. intros Hx Hy.
      assert (Hidx : (y * w + x < w * h)%nat) by nia.
      unfold getEntityIndex, getHitPos, getNormal, resize, zeros.
      cbn [width entityIndex hitPosX hitPosY hitPosZ normalX normalY normalZ].
      rewrite !lookup_replicate_2 by exact Hidx.
      repeat split; vm_compute; reflexivity.
Qed.

(** ** The remembered camera *)

Lemma nan_difference_small (a : float) : (0.001 <? abs (nan - a)) = false.
Proof.
  rewrite ltb_spec, abs_spec, sub_spec.
  change (Prim2SF nan) with S754_nan. reflexivity.
Qed.

(** X23.  A pose that was just remembered is never a change, whatever its
    numbers (NaN and the infinities included); and a pose whose six
    numbers are NaN is never a change against any remembered pose, since no
    comparison with NaN holds: the frame then reuses what it has. *)
Theorem camera_memory (tc : t) (camPos camRot : Vec3) :
  cameraChanged (updateCamera tc camPos camRot) camPos camRot = false /\
  cameraChanged tc {| x := nan; y := nan; z := nan |}
                   {| x := nan; y := nan; z := nan |} = false /\
  (forall i, pixelAt (updateCamera tc camPos camRot) i = pixelAt tc i).
Proof.
  split; [|split].
  - unfold cameraChanged, updateCamera. cbn [prevCameraPos prevCameraRot x y z].
    rewrite !self_difference_small. reflexivity.
  - unfold cameraChanged. cbn [x y z]. rewrite !nan_difference_small. reflexivity.
  - intros i. reflexivity.
Qed.

End TemporalCache.

(** * renderer/Camera.ts *)
Module Camera.
Import Types.
Local Open Scope float_scope.

Definition CHAR_ASPECT_RATIO : float := 0.5.
Definition Math_PI : float := 3.141592653589793.

Section WithMath.
Variable math : Js.MathLib.

Definition createRay (cam : Camera) (x y screenWidth screenHeight : float) : Ray :=
  let fovRad := fov cam * Math_PI / 180 in
  let tanHalfFov := Js.Math_tan math (fovRad / 2) in
  let aspectRatio := (screenWidth / screenHeight) * CHAR_ASPECT_RATIO in
  let ndcX := (2 * (x + 0.5) / screenWidth - 1) * aspectRatio * tanHalfFov in
  let ndcY := (1 - 2 * (y + 0.5) / screenHeight) * tanHalfFov in
  let pitch := Types.x (cam_rotation cam) in
  let yaw := Types.y (cam_rotation cam) in
  let cp := Js.Math_cos math pitch in
  let sp := Js.Math_sin math pitch in
  let cy := Js.Math_cos math yaw in
  let sy := Js.Math_sin math yaw in
  let rightX := cy in
  let rightY := 0 in
  let rightZ := - sy in
  let upX := sy * sp in
  let upY := cp in
  let upZ := cy * sp in
  let fwdX := - sy * cp in
  let fwdY := sp in
  let fwdZ := - cy * cp in
  let dirWorld := vec3.normalize
    {| x := ndcX * rightX + ndcY * upX + fwdX;
       y := ndcX * rightY + ndcY * upY + fwdY;
       z := ndcX * rightZ + ndcY * upZ + fwdZ |} in
  {| origin := cam_position cam; ray_direction := dirWorld |}.

End WithMath.
End Camera.

(** * getMaxSteps of renderer/AdaptiveQuality.ts, on binary64 *)
Module AdaptiveSteps.
Local Open Scope float_scope.

Definition FRAME_DEADLINE_MS : float := 12.
Definition Math_SQRT2 : float := 1.4142135623730951.

Definition getMaxSteps (x y screenW screenH : float) : float :=
  let cx := (x / screenW - 0.5) * 2 in
  let cy := (y / screenH - 0.5) * 2 in
  let distFromCenter := sqrt (cx * cx + cy * cy) / Math_SQRT2 in
  let minSteps := 24 in
  let maxSteps := 64 in
  Js.Math_floor (maxSteps - distFromCenter * (maxSteps - minSteps)).

End AdaptiveSteps.

(** * animateGlyph of renderer/Animator.ts *)
Module Animator.
Import Types.
Local Open Scope float_scope.

Definition clamp (v lo hi : float) : float := Js.Math_max lo (Js.Math_min hi v).

Section WithCache.
Variable math : Js.MathLib.
Variable GlyphRecord : Type.
Variable queryBest : GlyphCache.GlyphQueryParams -> GlyphRecord.
(** [glyph.normalizedCoverage] *)
Variable glyphCoverage : GlyphRecord -> float.

Definition animateGlyph (glyph : GlyphRecord) (material : Material) (time : float)
    (originalParams : GlyphCache.GlyphQueryParams)
    (glyphCache : GlyphCache.t GlyphRecord)
    : option GlyphRecord * GlyphCache.t GlyphRecord :=
  let sin := Js.Math_sin math in
  match motionBehavior material with
  | None => (Some glyph, glyphCache)
  | Some mb =>
      let speed := motion_speed mb in
      match motion_type mb with
      | motion_static => (Some glyph, glyphCache)
      | motion_pulse =>
          let pulseFactor := 1 + sin (time * speed) * 0.3 in
          let newCoverage := clamp (glyphCoverage glyph * pulseFactor) 0 1 in
          GlyphCache.select _ queryBest glyphCache
            {| GlyphCache.targetCoverage := newCoverage;
               GlyphCache.targetRoundness := GlyphCache.targetRoundness originalParams;
               GlyphCache.targetComplexity := GlyphCache.targetComplexity originalParams;
               GlyphCache.glyphStyle := GlyphCache.glyphStyle originalParams |}
      | motion_flicker =>
          let offset := sin (time * speed * 17.3) * sin (time * speed * 11.1) * 0.15 in
          let flickerCoverage := clamp (glyphCoverage glyph + offset) 0 1 in
          GlyphCache.select _ queryBest glyphCache
            {| GlyphCache.targetCoverage := flickerCoverage;
               GlyphCache.targetRoundness := GlyphCache.targetRoundness originalParams;
               GlyphCache.targetComplexity := GlyphCache.targetComplexity originalParams;
               GlyphCache.glyphStyle := GlyphCache.glyphStyle originalParams |}
      | motion_flow =>
          let flowComplexity := (sin (time * speed) + 1) / 2 in
          GlyphCache.select _ queryBest glyphCache
            {| GlyphCache.targetCoverage := GlyphCache.targetCoverage originalParams;
               GlyphCache.targetRoundness := GlyphCache.targetRoundness originalParams;
               GlyphCache.targetComplexity := Some flowComplexity;
               GlyphCache.glyphStyle := GlyphCache.glyphStyle originalParams |}
      end
  end.

End WithCache.
End Animator.

(** * renderer/RenderLoop.ts: the single-threaded frame

    The shader [computeLighting] (renderer/Lighting.ts) and the clock are
    parameters: the frame calls the first as a pure function of the hit and
    the scene, and asks the second, every 64th pixel and only under adaptive
    quality, whether the frame deadline has passed.  A [TypeError] raised
    inside the frame is the result [None].  The counter [traces] is not in
    the source: it counts the calls of [raymarch]. *)
Module RenderLoop.
Import Types.
Local Open Scope float_scope.

(** [RAMP = ' .,:;=+*#%@'], by code point. *)
Definition RAMP : list float := [32; 46; 44; 58; 59; 61; 43; 42; 35; 37; 64].

(** [RAMP[i]]: [undefined] unless [i] is an index of the string. *)
Definition rampAt (i : float) : option float :=
  match Js.toIndex i with
  | Some k => RAMP !! k
  | None => None
  end.

Definition RAMP_length : float := 11.

Record LightingResult := mkLit {
  lit_brightness : float;
  lit_r : float;
  lit_g : float;
  lit_b : float
}.

Section WithPipeline.
Variable math : Js.MathLib.
Variable GlyphRecord : Type.
Variable queryBest : GlyphCache.GlyphQueryParams -> GlyphRecord.
Variable glyphCoverage : GlyphRecord -> float.
(** [glyph.char.codePointAt(0)] *)
Variable glyphChar : GlyphRecord -> float.
Variable computeLighting : Vec3 -> Vec3 -> Material -> Scene -> LightingResult.
(** [performance.now() - frameStart > FRAME_DEADLINE_MS], asked at a pixel. *)
Variable deadlinePassed : nat -> bool.

Record t := mk {
  scene : Scene;
  glyphCache : option (GlyphCache.t GlyphRecord);
  world : World.t;
  temporal : TemporalCache.t;
  useTemporalReuse : bool;
  useAdaptiveQuality : bool;
  traces : nat
}.

Definition hasAnyFlicker (rl : t) : bool :=
  existsb (fun l => match flicker l with Some _ => true | None => false end)
          (lights (scene rl)).

Definition isMoving (e : Entity) : bool :=
  match velocity e, angularVelocity e with
  | None, None => false
  | _, _ => true
  end.

Definition hasAnyMoving (rl : t) : bool :=
  existsb isMoving (entities (scene rl)).

(** [scene.entities[eIdx]] *)
Definition entityAt (s : Scene) (eIdx : float) : option Entity :=
  match Js.toIndex eIdx with
  | Some k => entities s !! k
  | None => None
  end.

Definition withScene (rl : t) (s : Scene) (w : World.t) : t :=
  {| scene := s; glyphCache := glyphCache rl; world := w;
     temporal := temporal rl; useTemporalReuse := useTemporalReuse rl;
     useAdaptiveQuality := useAdaptiveQuality rl; traces := traces rl |}.




Definition withTemporal (rl : t) (tc : TemporalCache.t) : t :=
  {| scene := scene rl; glyphCache := glyphCache rl; world := world rl;
     temporal := tc; useTemporalReuse := useTemporalReuse rl;
     useAdaptiveQuality := useAdaptiveQuality rl; traces := traces rl |}.

Definition withGlyphCache (rl : t) (gc : option (GlyphCache.t GlyphRecord)) : t :=
  {| scene := scene rl; glyphCache := gc; world := world rl;
     temporal := temporal rl; useTemporalReuse := useTemporalReuse rl;
     useAdaptiveQuality := useAdaptiveQuality rl; traces := traces rl |}.

Definition countTrace (rl : t) : t :=
  {| scene := scene rl; glyphCache := glyphCache rl; world := world rl;
     temporal := temporal rl; useTemporalReuse := useTemporalReuse rl;
     useAdaptiveQuality := useAdaptiveQuality rl; traces := S (traces rl) |}.

(** [this.glyphCache ? this.glyphCache.select(params) : null] *)
Definition selectGlyph (rl : t) (params : GlyphCache.GlyphQueryParams)
    : option GlyphRecord * t :=
  match glyphCache rl with
  | Some gc =>
      let '(glyph, gc') := GlyphCache.select _ queryBest gc params in
      (glyph, withGlyphCache rl (Some gc'))
  | None => (None, rl)
  end.

(** How the body of the pixel loop ends. *)
Inductive Outcome :=
| Next (rl : t) (fb : FrameBuffer.t)   (* [continue], or the end of the body *)
| Break                                 (* the deadline: leave the row *)
| Throw.                                (* a [TypeError] *)

(** Lines 191-205: shading of a reused hit. *)
Definition reshade (rl : t) (fb : FrameBuffer.t) (x y : nat) (eIdx : float) : Outcome :=
  let hitPos := TemporalCache.getHitPos (temporal rl) x y in
  let normal := TemporalCache.getNormal (temporal rl) x y in
  match entityAt (scene rl) eIdx with
  | None => Throw
  | Some entity =>
      let material := material entity in
      let lit := computeLighting hitPos normal material (scene rl) in
      let params :=
        {| GlyphCache.targetCoverage := lit_brightness lit;
           GlyphCache.targetRoundness := Some (abs (Types.z normal));
           GlyphCache.targetComplexity := Some (roughness material);
           GlyphCache.glyphStyle := glyphStyle material |} in
      let '(glyph, rl) := selectGlyph rl params in
      let char :=
        match glyph with
        | Some g => Some (glyphChar g)
        | None => rampAt (Js.Math_floor (lit_brightness lit * (RAMP_length - 1)))
        end in
      match char with
      | None => Throw
      | Some c =>
          Next rl (FrameBuffer.set fb x y c (lit_r lit) (lit_g lit) (lit_b lit)
                                   (lit_brightness lit))
      end
  end.

(** Lines 213-247: the full trace of a pixel. *)
Definition tracePixel (rl : t) (fb : FrameBuffer.t) (x y : nat) : Outcome :=
  let width := FrameBuffer.width fb in
  let height := FrameBuffer.height fb in
  let fx := Js.ofZ (Z.of_nat x) in
  let fy := Js.ofZ (Z.of_nat y) in
  let fw := Js.ofZ (Z.of_nat width) in
  let fh := Js.ofZ (Z.of_nat height) in
  let ray := Camera.createRay math (camera (scene rl)) fx fy fw fh in
  let maxSteps :=
    if useAdaptiveQuality rl
    then match Js.truncZ (AdaptiveSteps.getMaxSteps fx fy fw fh) with
         | Some m => Z.to_nat m
         | None => O
         end
    else 64%nat in
  let result := Raymarch.raymarch math ray (world rl) maxSteps in
  let rl := countTrace rl in
  match result with
  | HitResult position normal material distance entityIndex =>
      let lit := computeLighting position normal material (scene rl) in
      let params :=
        {| GlyphCache.targetCoverage := lit_brightness lit;
           GlyphCache.targetRoundness := Some (abs (Types.z normal));
           GlyphCache.targetComplexity := Some (roughness material);
           GlyphCache.glyphStyle := glyphStyle material |} in
      let '(glyph, rl) := selectGlyph rl params in
      let '(glyph, rl) :=
        match glyph, motionBehavior material, glyphCache rl with
        | Some g, Some _, Some gc =>
            let pixelOffset :=
              Js.Math_sin math (Types.x position * 1.7 + Types.y position * 2.3
                                + Types.z position * 1.1) in
            let '(g', gc') :=
              Animator.animateGlyph math _ queryBest glyphCoverage g material
                (time (scene rl) + pixelOffset * 0.5) params gc in
            (g', withGlyphCache rl (Some gc'))
        | _, _, _ => (glyph, rl)
        end in
      let char :=
        match glyph with
        | Some g => Some (glyphChar g)
        | None =>
            rampAt (Animator.clamp
                      (Js.Math_floor (lit_brightness lit * (RAMP_length - 1)))
                      0 (RAMP_length - 1))
        end in
      match char with
      | None => Throw
      | Some c =>
          let fb := FrameBuffer.set fb x y c (lit_r lit) (lit_g lit) (lit_b lit)
                                    (lit_brightness lit) in
          Next (withTemporal rl
                  (TemporalCache.store (temporal rl) x y distance
                     (Js.ofZ entityIndex) position normal))
               fb
      end
  | MissResult =>
      let bg := backgroundColor (environment (scene rl)) in
      let fb := FrameBuffer.set fb x y 32 (Types.r bg) (Types.g bg) (Types.b bg) 0 in
      Next (withTemporal rl (TemporalCache.storeMiss (temporal rl) x y)) fb
  end.

(** The body of the pixel loop. *)
Definition renderPixel (cameraChanged anyMoving anyFlicker : bool)
    (rl : t) (fb : FrameBuffer.t) (x y : nat) : Outcome :=
  let width := FrameBuffer.width fb in
  if (useAdaptiveQuality rl && ((x + y * width) mod 64 =? 0)%nat
      && deadlinePassed (x + y * width))%bool
  then Break
  else
    if (useTemporalReuse rl && negb cameraChanged
        && TemporalCache.isValid (temporal rl) x y)%bool
    then
      let eIdx := TemporalCache.getEntityIndex (temporal rl) x y in
      if eIdx =? -1 then
        if negb anyMoving then Next rl fb else tracePixel rl fb x y
      else
        let entityMoving :=
          match entityAt (scene rl) eIdx with
          | Some entity => isMoving entity
          | None => false
          end in
        if negb entityMoving then
          if anyFlicker then reshade rl fb x y eIdx else Next rl fb
        else tracePixel rl fb x y
    else tracePixel rl fb x y.

(** [for (let x = 0; x < width; x++)], over the columns that are left. *)
Fixpoint renderRow (cameraChanged anyMoving anyFlicker : bool) (y : nat)
    (xs : list nat) (rl : t) (fb : FrameBuffer.t) : option (t * FrameBuffer.t) :=
  match xs with
  | [] => Some (rl, fb)
  | x :: xs' =>
      match renderPixel cameraChanged anyMoving anyFlicker rl fb x y with
      | Next rl' fb' => renderRow cameraChanged anyMoving anyFlicker y xs' rl' fb'
      | Break => Some (rl, fb)
      | Throw => None
      end
  end.

(** [for (let y = 0; y < height; y++)], over the rows that are left. *)
Fixpoint renderRows (cameraChanged anyMoving anyFlicker : bool) (width : nat)
    (ys : list nat) (rl : t) (fb : FrameBuffer.t) : option (t * FrameBuffer.t) :=
  match ys with
  | [] => Some (rl, fb)
  | y :: ys' =>
      match renderRow cameraChanged anyMoving anyFlicker y (seq 0 width) rl fb with
      | Some (rl', fb') =>
          renderRows cameraChanged anyMoving anyFlicker width ys' rl' fb'
      | None => None
      end
  end.

Definition renderFrameSingleThread (rl : t) (frameBuffer : FrameBuffer.t)
    : option (t * FrameBuffer.t) :=
  let width := FrameBuffer.width frameBuffer in
  let height := FrameBuffer.height frameBuffer in
  let cam := camera (scene rl) in
  let cameraChanged :=
    TemporalCache.cameraChanged (temporal rl) (cam_position cam) (cam_rotation cam) in
  let anyMoving := hasAnyMoving rl in
  let anyFlicker := hasAnyFlicker rl in
  match renderRows cameraChanged anyMoving anyFlicker width (seq 0 height)
                   rl frameBuffer with
  | Some (rl', fb') =>
      Some (withTemporal rl'
              (TemporalCache.updateCamera (temporal rl')
                 (cam_position cam) (cam_rotation cam)),
            fb')
  | None => None
  end.

End WithPipeline.

(** ** A frame of a static scene under an unchanged camera *)

Section Facts.
Context (math : Js.MathLib) {GlyphRecord : Type}
  (queryBest : GlyphCache.GlyphQueryParams -> GlyphRecord)
  (glyphCoverage glyphChar : GlyphRecord -> float)
  (computeLighting : Vec3 -> Vec3 -> Material -> Scene -> LightingResult)
  (deadlinePassed : nat -> bool).

Local Abbreviation renderPixel :=
  (renderPixel math GlyphRecord queryBest glyphCoverage glyphChar
               computeLighting deadlinePassed).
Local Abbreviation renderRow :=
  (renderRow math GlyphRecord queryBest glyphCoverage glyphChar
             computeLighting deadlinePassed).
Local Abbreviation renderRows :=
  (renderRows math GlyphRecord queryBest glyphCoverage glyphChar
              computeLighting deadlinePassed).
Local Abbreviation renderFrameSingleThread :=
  (renderFrameSingleThread math GlyphRecord queryBest glyphCoverage glyphChar
                           computeLighting deadlinePassed).
Local Abbreviation tracePixel :=
  (tracePixel math GlyphRecord queryBest glyphCoverage glyphChar computeLighting).
Local Abbreviation reshade :=
  (reshade GlyphRecord queryBest glyphChar computeLighting).
Local Abbreviation selectGlyph := (selectGlyph GlyphRecord queryBest).

(** What a pixel leaves alone: the scene, the world and the two switches. *)
Definition sameSetup (rl rl' : t GlyphRecord) : Prop :=
  scene _ rl' = scene _ rl /\ world _ rl' = world _ rl /\
  useTemporalReuse _ rl' = useTemporalReuse _ rl /\
  useAdaptiveQuality _ rl' = useAdaptiveQuality _ rl.

Lemma sameSetup_refl rl : sameSetup rl rl.
Proof. repeat split. Qed.

Lemma sameSetup_trans rl1 rl2 rl3 :
  sameSetup rl1 rl2 -> sameSetup rl2 rl3 -> sameSetup rl1 rl3.
Proof.
  intros (A1 & A2 & A3 & A4) (B1 & B2 & B3 & B4).
  repeat split; congruence.
Qed.

(** The cache grows over the grid of the buffer. *)
Definition fits (tc : TemporalCache.t) (fb : FrameBuffer.t) : Prop :=
  TemporalCache.width tc = FrameBuffer.width fb /\
  length (TemporalCache.valid tc)
  = (FrameBuffer.width fb * FrameBuffer.height fb)%nat.

(** One more pixel written by a trace, or nothing. *)
Definition stepped (x y : nat) (rl rl' : t GlyphRecord)
    (fb fb' : FrameBuffer.t) : Prop :=
  sameSetup rl rl' /\
  FrameBuffer.width fb' = FrameBuffer.width fb /\
  FrameBuffer.height fb' = FrameBuffer.height fb /\
  (temporal _ rl' = temporal _ rl \/
   (exists d e p n,
      temporal _ rl' = TemporalCache.store (temporal _ rl) x y d e p n) \/
   temporal _ rl' = TemporalCache.storeMiss (temporal _ rl) x y).

Lemma set_width fb x y c r_ g_ b_ br :
  FrameBuffer.width (FrameBuffer.set fb x y c r_ g_ b_ br) = FrameBuffer.width fb.
Proof. FrameBuffer.split_writes; reflexivity. Qed.

Lemma set_height fb x y c r_ g_ b_ br :
  FrameBuffer.height (FrameBuffer.set fb x y c r_ g_ b_ br) = FrameBuffer.height fb.
Proof. FrameBuffer.split_writes; reflexivity. Qed.

Lemma selectGlyph_setup rl params :
  sameSetup rl (snd (selectGlyph rl params)) /\
  temporal _ (snd (selectGlyph rl params)) = temporal _ rl /\
  traces _ (snd (selectGlyph rl params)) = traces _ rl.
Proof.
  unfold RenderLoop.selectGlyph. destruct (glyphCache _ rl) as [gc|].
  - destruct (GlyphCache.select _ _ gc params) as [glyph gc']. cbn.
    repeat split.
  - cbn. repeat split.
Qed.

(** The cache after a pixel: as before with the pixel valid already, or
    with the pixel stored. *)
Definition advanced (x y : nat) (tc tc' : TemporalCache.t) : Prop :=
  (exists d e p n, tc' = TemporalCache.store tc x y d e p n) \/
  tc' = TemporalCache.storeMiss tc x y.

Lemma tracePixel_next rl fb x y rl' fb' :
  tracePixel rl fb x y = Next _ rl' fb' ->
  sameSetup rl rl' /\
  advanced x y (temporal _ rl) (temporal _ rl') /\
  traces _ rl' = S (traces _ rl) /\
  FrameBuffer.width fb' = FrameBuffer.width fb /\
  FrameBuffer.height fb' = FrameBuffer.height fb.
Proof.
  unfold RenderLoop.tracePixel.
  destruct (Raymarch.raymarch _ _ _ _) as [pos n m d e|].
  - match goal with |- context [selectGlyph ?r ?p] =>
      pose proof (selectGlyph_setup r p) as (Hs & Ht & Hn);
      destruct (selectGlyph r p) as [glyph rl1] end.
    cbn [snd] in Hs, Ht, Hn.
    match goal with |- context [let '(g, r) := ?e in _] =>
      assert (Hanim : sameSetup rl1 (snd e) /\ temporal _ (snd e) = temporal _ rl1
                      /\ traces _ (snd e) = traces _ rl1);
      [| destruct e as [glyph2 rl2] ] end.
    { destruct glyph as [g0|]; [|repeat split].
      destruct (motionBehavior m); [|repeat split].
      destruct (glyphCache _ rl1); [|repeat split].
      destruct (Animator.animateGlyph _ _ _ _ _ _ _ _ _). repeat split. }
    cbn [snd] in Hanim. destruct Hanim as (Hs2 & Ht2 & Hn2).
    match goal with |- context [match ?c with Some _ => _ | None => Throw _ end] =>
      destruct c as [ch|] end; [|discriminate].
    intros [= <- <-]. cbn [temporal traces RenderLoop.withTemporal].
    rewrite set_width, set_height.
    split; [|split; [|split; [|split; reflexivity]]].
    + destruct Hs as (A1 & A2 & A3 & A4), Hs2 as (B1 & B2 & B3 & B4).
      cbn in A1, A2, A3, A4. repeat split; cbn; congruence.
    + left. rewrite Ht2, Ht. cbn [temporal RenderLoop.countTrace]. eauto.
    + rewrite Hn2, Hn. reflexivity.
  - intros [= <- <-]. cbn [temporal traces RenderLoop.withTemporal RenderLoop.countTrace].
    rewrite set_width, set_height.
    split; [repeat split|]. split; [right; reflexivity|]. auto.
Qed.

Lemma reshade_next rl fb x y eIdx rl' fb' :
  reshade rl fb x y eIdx = Next _ rl' fb' ->
  sameSetup rl rl' /\ temporal _ rl' = temporal _ rl /\
  traces _ rl' = traces _ rl /\
  FrameBuffer.width fb' = FrameBuffer.width fb /\
  FrameBuffer.height fb' = FrameBuffer.height fb.
Proof.
  unfold RenderLoop.reshade. destruct (entityAt _ _) as [entity|]; [|discriminate].
  match goal with |- context [selectGlyph ?r ?p] =>
    pose proof (selectGlyph_setup r p) as (Hs & Ht & Hn);
    destruct (selectGlyph r p) as [glyph rl1] end.
  cbn [snd] in Hs, Ht, Hn.
  match goal with |- context [match ?c with Some _ => _ | None => Throw _ end] =>
    destruct c as [ch|] end; [|discriminate].
  intros [= <- <-]. rewrite set_width, set_height. auto.
Qed.

Lemma advanced_facts x y tc tc' :
  advanced x y tc tc' ->
  TemporalCache.width tc' = TemporalCache.width tc /\
  length (TemporalCache.valid tc') = length (TemporalCache.valid tc) /\
  (forall x' y', TemporalCache.isValid tc x' y' = true ->
                 TemporalCache.isValid tc' x' y' = true) /\
  ((y * TemporalCache.width tc + x < length (TemporalCache.valid tc))%nat ->
   TemporalCache.isValid tc' x y = true).
Proof.
  intros [(d & e & p & n & ->)| ->].
  - split; [reflexivity|]. split; [apply length_insert|]. split.
    + intros x' y'. apply TemporalCache.isValid_store_mono.
    + apply TemporalCache.isValid_store.
  - split; [reflexivity|]. split; [apply length_insert|]. split.
    + intros x' y'. apply TemporalCache.isValid_storeMiss_mono.
    + apply TemporalCache.isValid_storeMiss.
Qed.

(** What the body of the pixel loop does when it goes on to the next
    pixel: it reused the pixel, which was valid, without a trace, or it
    traced once and stored the pixel. *)
Lemma renderPixel_next cc am af rl fb x y rl' fb' :
  renderPixel cc am af rl fb x y = Next _ rl' fb' ->
  sameSetup rl rl' /\
  FrameBuffer.width fb' = FrameBuffer.width fb /\
  FrameBuffer.height fb' = FrameBuffer.height fb /\
  ((temporal _ rl' = temporal _ rl /\
    TemporalCache.isValid (temporal _ rl) x y = true /\
    traces _ rl' = traces _ rl) \/
   (advanced x y (temporal _ rl) (temporal _ rl') /\
    traces _ rl' = S (traces _ rl))).
Proof.
  unfold RenderLoop.renderPixel.
  destruct (_ && _ && deadlinePassed _)%bool; [discriminate|].
  assert (Htrace : tracePixel rl fb x y = Next _ rl' fb' ->
    sameSetup rl rl' /\
    FrameBuffer.width fb' = FrameBuffer.width fb /\
    FrameBuffer.height fb' = FrameBuffer.height fb /\
    ((temporal _ rl' = temporal _ rl /\
      TemporalCache.isValid (temporal _ rl) x y = true /\
      traces _ rl' = traces _ rl) \/
     (advanced x y (temporal _ rl) (temporal _ rl') /\
      traces _ rl' = S (traces _ rl)))).
  { intros H. apply tracePixel_next in H as (H1 & H2 & H3 & H4 & H5). auto 10. }
  destruct (useTemporalReuse _ rl && negb cc
            && TemporalCache.isValid (temporal _ rl) x y)%bool eqn:Hreuse;
    [|exact Htrace].
  apply andb_true_iff in Hreuse as [_ Hvalid].
  destruct (_ =? _).
  - destruct (negb am); [|exact Htrace].
    intros [= <- <-]. split; [apply sameSetup_refl|]. auto 10.
  - destruct (negb _); [|exact Htrace].
    destruct af.
    + intros H. apply reshade_next in H as (H1 & H2 & H3 & H4 & H5). auto 10.
    + intros [= <- <-]. split; [apply sameSetup_refl|]. auto 10.
Qed.

Lemma renderPixel_no_break cc am af rl fb x y :
  useAdaptiveQuality _ rl = false -> renderPixel cc am af rl fb x y <> Break _.
Proof.
  intros Hq. unfold RenderLoop.renderPixel. rewrite Hq. cbn [andb].
  assert (Htrace : tracePixel rl fb x y <> Break _).
  { unfold RenderLoop.tracePixel.
    destruct (Raymarch.raymarch _ _ _ _); [|discriminate].
    destruct (selectGlyph _ _) as [glyph rl1].
    match goal with |- context [let '(g, r) := ?e in _] =>
      destruct e as [glyph2 rl2] end.
    match goal with |- context [match ?c with Some _ => _ | None => Throw _ end] =>
      destruct c end; discriminate. }
  destruct (_ && _ && _)%bool; [|exact Htrace].
  destruct (_ =? _).
  - destruct (negb am); [discriminate|exact Htrace].
  - destruct (negb _); [|exact Htrace].
    destruct af; [|discriminate].
    unfold RenderLoop.reshade. destruct (entityAt _ _); [|discriminate].
    destruct (selectGlyph _ _) as [glyph rl1].
    match goal with |- context [match ?c with Some _ => _ | None => Throw _ end] =>
      destruct c end; discriminate.
Qed.

(** The state of the loops: the setup is that of the start, the buffer has
    its size, the cache fits it. *)
Definition inFrame (rl0 : t GlyphRecord) (fb0 : FrameBuffer.t)
    (rl : t GlyphRecord) (fb : FrameBuffer.t) : Prop :=
  sameSetup rl0 rl /\
  FrameBuffer.width fb = FrameBuffer.width fb0 /\
  FrameBuffer.height fb = FrameBuffer.height fb0 /\
  fits (temporal _ rl) fb.

Lemma renderPixel_inFrame cc am af rl0 fb0 rl fb x y rl' fb' :
  inFrame rl0 fb0 rl fb ->
  (x < FrameBuffer.width fb)%nat -> (y < FrameBuffer.height fb)%nat ->
  renderPixel cc am af rl fb x y = Next _ rl' fb' ->
  inFrame rl0 fb0 rl' fb' /\
  (forall x' y', TemporalCache.isValid (temporal _ rl) x' y' = true ->
                 TemporalCache.isValid (temporal _ rl') x' y' = true) /\
  TemporalCache.isValid (temporal _ rl') x y = true.
Proof.
  intros (Hs & Hw & Hh & Hfw & Hfl) Hx Hy H.
  apply renderPixel_next in H as (Hs' & Hw' & Hh' & [(Ht & Hv & _)|(Ha & _)]);
    unfold inFrame, fits.
  - rewrite Ht. split; [|auto].
    split; [eapply sameSetup_trans; eassumption|].
    split; [congruence|]. split; [congruence|].
    split; [congruence|]. rewrite Hw', Hh'. exact Hfl.
  - apply advanced_facts in Ha as (A1 & A2 & A3 & A4).
    split; [|split; [exact A3|]].
    + split; [eapply sameSetup_trans; eassumption|].
      split; [congruence|]. split; [congruence|].
      split; [congruence|]. rewrite Hw', Hh', A2. exact Hfl.
    + apply A4. rewrite Hfw, Hfl. nia.
Qed.

Lemma renderRow_inFrame cc am af rl0 fb0 y xs : forall rl fb rl' fb',
  useAdaptiveQuality _ rl0 = false ->
  inFrame rl0 fb0 rl fb ->
  Forall (fun x => (x < FrameBuffer.width fb0)%nat) xs ->
  (y < FrameBuffer.height fb0)%nat ->
  renderRow cc am af y xs rl fb = Some (rl', fb') ->
  inFrame rl0 fb0 rl' fb' /\
  (forall x' y', TemporalCache.isValid (temporal _ rl) x' y' = true ->
                 TemporalCache.isValid (temporal _ rl') x' y' = true) /\
  (forall x, x ∈ xs -> TemporalCache.isValid (temporal _ rl') x y = true).
Proof.
  induction xs as [|x xs IH]; intros rl fb rl' fb' Hq Hin Hxs Hy H.
  - cbn in H. injection H as <- <-. split; [exact Hin|]. split; [auto|].
    intros x Hx. apply elem_of_nil in Hx. contradiction.
  - cbn [RenderLoop.renderRow] in H.
    inversion Hxs as [|? ? Hx Hxs']; subst.
    destruct (renderPixel cc am af rl fb x y) as [rl1 fb1| |] eqn:Hp;
      [| |discriminate].
    + pose proof Hin as (Hs & Hw & Hh & Hf).
      destruct (renderPixel_inFrame cc am af rl0 fb0 rl fb x y rl1 fb1)
        as (Hin1 & Hmono1 & Hv1); [exact Hin|lia|lia|exact Hp|].
      destruct (IH rl1 fb1 rl' fb' Hq Hin1 Hxs' Hy H) as (Hin' & Hmono' & Hv').
      split; [exact Hin'|]. split; [auto|].
      intros x0 Hx0. apply elem_of_cons in Hx0 as [->|Hx0]; auto.
    + exfalso. apply (renderPixel_no_break cc am af rl fb x y); [|exact Hp].
      destruct Hin as ((_ & _ & _ & Hq') & _). congruence.
Qed.

Lemma seq_bound n : Forall (fun x => (x < n)%nat) (seq 0 n).
Proof. apply Forall_forall. intros x Hx. apply elem_of_seq in Hx. lia. Qed.

Lemma renderRows_inFrame cc am af rl0 fb0 ys : forall rl fb rl' fb',
  useAdaptiveQuality _ rl0 = false ->
  inFrame rl0 fb0 rl fb ->
  Forall (fun y => (y < FrameBuffer.height fb0)%nat) ys ->
  renderRows cc am af (FrameBuffer.width fb0) ys rl fb = Some (rl', fb') ->
  inFrame rl0 fb0 rl' fb' /\
  (forall x' y', TemporalCache.isValid (temporal _ rl) x' y' = true ->
                 TemporalCache.isValid (temporal _ rl') x' y' = true) /\
  (forall x y, (x < FrameBuffer.width fb0)%nat -> y ∈ ys ->
               TemporalCache.isValid (temporal _ rl') x y = true).
Proof.
  induction ys as [|y ys IH]; intros rl fb rl' fb' Hq Hin Hys H.
  - cbn in H. injection H as <- <-. split; [exact Hin|]. split; [auto|].
    intros x y _ Hy. apply elem_of_nil in Hy. contradiction.
  - cbn [RenderLoop.renderRows] in H.
    inversion Hys as [|? ? Hy Hys']; subst.
    destruct (renderRow cc am af y (seq 0 (FrameBuffer.width fb0)) rl fb)
      as [[rl1 fb1]|] eqn:Hrow; [|discriminate].
    destruct (renderRow_inFrame cc am af rl0 fb0 y _ rl fb rl1 fb1 Hq Hin
                (seq_bound _) Hy Hrow) as (Hin1 & Hmono1 & Hv1).
    destruct (IH rl1 fb1 rl' fb' Hq Hin1 Hys' H) as (Hin' & Hmono' & Hv').
    split; [exact Hin'|]. split; [auto|].
    intros x0 y0 Hx0 Hy0. apply elem_of_cons in Hy0 as [->|Hy0]; [|auto].
    apply Hmono', Hv1, elem_of_seq. lia.
Qed.

(** ** A frame that reuses every pixel *)

Lemma existsb_false_elem {A} (f : A -> bool) l a :
  existsb f l = false -> a ∈ l -> f a = false.
Proof.
  intros H Ha. destruct (f a) eqn:Ef; [|reflexivity].
  rewrite <- H. symmetry. apply existsb_exists. exists a.
  split; [apply list_elem_of_In, Ha|exact Ef].
Qed.

Lemma entityAt_still (rl : t GlyphRecord) eIdx entity :
  hasAnyMoving _ rl = false -> entityAt (scene _ rl) eIdx = Some entity ->
  isMoving entity = false.
Proof.
  unfold RenderLoop.hasAnyMoving, RenderLoop.entityAt. intros H He.
  destruct (Js.toIndex eIdx) as [k|]; [|discriminate].
  apply (existsb_false_elem _ _ _ H). eapply list_elem_of_lookup_2, He.
Qed.

Lemma renderPixel_reuse rl fb x y :
  useTemporalReuse _ rl = true -> hasAnyMoving _ rl = false ->
  TemporalCache.isValid (temporal _ rl) x y = true ->
  renderPixel false false false rl fb x y = Next _ rl fb \/
  renderPixel false false false rl fb x y = Break _.
Proof.
  intros Hreuse Hstill Hvalid. unfold RenderLoop.renderPixel.
  destruct (_ && _ && deadlinePassed _)%bool; [right; reflexivity|left].
  rewrite Hreuse, Hvalid. cbn [andb negb].
  destruct (_ =? _); [reflexivity|].
  destruct (entityAt _ _) as [entity|] eqn:He; [|reflexivity].
  rewrite (entityAt_still rl _ entity Hstill He). reflexivity.
Qed.

Lemma renderRow_reuse rl fb y xs :
  useTemporalReuse _ rl = true -> hasAnyMoving _ rl = false ->
  (forall x, x ∈ xs -> TemporalCache.isValid (temporal _ rl) x y = true) ->
  renderRow false false false y xs rl fb = Some (rl, fb).
Proof.
  intros Hreuse Hstill. induction xs as [|x xs IH]; intros Hvalid; [reflexivity|].
  cbn [RenderLoop.renderRow].
  destruct (renderPixel_reuse rl fb x y Hreuse Hstill) as [-> | ->].
  - apply Hvalid, list_elem_of_here.
  - apply IH. intros x0 Hx0. apply Hvalid, list_elem_of_further, Hx0.
  - reflexivity.
Qed.

Lemma renderRows_reuse rl fb width ys :
  useTemporalReuse _ rl = true -> hasAnyMoving _ rl = false ->
  (forall x y, (x < width)%nat -> y ∈ ys ->
     TemporalCache.isValid (temporal _ rl) x y = true) ->
  renderRows false false false width ys rl fb = Some (rl, fb).
Proof.
  intros Hreuse Hstill. induction ys as [|y ys IH]; intros Hvalid; [reflexivity|].
  cbn [RenderLoop.renderRows]. rewrite renderRow_reuse; try assumption.
  - apply IH. intros x y0 Hx Hy0. apply Hvalid; [exact Hx|].
    apply list_elem_of_further, Hy0.
  - intros x Hx. apply Hvalid; [|apply list_elem_of_here].
    apply elem_of_seq in Hx. lia.
Qed.

(** All pixels of the grid of [fb] are valid. *)
Definition allValid (tc : TemporalCache.t) (fb : FrameBuffer.t) : Prop :=
  forall x y, (x < FrameBuffer.width fb)%nat -> (y < FrameBuffer.height fb)%nat ->
    TemporalCache.isValid tc x y = true.

(** Under temporal reuse, with no moving entity and no flickering light,
    a frame whose camera the cache remembers and whose pixels are all
    valid writes nothing and traces nothing. *)
Lemma frame_reuse rl fb :
  useTemporalReuse _ rl = true ->
  hasAnyMoving _ rl = false -> hasAnyFlicker _ rl = false ->
  TemporalCache.cameraChanged (temporal _ rl)
    (cam_position (camera (scene _ rl))) (cam_rotation (camera (scene _ rl)))
  = false ->
  allValid (temporal _ rl) fb ->
  renderFrameSingleThread rl fb
  = Some (withTemporal _ rl
            (TemporalCache.updateCamera (temporal _ rl)
               (cam_position (camera (scene _ rl)))
               (cam_rotation (camera (scene _ rl)))),
          fb).
Proof.
  intros Hreuse Hstill Hflicker Hcam Hvalid.
  unfold RenderLoop.renderFrameSingleThread.
  rewrite Hcam, Hstill, Hflicker, renderRows_reuse; try assumption; [reflexivity|].
  intros x y Hx Hy. apply Hvalid; [exact Hx|]. apply elem_of_seq in Hy. lia.
Qed.

(** After a frame without adaptive quality every pixel is valid and the
    cache remembers the camera of the frame. *)
Lemma frame_validates rl fb rl1 fb1 :
  useAdaptiveQuality _ rl = false -> fits (temporal _ rl) fb ->
  renderFrameSingleThread rl fb = Some (rl1, fb1) ->
  sameSetup rl rl1 /\
  FrameBuffer.width fb1 = FrameBuffer.width fb /\
  FrameBuffer.height fb1 = FrameBuffer.height fb /\
  fits (temporal _ rl1) fb1 /\
  allValid (temporal _ rl1) fb1 /\
  TemporalCache.cameraChanged (temporal _ rl1)
    (cam_position (camera (scene _ rl))) (cam_rotation (camera (scene _ rl)))
  = false.
Proof.
  intros Hq Hfits. unfold RenderLoop.renderFrameSingleThread.
  destruct (renderRows _ _ _ _ _ _ _) as [[rl' fb']|] eqn:Hrows; [|discriminate].
  intros [= <- <-].
  destruct (fun Hin Hys => renderRows_inFrame _ _ _ rl fb _ rl fb rl' fb' Hq
                             Hin Hys Hrows) as
    ((Hs & Hw & Hh & Hfw & Hfl) & _ & Hv); [|apply seq_bound|].
  { split; [apply sameSetup_refl|]. auto. }
  split; [exact Hs|]. split; [exact Hw|]. split; [exact Hh|]. split; [|split].
  - split; [exact Hfw|exact Hfl].
  - intros x y Hx Hy. unfold TemporalCache.isValid.
    cbn [temporal RenderLoop.withTemporal TemporalCache.updateCamera
         TemporalCache.valid TemporalCache.width].
    apply Hv; [lia|]. apply elem_of_seq. lia.
  - cbn [temporal RenderLoop.withTemporal].
    apply TemporalCache.cameraChanged_updateCamera.
Qed.

(** No entity has a velocity or an angular velocity, no light flickers. *)
Definition static (s : Scene) : Prop :=
  Forall (fun e => velocity e = None /\ angularVelocity e = None) (entities s) /\
  Forall (fun l => flicker l = None) (lights s).

Lemma static_no_moving (rl : t GlyphRecord) :
  static (scene _ rl) -> hasAnyMoving _ rl = false /\ hasAnyFlicker _ rl = false.
Proof.
  intros [He Hl]. unfold RenderLoop.hasAnyMoving, RenderLoop.hasAnyFlicker. split.
  - induction He as [|e es [Hv Ha] _ IH]; [reflexivity|].
    cbn [existsb]. unfold isMoving at 1. rewrite Hv, Ha. exact IH.
  - induction Hl as [|l ls Hf _ IH]; [reflexivity|].
    cbn [existsb]. rewrite Hf. exact IH.
Qed.

(** C4.  A frame is rendered with temporal reuse on and adaptive quality
    off, on a cache that fits the buffer, and returns.  Then every pixel
    is valid; and the next frame, on a scene that has the same camera
    position and rotation, no entity velocity or angular velocity and no
    flickering light, returns whatever buffer of the same size it is given
    exactly as it was, with the number of sphere traces, the glyph cache
    and the validity of the pixels unchanged.  In particular, on the output
    of the first frame, with its dirty flags cleared or not, the code
    points, colours and brightnesses remain those of the first frame. *)
Theorem static_second_frame (rl : t GlyphRecord) (fb : FrameBuffer.t)
    (rl1 : t GlyphRecord) (fb1 : FrameBuffer.t) (scene' : Scene) :
  useTemporalReuse _ rl = true ->
  useAdaptiveQuality _ rl = false ->
  fits (temporal _ rl) fb ->
  renderFrameSingleThread rl fb = Some (rl1, fb1) ->
  cam_position (camera scene') = cam_position (camera (scene _ rl)) ->
  cam_rotation (camera scene') = cam_rotation (camera (scene _ rl)) ->
  static scene' ->
  allValid (temporal _ rl1) fb1 /\
  (forall fbIn,
     FrameBuffer.width fbIn = FrameBuffer.width fb1 ->
     FrameBuffer.height fbIn = FrameBuffer.height fb1 ->
     exists rl2,
       renderFrameSingleThread (withScene _ rl1 scene' (world _ rl1)) fbIn
       = Some (rl2, fbIn) /\
       traces _ rl2 = traces _ rl1 /\
       glyphCache _ rl2 = glyphCache _ rl1 /\
       TemporalCache.valid (temporal _ rl2) = TemporalCache.valid (temporal _ rl1)) /\
  (exists rl2 fb2,
     renderFrameSingleThread (withScene _ rl1 scene' (world _ rl1))
       (FrameBuffer.clearDirtyFlags fb1)
     = Some (rl2, fb2) /\
     traces _ rl2 = traces _ rl1 /\
     FrameBuffer.chars fb2 = FrameBuffer.chars fb1 /\
     FrameBuffer.colorR fb2 = FrameBuffer.colorR fb1 /\
     FrameBuffer.colorG fb2 = FrameBuffer.colorG fb1 /\
     FrameBuffer.colorB fb2 = FrameBuffer.colorB fb1 /\
     FrameBuffer.brightness fb2 = FrameBuffer.brightness fb1).
Proof.
  intros Hreuse Hq Hfits Hframe Hpos Hrot Hstatic.
  destruct (frame_validates rl fb rl1 fb1 Hq Hfits Hframe)
    as ((_ & _ & Hreuse1 & _) & _ & _ & _ & Hvalid & Hcam).
  split; [exact Hvalid|].
  assert (Hsecond : forall fbIn,
     FrameBuffer.width fbIn = FrameBuffer.width fb1 ->
     FrameBuffer.height fbIn = FrameBuffer.height fb1 ->
     exists rl2,
       renderFrameSingleThread (withScene _ rl1 scene' (world _ rl1)) fbIn
       = Some (rl2, fbIn) /\
       traces _ rl2 = traces _ rl1 /\
       glyphCache _ rl2 = glyphCache _ rl1 /\
       TemporalCache.valid (temporal _ rl2) = TemporalCache.valid (temporal _ rl1)).
  { intros fbIn Hw Hh.
    set (rl1' := withScene _ rl1 scene' (world _ rl1)).
    destruct (static_no_moving rl1' Hstatic) as [Hstill Hflicker].
    eexists. split.
    - apply frame_reuse.
      + cbn. congruence.
      + exact Hstill.
      + exact Hflicker.
      + cbn [rl1' scene temporal RenderLoop.withScene]. rewrite Hpos, Hrot. exact Hcam.
      + intros x y Hx Hy. cbn [rl1' temporal RenderLoop.withScene].
        apply Hvalid; congruence.
    - repeat split. }
  split; [exact Hsecond|].
  destruct (Hsecond (FrameBuffer.clearDirtyFlags fb1) eq_refl eq_refl)
    as (rl2 & H2 & Ht & _).
  exists rl2, (FrameBuffer.clearDirtyFlags fb1). repeat split; assumption.
Qed.

(** ** A frame that traces every pixel *)

Lemma renderPixel_is_trace cc am af rl fb x y :
  useAdaptiveQuality _ rl = false ->
  (useTemporalReuse _ rl && negb cc)%bool = false ->
  renderPixel cc am af rl fb x y = tracePixel rl fb x y.
Proof.
  intros Hq Hr. unfold RenderLoop.renderPixel. rewrite Hq, Hr. reflexivity.
Qed.

Lemma renderRow_traces cc am af rl0 y xs : forall rl fb rl' fb',
  useAdaptiveQuality _ rl0 = false ->
  (useTemporalReuse _ rl0 && negb cc)%bool = false ->
  sameSetup rl0 rl ->
  renderRow cc am af y xs rl fb = Some (rl', fb') ->
  sameSetup rl0 rl' /\ traces _ rl' = (traces _ rl + length xs)%nat.
Proof.
  induction xs as [|x xs IH]; intros rl fb rl' fb' Hq Hr Hs H.
  - cbn in H. injection H as <- <-. split; [exact Hs|]. cbn. lia.
  - cbn [RenderLoop.renderRow] in H.
    pose proof Hs as (_ & _ & S3 & S4).
    rewrite renderPixel_is_trace in H by congruence.
    destruct (tracePixel rl fb x y) as [rl1 fb1| |] eqn:Hp; [| |discriminate].
    + apply tracePixel_next in Hp as (Hs1 & _ & Ht & _).
      destruct (IH rl1 fb1 rl' fb' Hq Hr (sameSetup_trans _ _ _ Hs Hs1) H)
        as (Hs' & Ht').
      split; [exact Hs'|]. rewrite Ht', Ht. cbn [length]. lia.
    + exfalso. apply (renderPixel_no_break cc am af rl fb x y); [congruence|].
      rewrite renderPixel_is_trace by congruence. exact Hp.
Qed.

Lemma renderRows_traces cc am af rl0 width ys : forall rl fb rl' fb',
  useAdaptiveQuality _ rl0 = false ->
  (useTemporalReuse _ rl0 && negb cc)%bool = false ->
  sameSetup rl0 rl ->
  renderRows cc am af width ys rl fb = Some (rl', fb') ->
  sameSetup rl0 rl' /\ traces _ rl' = (traces _ rl + width * length ys)%nat.
Proof.
  induction ys as [|y ys IH]; intros rl fb rl' fb' Hq Hr Hs H.
  - cbn in H. injection H as <- <-. split; [exact Hs|]. cbn. lia.
  - cbn [RenderLoop.renderRows] in H.
    destruct (renderRow cc am af y (seq 0 width) rl fb) as [[rl1 fb1]|] eqn:Hrow;
      [|discriminate].
    destruct (renderRow_traces cc am af rl0 y _ rl fb rl1 fb1 Hq Hr Hs Hrow)
      as (Hs1 & Ht1).
    destruct (IH rl1 fb1 rl' fb' Hq Hr Hs1 H) as (Hs' & Ht').
    split; [exact Hs'|]. rewrite Ht', Ht1, length_seq. cbn [length]. lia.
Qed.

(** X24.  Without adaptive quality, a frame that returns after the camera has
    moved (by more than the threshold in some coordinate), or with temporal
    reuse switched off, has traced every pixel of the buffer exactly once;
    afterwards every pixel is valid and the cache remembers the camera. *)
Theorem moved_camera_traces_all (rl : t GlyphRecord) (fb : FrameBuffer.t)
    (rl1 : t GlyphRecord) (fb1 : FrameBuffer.t) :
  useAdaptiveQuality _ rl = false ->
  fits (temporal _ rl) fb ->
  useTemporalReuse _ rl = false \/
  TemporalCache.cameraChanged (temporal _ rl)
    (cam_position (camera (scene _ rl))) (cam_rotation (camera (scene _ rl)))
  = true ->
  renderFrameSingleThread rl fb = Some (rl1, fb1) ->
  traces _ rl1
  = (traces _ rl + FrameBuffer.width fb * FrameBuffer.height fb)%nat /\
  allValid (temporal _ rl1) fb1 /\
  TemporalCache.cameraChanged (temporal _ rl1)
    (cam_position (camera (scene _ rl))) (cam_rotation (camera (scene _ rl)))
  = false.
Proof.
  intros Hq Hfits Hwhy Hframe.
  destruct (frame_validates rl fb rl1 fb1 Hq Hfits Hframe)
    as (_ & _ & _ & _ & Hvalid & Hcam).
  split; [|split; assumption].
  unfold RenderLoop.renderFrameSingleThread in Hframe.
  destruct (renderRows _ _ _ _ _ _ _) as [[rl' fb']|] eqn:Hrows; [|discriminate].
  injection Hframe as <- <-.
  apply (renderRows_traces _ _ _ rl) in Hrows as (_ & Ht);
    [|exact Hq| |apply sameSetup_refl].
  - cbn [traces RenderLoop.withTemporal]. rewrite Ht, length_seq. reflexivity.
  - destruct Hwhy as [-> | ->]; [reflexivity|apply andb_false_r].
Qed.

(** ** A frame whose deadline has passed *)

Lemma renderRow_deadline cc am af y k rest xs : forall rl fb,
  useAdaptiveQuality _ rl = true ->
  (forall i, deadlinePassed i = true) ->
  ((k + y * FrameBuffer.width fb) mod 64 = 0)%nat ->
  renderRow cc am af y (xs ++ k :: rest) rl fb = renderRow cc am af y xs rl fb.
Proof.
  induction xs as [|x xs IH]; intros rl fb Hq Hd Hk.
  - cbn [app RenderLoop.renderRow]. unfold RenderLoop.renderPixel.
    rewrite Hq, Hd. apply Nat.eqb_eq in Hk. rewrite Hk. reflexivity.
  - cbn [app RenderLoop.renderRow].
    destruct (renderPixel cc am af rl fb x y) as [rl1 fb1| |] eqn:Hp;
      [|reflexivity|reflexivity].
    apply renderPixel_next in Hp as ((_ & _ & _ & Hq1) & Hw & _).
    apply IH; [congruence|exact Hd|].
    rewrite Hw. exact Hk.
Qed.

Lemma renderRows_deadline cc am af rl fb ys :
  useAdaptiveQuality _ rl = true ->
  (forall i, deadlinePassed i = true) ->
  (FrameBuffer.width fb mod 64 = 0)%nat ->
  renderRows cc am af (FrameBuffer.width fb) ys rl fb = Some (rl, fb).
Proof.
  intros Hq Hd Hw. induction ys as [|y ys IH]; [reflexivity|].
  cbn [RenderLoop.renderRows].
  assert (Hrow : renderRow cc am af y (seq 0 (FrameBuffer.width fb)) rl fb
                 = Some (rl, fb)).
  { destruct (FrameBuffer.width fb) as [|w] eqn:Ew; [reflexivity|].
    change (seq 0 (S w)) with ([] ++ 0%nat :: seq 1 w).
    rewrite renderRow_deadline; [reflexivity|exact Hq|exact Hd|].
    rewrite Ew. cbn [Nat.add].
    apply Nat.Div0.mod_divides. apply Nat.Div0.mod_divides in Hw as [c Hc].
    exists (y * c)%nat. rewrite Hc. lia. }
  rewrite Hrow. exact IH.
Qed.

(** X25.  Under adaptive quality, with a clock that reports the deadline as
    passed at every check: the deadline ends the row it is met in, not the
    frame.  A row is rendered up to its first pixel whose index in the
    buffer is a multiple of 64; and in a buffer whose width is a multiple
    of 64 the frame writes and traces nothing, and still records the camera
    pose as the one that the cache was filled for. *)
Theorem deadline_ends_rows (rl : t GlyphRecord) (fb : FrameBuffer.t) :
  useAdaptiveQuality _ rl = true ->
  (forall i, deadlinePassed i = true) ->
  (forall cc am af y k,
     (k < FrameBuffer.width fb)%nat ->
     ((k + y * FrameBuffer.width fb) mod 64 = 0)%nat ->
     renderRow cc am af y (seq 0 (FrameBuffer.width fb)) rl fb
     = renderRow cc am af y (seq 0 k) rl fb) /\
  ((FrameBuffer.width fb mod 64 = 0)%nat ->
   renderFrameSingleThread rl fb
   = Some (withTemporal _ rl
             (TemporalCache.updateCamera (temporal _ rl)
                (cam_position (camera (scene _ rl)))
                (cam_rotation (camera (scene _ rl)))),
           fb)).
Proof.
  intros Hq Hd. split.
  - intros cc am af y k Hk Hmod.
    replace (FrameBuffer.width fb) with (k + S (FrameBuffer.width fb - S k))%nat
      at 1 by lia.
    rewrite seq_app. cbn [seq Nat.add].
    apply renderRow_deadline; assumption.
  - intros Hw. unfold RenderLoop.renderFrameSingleThread.
    rewrite renderRows_deadline by assumption. reflexivity.
Qed.

(** ** A scene in which nothing moves *)




End Facts.

(** A frame to run: the lone sphere seen from (0,1,6), two pixels, a
    constant shader, no glyph database. *)
Definition demoScene : Scene :=
  {| time := 0;
     camera := {| cam_position := {| x := 0; y := 1; z := 6 |};
                  cam_rotation := {| x := 0; y := 0; z := 0 |};
                  fov := 60; near := 0.1; far := 100 |};
     environment := {| ambientLight := 0.2;
                       backgroundColor := {| r := 0; g := 0; b := 0 |};
                       fogDensity := None; fogColor := None;
                       globalIllumination := None |};
     lights := [];
     entities := [World.unitSphereAt {| x := 0; y := 1; z := 0 |} "sphere_1"
                    World.EMPTY_MATERIAL] |}.

Definition demoLoop : t unit :=
  {| scene := demoScene; glyphCache := None;
     world := World.new (entities demoScene);
     temporal := TemporalCache.new 2 1;
     useTemporalReuse := true; useAdaptiveQuality := false; traces := 0 |}.

Definition demoShader (hitPos normal : Vec3) (m : Material) (s : Scene)
    : LightingResult :=
  mkLit 0.5 10 20 30.

Local Abbreviation demoFrame :=
  (renderFrameSingleThread World.zeroMath unit (fun _ => tt) (fun _ => 0)
     (fun _ => 35) demoShader (fun _ => false)).

Lemma demoLoop_fits : fits (temporal _ demoLoop) (FrameBuffer.new 2 1).
Proof. split; reflexivity. Qed.

Lemma demoScene_static : static demoScene.
Proof. split; repeat constructor. Qed.

Lemma static_second_frame_witness :
  exists rl1 fb1 rl2,
    demoFrame demoLoop (FrameBuffer.new 2 1) = Some (rl1, fb1) /\
    demoFrame (withScene _ rl1 demoScene (world _ rl1)) fb1 = Some (rl2, fb1) /\
    traces _ rl2 = traces _ rl1.
Proof.
  assert (Hframe : { res | demoFrame demoLoop (FrameBuffer.new 2 1) = Some res }).
  { eexists. vm_compute. reflexivity. }
  destruct Hframe as [[rl1 fb1] Hframe].
  exists rl1, fb1.
  destruct (static_second_frame World.zeroMath (fun _ => tt) (fun _ => 0)
              (fun _ => 35) demoShader (fun _ => false)
              demoLoop (FrameBuffer.new 2 1) rl1 fb1 demoScene
              eq_refl eq_refl demoLoop_fits Hframe eq_refl eq_refl
              demoScene_static)
    as (_ & Hsecond & _).
  destruct (Hsecond fb1 eq_refl eq_refl) as (rl2 & H2 & Ht & _).
  exists rl2. split; [exact Hframe|]. split; [exact H2|exact Ht].
Defined.

Lemma moved_camera_traces_all_witness :
  exists rl1 fb1,
    demoFrame demoLoop (FrameBuffer.new 2 1) = Some (rl1, fb1) /\
    traces _ rl1 = 2%nat.
Proof.
  assert (Hframe : { res | demoFrame demoLoop (FrameBuffer.new 2 1) = Some res }).
  { eexists. vm_compute. reflexivity. }
  destruct Hframe as [[rl1 fb1] Hframe].
  exists rl1, fb1. split; [exact Hframe|].
  assert (Hcam : TemporalCache.cameraChanged (temporal _ demoLoop)
                   (cam_position (camera (scene _ demoLoop)))
                   (cam_rotation (camera (scene _ demoLoop))) = true)
    by (vm_compute; reflexivity).
  exact (proj1 (moved_camera_traces_all World.zeroMath (fun _ => tt) (fun _ => 0)
                  (fun _ => 35) demoShader (fun _ => false)
                  demoLoop (FrameBuffer.new 2 1) rl1 fb1
                  eq_refl demoLoop_fits (or_intror Hcam) Hframe)).
Defined.

(** The loop of the demonstration under adaptive quality. *)
Definition hurriedLoop : t unit :=
  {| scene := demoScene; glyphCache := None;
     world := World.new (entities demoScene);
     temporal := TemporalCache.new 64 2;
     useTemporalReuse := true; useAdaptiveQuality := true; traces := 0 |}.

Lemma deadline_ends_rows_witness :
  renderFrameSingleThread World.zeroMath unit (fun _ => tt) (fun _ => 0)
    (fun _ => 35) demoShader (fun _ => true) hurriedLoop (FrameBuffer.new 64 2)
  = Some (withTemporal _ hurriedLoop
            (TemporalCache.updateCamera (temporal _ hurriedLoop)
               (cam_position (camera demoScene)) (cam_rotation (camera demoScene))),
          FrameBuffer.new 64 2).
Proof.
  exact (proj2 (deadline_ends_rows World.zeroMath (fun _ => tt) (fun _ => 0)
                  (fun _ => 35) demoShader (fun _ => true)
                  hurriedLoop (FrameBuffer.new 64 2) eq_refl (fun _ => eq_refl))
               eq_refl).
Defined.


End RenderLoop.

(** * AdaptiveQuality (src/renderer/AdaptiveQuality.ts), on binary64 *)
Module AdaptiveQuality.
Local Open Scope float_scope.

Record t := mk {
  targetFrameTime : float;
  currentScale : float
}.

Definition minScale : float := 0.5.
Definition maxScale : float := 1.0.

(** [constructor(targetFPS = 30)] *)
Definition new (targetFPS : float) : t :=
  {| targetFrameTime := 1000 / targetFPS; currentScale := 1.0 |}.

(** [setTargetFPS(fps)] *)
Definition setTargetFPS (a : t) (fps : float) : t :=
  {| targetFrameTime := 1000 / fps; currentScale := currentScale a |}.

(** [adjust(lastFrameTime)]: the new controller state; the number that the
    method returns is [currentScale] of that state.  [x > y] is [y < x]. *)
Definition adjust (a : t) (lastFrameTime : float) : t :=
  if targetFrameTime a * 1.2 <? lastFrameTime then
    {| targetFrameTime := targetFrameTime a;
       currentScale := Js.Math_max minScale (currentScale a - 0.05) |}
  else if lastFrameTime <? targetFrameTime a * 0.8 then
    {| targetFrameTime := targetFrameTime a;
       currentScale := Js.Math_min maxScale (currentScale a + 0.02) |}
  else a.

(** [get scale()] *)
Definition scale (a : t) : float := currentScale a.

(** A run of the controller over the frame times of successive ticks. *)
Definition adjustAll (a : t) (frameTimes : list float) : t :=
  fold_left adjust frameTimes a.

(** The two tests of [adjust], as the program evaluates them. *)
Definition slow (target ft : float) : Prop := (target * 1.2 <? ft) = true.
Definition fast (target ft : float) : Prop :=
  (target * 1.2 <? ft) = false /\ (ft <? target * 0.8) = true.
Definition steady (target ft : float) : Prop :=
  (target * 1.2 <? ft) = false /\ (ft <? target * 0.8) = false.

(** The two steps of the scale. *)
Definition lower (s : float) : float := Js.Math_max minScale (s - 0.05).
Definition raise (s : float) : float := Js.Math_min maxScale (s + 0.02).

(** A scale between the floor and the ceiling. *)
Definition between (s : float) : Prop :=
  (0.5 <=? s) = true /\ (s <=? 1.0) = true.

Definition inRange (a : t) : Prop := between (currentScale a).

(** The exact value of a finite number, for comparing what the program
    computes with real arithmetic. *)
Definition exactQ (x : float) : Q :=
  match Prim2SF x with
  | S754_finite s m e =>
      ((if s then (-1) else 1) * inject_Z (Zpos m) * Qpower 2 e)%Q
  | _ => 0%Q
  end.

(** ** The branches of [adjust] *)

Lemma adjust_target a ft : targetFrameTime (adjust a ft) = targetFrameTime a.
Proof.
  unfold adjust.
  destruct (_ <? ft); [reflexivity|]. destruct (ft <? _); reflexivity.
Qed.

Lemma adjust_slow a ft :
  slow (targetFrameTime a) ft -> currentScale (adjust a ft) = lower (currentScale a).
Proof. unfold slow, adjust. intros ->. reflexivity. Qed.

Lemma adjust_fast a ft :
  fast (targetFrameTime a) ft -> currentScale (adjust a ft) = raise (currentScale a).
Proof. unfold fast, adjust. intros [-> ->]. reflexivity. Qed.

Lemma adjust_steady a ft : steady (targetFrameTime a) ft -> adjust a ft = a.
Proof. unfold steady, adjust. intros [-> ->]. reflexivity. Qed.

Lemma adjust_cases a ft :
  slow (targetFrameTime a) ft \/ fast (targetFrameTime a) ft \/
  steady (targetFrameTime a) ft.
Proof.
  unfold slow, fast, steady.
  destruct (_ <? ft); [left; reflexivity|right].
  destruct (ft <? _); [left|right]; split; reflexivity.
Qed.

(** ** The steps keep the range and are monotone *)

Lemma finite_literal (x : float) : is_finite x = true -> FloatRound.finite x.
Proof. apply FloatRound.finite_is_finite. Qed.

Lemma finite_floor : FloatRound.finite 0.5.
Proof. apply finite_literal. reflexivity. Qed.

Lemma finite_ceiling : FloatRound.finite 1.0.
Proof. apply finite_literal. reflexivity. Qed.

Lemma finite_down : FloatRound.finite 0.05.
Proof. apply finite_literal. reflexivity. Qed.

Lemma finite_up : FloatRound.finite 0.02.
Proof. apply finite_literal. reflexivity. Qed.

Lemma scale_finite s : between s -> FloatRound.finite s.
Proof.
  intros [H1 H2].
  apply (FloatRound.between_finite 0.5 s 1.0); auto using finite_floor, finite_ceiling.
Qed.

Lemma lower_spec (s : float) :
  FloatRound.finite s ->
  Prim2SF (lower s) <> S754_nan /\
  (lower s = 0.5 \/ lower s = s - 0.05) /\
  FloatRound.ordv (Prim2SF (lower s))
  = Z.max (FloatRound.ordv (Prim2SF 0.5)) (FloatRound.ordv (Prim2SF (s - 0.05))).
Proof.
  intros Fs.
  destruct (FloatRound.sub_ordv s 0.05 Fs finite_down) as [N _].
  destruct (FloatRound.Math_max_ordv 0.5 (s - 0.05) ltac:(discriminate) N) as [Hc Ho].
  unfold lower, minScale. split; [|split; [exact Hc|exact Ho]].
  destruct Hc as [-> | ->]; [discriminate|exact N].
Qed.

Lemma raise_spec (s : float) :
  FloatRound.finite s ->
  Prim2SF (raise s) <> S754_nan /\
  (raise s = 1.0 \/ raise s = s + 0.02) /\
  FloatRound.ordv (Prim2SF (raise s))
  = Z.min (FloatRound.ordv (Prim2SF 1.0)) (FloatRound.ordv (Prim2SF (s + 0.02))).
Proof.
  intros Fs.
  destruct (FloatRound.add_ordv s 0.02 Fs finite_up) as [N _].
  destruct (FloatRound.Math_min_ordv 1.0 (s + 0.02) ltac:(discriminate) N) as [Hc Ho].
  unfold raise, maxScale. split; [|split; [exact Hc|exact Ho]].
  destruct Hc as [-> | ->]; [discriminate|exact N].
Qed.

Lemma lower_mono (s s' : float) :
  FloatRound.finite s -> FloatRound.finite s' ->
  (s <=? s') = true -> (lower s <=? lower s') = true.
Proof.
  intros Fs Fs' H.
  destruct (lower_spec s Fs) as (N1 & _ & E1). destruct (lower_spec s' Fs') as (N2 & _ & E2).
  pose proof (FloatRound.sub_mono s s' 0.05 0.05 Fs Fs' finite_down finite_down H eq_refl) as Hsub.
  destruct (FloatRound.leb_not_nan _ _ Hsub) as [Na Nb].
  apply FloatRound.leb_le in Hsub; [|assumption..].
  apply FloatRound.leb_le; [assumption..|]. rewrite E1, E2. lia.
Qed.

Lemma raise_mono (s s' : float) :
  FloatRound.finite s -> FloatRound.finite s' ->
  (s <=? s') = true -> (raise s <=? raise s') = true.
Proof.
  intros Fs Fs' H.
  destruct (raise_spec s Fs) as (N1 & _ & E1). destruct (raise_spec s' Fs') as (N2 & _ & E2).
  pose proof (FloatRound.add_mono s s' 0.02 0.02 Fs Fs' finite_up finite_up H eq_refl) as Hadd.
  destruct (FloatRound.leb_not_nan _ _ Hadd) as [Na Nb].
  apply FloatRound.leb_le in Hadd; [|assumption..].
  apply FloatRound.leb_le; [assumption..|]. rewrite E1, E2. lia.
Qed.

Lemma lower_between (s : float) : between s -> between (lower s).
Proof.
  intros Hs. pose proof (scale_finite s Hs) as Fs. destruct Hs as [H1 H2].
  pose proof (lower_mono s 1.0 Fs finite_ceiling H2) as Hup.
  pose proof (lower_mono 0.5 s finite_floor Fs H1) as Hlo.
  split.
  - replace 0.5 with (lower 0.5) at 1 by (vm_compute; reflexivity). exact Hlo.
  - apply (FloatOrder.leb_trans _ (lower 1.0)); [exact Hup|vm_compute; reflexivity].
Qed.

Lemma raise_between (s : float) : between s -> between (raise s).
Proof.
  intros Hs. pose proof (scale_finite s Hs) as Fs. destruct Hs as [H1 H2].
  pose proof (raise_mono s 1.0 Fs finite_ceiling H2) as Hup.
  pose proof (raise_mono 0.5 s finite_floor Fs H1) as Hlo.
  split.
  - apply (FloatOrder.leb_trans _ (raise 0.5)); [vm_compute; reflexivity|exact Hlo].
  - replace 1.0 with (raise 1.0) at 2 by (vm_compute; reflexivity). exact Hup.
Qed.

Lemma adjust_inRange a ft : inRange a -> inRange (adjust a ft).
Proof.
  unfold inRange. intros H. destruct (adjust_cases a ft) as [Hc|[Hc|Hc]].
  - rewrite (adjust_slow _ _ Hc). apply lower_between, H.
  - rewrite (adjust_fast _ _ Hc). apply raise_between, H.
  - rewrite (adjust_steady _ _ Hc). exact H.
Qed.

Lemma adjustAll_inRange fts : forall a, inRange a -> inRange (adjustAll a fts).
Proof.
  induction fts as [|ft fts IH]; intros a Ha; [exact Ha|].
  apply (IH (adjust a ft)), adjust_inRange, Ha.
Qed.

(** ** A step moves the scale *)

(** Breakpoints from the floor to the ceiling, [step] apart. *)
Fixpoint grid (n : nat) (x step : float) : list float :=
  match n with
  | O => []
  | S n => let y := Js.Math_min 1.0 (x + step) in y :: grid n y step
  end.

Definition lowerGrid : list float := 0.5 :: grid 13 0.5 0.04.
Definition raiseGrid : list float := 0.5 :: grid 34 0.5 0.015.

Lemma grid_cover (pts : list float) (s : float) :
  forallb is_finite pts = true ->
  hd 0 pts = 0.5 -> List.last pts 0 = 1.0 -> (2 <= length pts)%nat ->
  between s ->
  exists lo hi, In (lo, hi) (FloatRound.neighbours pts) /\
    (lo <=? s) = true /\ (s <=? hi) = true.
Proof.
  intros Hfin Hhd Hlast Hlen [H1 H2].
  destruct pts as [|p0 pts]; [cbn in Hlen; lia|].
  destruct pts as [|p1 pts]; [cbn in Hlen; lia|].
  cbn [hd] in Hhd. subst p0.
  apply (FloatRound.chain_cover (p1 :: pts) 0.5 s).
  - apply Forall_forall. intros x Hx. apply finite_literal.
    rewrite forallb_forall in Hfin. apply Hfin, list_elem_of_In, Hx.
  - exact H1.
  - rewrite (FloatRound.last_default _ 0.5 0) by discriminate.
    change (List.last (p1 :: pts) 0) with (List.last (0.5 :: p1 :: pts) 0).
    rewrite Hlast. exact H2.
  - discriminate.
Qed.

Lemma sub_step_strict (s : float) : between s -> (s - 0.05 <? s) = true.
Proof.
  intros Hs. pose proof (scale_finite s Hs) as Fs.
  destruct (grid_cover lowerGrid s) as (lo & hi & Hin & Hlo & Hhi);
    [vm_compute; reflexivity..|cbn; lia|exact Hs|].
  assert (Hcheck : forallb (fun '(lo, hi) => is_finite hi && (hi - 0.05 <? lo))
                     (FloatRound.neighbours lowerGrid) = true)
    by (vm_compute; reflexivity).
  rewrite forallb_forall in Hcheck. specialize (Hcheck _ Hin). cbv beta iota in Hcheck.
  apply andb_true_iff in Hcheck as [Fhi Hstep].
  pose proof (FloatRound.sub_mono s hi 0.05 0.05 Fs (finite_literal _ Fhi)
                finite_down finite_down Hhi eq_refl) as Hsub.
  apply (FloatOrder.leb_ltb_trans _ (hi - 0.05)); [exact Hsub|].
  apply (FloatOrder.ltb_leb_trans _ lo); assumption.
Qed.

Lemma add_step_strict (s : float) : between s -> (s <? s + 0.02) = true.
Proof.
  intros Hs. pose proof (scale_finite s Hs) as Fs.
  destruct (grid_cover raiseGrid s) as (lo & hi & Hin & Hlo & Hhi);
    [vm_compute; reflexivity..|cbn; lia|exact Hs|].
  assert (Hcheck : forallb (fun '(lo, hi) => is_finite lo && (hi <? lo + 0.02))
                     (FloatRound.neighbours raiseGrid) = true)
    by (vm_compute; reflexivity).
  rewrite forallb_forall in Hcheck. specialize (Hcheck _ Hin). cbv beta iota in Hcheck.
  apply andb_true_iff in Hcheck as [Flo Hstep].
  pose proof (FloatRound.add_mono lo s 0.02 0.02 (finite_literal _ Flo) Fs
                finite_up finite_up Hlo eq_refl) as Hadd.
  apply (FloatOrder.ltb_leb_trans _ (lo + 0.02)); [|exact Hadd].
  apply (FloatOrder.leb_ltb_trans _ hi); assumption.
Qed.

Lemma lower_strict (s : float) :
  between s -> (0.5 <? s) = true -> (lower s <? s) = true.
Proof.
  intros Hs Hgt. destruct (lower_spec s (scale_finite s Hs)) as (_ & [-> | ->] & _).
  - exact Hgt.
  - apply sub_step_strict, Hs.
Qed.

Lemma raise_strict (s : float) :
  between s -> (s <? 1.0) = true -> (s <? raise s) = true.
Proof.
  intros Hs Hlt. destruct (raise_spec s (scale_finite s Hs)) as (_ & [-> | ->] & _).
  - exact Hlt.
  - apply add_step_strict, Hs.
Qed.

(** A scale in the range is the floor or above it, the ceiling or below
    it. *)
Lemma between_ends (s : float) :
  between s ->
  (s = 0.5 \/ (0.5 <? s) = true) /\ (s = 1.0 \/ (s <? 1.0) = true).
Proof.
  intros [H1 H2].
  destruct (FloatRound.leb_not_nan _ _ H1) as [_ Ns].
  pose proof (FloatRound.leb_le 0.5 s ltac:(discriminate) Ns) as L1.
  pose proof (FloatRound.leb_le s 1.0 Ns ltac:(discriminate)) as L2.
  pose proof (FloatRound.ltb_lt 0.5 s ltac:(discriminate) Ns) as T1.
  pose proof (FloatRound.ltb_lt s 1.0 Ns ltac:(discriminate)) as T2.
  apply L1 in H1. apply L2 in H2.
  assert (Hhalf : (0 < FloatRound.ordv (Prim2SF 0.5))%Z) by (vm_compute; reflexivity).
  split.
  - destruct (Z.eq_dec (FloatRound.ordv (Prim2SF 0.5)) (FloatRound.ordv (Prim2SF s))) as [E|Hne].
    + left. symmetry. apply FloatRound.same_value; [discriminate|exact Ns|exact E|lia].
    + right. apply T1. lia.
  - destruct (Z.eq_dec (FloatRound.ordv (Prim2SF s)) (FloatRound.ordv (Prim2SF 1.0))) as [E|Hne].
    + left. apply FloatRound.same_value; [exact Ns|discriminate|exact E|lia].
    + right. apply T2. lia.
Qed.

(** ** Runs of slow and of fast frames *)

Lemma adjustAll_slow fts : forall a,
  Forall (slow (targetFrameTime a)) fts ->
  currentScale (adjustAll a fts) = Nat.iter (length fts) lower (currentScale a).
Proof.
  induction fts as [|ft fts IH]; intros a Hall; [reflexivity|].
  inversion Hall as [|? ? Hft Hrest]; subst.
  change (adjustAll a (ft :: fts)) with (adjustAll (adjust a ft) fts).
  rewrite IH by (rewrite adjust_target; exact Hrest).
  rewrite (adjust_slow _ _ Hft). cbn [length]. symmetry. apply Nat.iter_succ_r.
Qed.

Lemma adjustAll_fast fts : forall a,
  Forall (fast (targetFrameTime a)) fts ->
  currentScale (adjustAll a fts) = Nat.iter (length fts) raise (currentScale a).
Proof.
  induction fts as [|ft fts IH]; intros a Hall; [reflexivity|].
  inversion Hall as [|? ? Hft Hrest]; subst.
  change (adjustAll a (ft :: fts)) with (adjustAll (adjust a ft) fts).
  rewrite IH by (rewrite adjust_target; exact Hrest).
  rewrite (adjust_fast _ _ Hft). cbn [length]. symmetry. apply Nat.iter_succ_r.
Qed.

Lemma iter_fixed (f : float -> float) (x s : float) (k : nat) :
  f x = x -> Nat.iter k f s = x -> forall n, (k <= n)%nat -> Nat.iter n f s = x.
Proof.
  intros Hx Hk n Hn. replace n with ((n - k) + k)%nat by lia.
  rewrite Nat.iter_add, Hk. clear Hn. induction (n - k)%nat as [|m IH]; [reflexivity|].
  cbn [Nat.iter nat_rect]. unfold Nat.iter in IH. rewrite IH. exact Hx.
Qed.

Lemma iter_mono (f : float -> float) :
  (forall s, between s -> between (f s)) ->
  (forall s s', FloatRound.finite s -> FloatRound.finite s' ->
     (s <=? s') = true -> (f s <=? f s') = true) ->
  forall n s s', between s -> between s' -> (s <=? s') = true ->
    between (Nat.iter n f s) /\ between (Nat.iter n f s') /\
    (Nat.iter n f s <=? Nat.iter n f s') = true.
Proof.
  intros Hb Hm. induction n as [|n IH]; intros s s' Hs Hs' H; [auto|].
  destruct (IH s s' Hs Hs' H) as (B1 & B2 & L).
  cbn [Nat.iter nat_rect]. fold (Nat.iter n f s). fold (Nat.iter n f s').
  repeat split; try apply Hb; try assumption.
  apply Hm; auto using scale_finite.
Qed.

Lemma between_floor : between 0.5.
Proof. split; reflexivity. Qed.

Lemma between_ceiling : between 1.0.
Proof. split; reflexivity. Qed.

Lemma lower_ten (s : float) : between s -> Nat.iter 10 lower s = 0.5.
Proof.
  intros Hs.
  destruct (iter_mono lower lower_between lower_mono 9 s 1.0 Hs between_ceiling (proj2 Hs))
    as (B & _ & L).
  rewrite (Nat.iter_succ 9 lower s).
  set (x := Nat.iter 9 lower s) in *.
  pose proof (scale_finite x B) as Fx.
  assert (Hnine : is_finite (Nat.iter 9 lower 1.0) = true) by (vm_compute; reflexivity).
  pose proof (FloatRound.sub_mono x (Nat.iter 9 lower 1.0) 0.05 0.05 Fx
                (finite_literal _ Hnine) finite_down finite_down L eq_refl) as Hsub.
  assert (Hlt : (x - 0.05 <? 0.5) = true).
  { apply (FloatOrder.leb_ltb_trans _ (Nat.iter 9 lower 1.0 - 0.05)); [exact Hsub|].
    vm_compute. reflexivity. }
  destruct (FloatRound.sub_ordv x 0.05 Fx finite_down) as [N _].
  unfold lower, Js.Math_max, minScale.
  rewrite (FloatRound.finite_is_nan _ N).
  replace (is_nan 0.5) with false by reflexivity. cbn [orb].
  destruct (0.5 <? x - 0.05) eqn:E.
  - pose proof (FloatOrder.ltb_trans _ _ _ E Hlt) as Hbad.
    rewrite FloatOrder.ltb_irrefl in Hbad. discriminate.
  - rewrite Hlt. reflexivity.
Qed.

Lemma raise_twentyfive (s : float) : between s -> Nat.iter 25 raise s = 1.0.
Proof.
  intros Hs.
  destruct (iter_mono raise raise_between raise_mono 24 0.5 s between_floor Hs (proj1 Hs))
    as (_ & B & L).
  rewrite (Nat.iter_succ 24 raise s).
  set (x := Nat.iter 24 raise s) in *.
  pose proof (scale_finite x B) as Fx.
  assert (Hlow : is_finite (Nat.iter 24 raise 0.5) = true) by (vm_compute; reflexivity).
  pose proof (FloatRound.add_mono (Nat.iter 24 raise 0.5) x 0.02 0.02
                (finite_literal _ Hlow) Fx finite_up finite_up L eq_refl) as Hadd.
  assert (Hgt : (1.0 <? x + 0.02) = true).
  { apply (FloatOrder.ltb_leb_trans _ (Nat.iter 24 raise 0.5 + 0.02)); [|exact Hadd].
    vm_compute. reflexivity. }
  destruct (FloatRound.add_ordv x 0.02 Fx finite_up) as [N _].
  unfold raise, Js.Math_min, maxScale.
  rewrite (FloatRound.finite_is_nan _ N).
  replace (is_nan 1.0) with false by reflexivity. cbn [orb].
  rewrite Hgt. reflexivity.
Qed.


(** C7 (the two thresholds are rounded products, not 120% and 80% of the
    target).  At 36 frames per second the target is 27.77777777777778 ms
    and the program's slow threshold is the product rounded to
    33.333333333333336: a frame of exactly that length exceeds 120% of the
    stored target, and of 1000/36 ms, in exact arithmetic, and yet the
    scale stays 1.0.  At 24 frames per second a frame of 50 ms is exactly
    120% of 1000/24 ms, and the scale is lowered to 0.95. *)
Lemma adjust_threshold_counterexample :
  targetFrameTime (new 36) = 27.77777777777778 /\
  (exactQ (targetFrameTime (new 36)) * (12 # 10)
     < exactQ 33.333333333333336)%Q /\
  ((1000 # 36) * (12 # 10) < exactQ 33.333333333333336)%Q /\
  currentScale (adjust (new 36) 33.333333333333336) = 1.0 /\
  Js.Math_max 0.5 (1.0 - 0.05) = 0.95 /\
  ((1000 # 24) * (12 # 10) == exactQ 50)%Q /\
  currentScale (adjust (new 24) 50) = 0.95.
Proof.
  repeat split; vm_compute; reflexivity.
Qed.

(** C7, as the program has it.  For every controller state and frame time
    the three branches of [adjust] are: binary64 [max(0.5, s - 0.05)] when
    the frame time is above the binary64 product [target * 1.2], binary64
    [min(1.0, s + 0.02)] when it is not and is below [target * 0.8], and
    the state unchanged otherwise.  For every scale in [0.5, 1.0]: the
    scale is 0.5 or above it, 1.0 or below it; a slow frame strictly lowers
    a scale above 0.5 and keeps 0.5; a fast frame strictly raises a scale
    below 1.0 and keeps 1.0; a run of slow frames gives 0.5 from the tenth
    adjustment on, a run of fast frames 1.0 from the twenty-fifth on; and
    no run of frame times takes the scale out of [0.5, 1.0]. *)
Theorem adjust_hysteresis (a : t) :
  (forall ft, slow (targetFrameTime a) ft ->
     currentScale (adjust a ft) = Js.Math_max 0.5 (currentScale a - 0.05)) /\
  (forall ft, fast (targetFrameTime a) ft ->
     currentScale (adjust a ft) = Js.Math_min 1.0 (currentScale a + 0.02)) /\
  (forall ft, steady (targetFrameTime a) ft -> adjust a ft = a) /\
  (forall ft, slow (targetFrameTime a) ft \/ fast (targetFrameTime a) ft \/
              steady (targetFrameTime a) ft) /\
  (inRange a ->
   (currentScale a = 0.5 \/ (0.5 <? currentScale a) = true) /\
   (currentScale a = 1.0 \/ (currentScale a <? 1.0) = true) /\
   (forall ft, slow (targetFrameTime a) ft ->
      ((0.5 <? currentScale a) = true ->
       (currentScale (adjust a ft) <? currentScale a) = true) /\
      (currentScale a = 0.5 -> currentScale (adjust a ft) = 0.5)) /\
   (forall ft, fast (targetFrameTime a) ft ->
      ((currentScale a <? 1.0) = true ->
       (currentScale a <? currentScale (adjust a ft)) = true) /\
      (currentScale a = 1.0 -> currentScale (adjust a ft) = 1.0)) /\
   (forall fts, Forall (slow (targetFrameTime a)) fts -> (10 <= length fts)%nat ->
      currentScale (adjustAll a fts) = 0.5) /\
   (forall fts, Forall (fast (targetFrameTime a)) fts -> (25 <= length fts)%nat ->
      currentScale (adjustAll a fts) = 1.0) /\
   (forall fts, (0.5 <=? currentScale (adjustAll a fts)) = true /\
                (currentScale (adjustAll a fts) <=? 1.0) = true)).
Proof.
  split; [intros ft H; apply (adjust_slow _ _ H)|].
  split; [intros ft H; apply (adjust_fast _ _ H)|].
  split; [intros ft H; apply (adjust_steady _ _ H)|].
  split; [intros ft; apply adjust_cases|].
  intros Ha. destruct (between_ends _ Ha) as [Hfloor Hceiling].
  split; [exact Hfloor|]. split; [exact Hceiling|].
  split; [|split; [|split; [|split]]].
  - intros ft Hs. rewrite (adjust_slow _ _ Hs). split.
    + intros Hgt. apply lower_strict; assumption.
    + intros ->. vm_compute. reflexivity.
  - intros ft Hf. rewrite (adjust_fast _ _ Hf). split.
    + intros Hlt. apply raise_strict; assumption.
    + intros ->. vm_compute. reflexivity.
  - intros fts Hall Hn. rewrite (adjustAll_slow fts a Hall).
    apply (iter_fixed lower 0.5 (currentScale a) 10); [reflexivity| |exact Hn].
    apply lower_ten, Ha.
  - intros fts Hall Hn. rewrite (adjustAll_fast fts a Hall).
    apply (iter_fixed raise 1.0 (currentScale a) 25); [reflexivity| |exact Hn].
    apply raise_twentyfive, Ha.
  - intros fts. apply (adjustAll_inRange fts a Ha).
Qed.

Lemma adjust_hysteresis_witness :
  inRange (adjust (new 30) 50) /\
  currentScale (adjust (new 30) 50) = 0.95 /\
  (currentScale (adjust (adjust (new 30) 50) 50)
   <? currentScale (adjust (new 30) 50)) = true.
Proof.
  assert (Ha : inRange (adjust (new 30) 50)) by (split; vm_compute; reflexivity).
  assert (E : currentScale (adjust (new 30) 50) = 0.95) by (vm_compute; reflexivity).
  split; [exact Ha|]. split; [exact E|].
  apply (proj2 (proj2 (proj2 (proj2 (adjust_hysteresis (adjust (new 30) 50))))) Ha).
  - vm_compute. reflexivity.
  - rewrite E. vm_compute. reflexivity.
Defined.

End AdaptiveQuality.
